(** * kubectl-free: resource aggregation and presentation engine

    A shallow embedding of [pkg/cmd/free.go], [pkg/cmd/showpods.go] and
    [pkg/table/table.go], with the library code they call
    ([strconv.FormatInt], [resource.Quantity], [slices.SortFunc]) modelled
    next to them, followed by the properties of the report they produce. *)

From Stdlib Require Import ZArith List String Ascii Lia Bool DecimalString.
From Stdlib Require Import Sorting.Permutation Sorting.Sorted.
From stdpp Require Import base tactics option list numbers strings.

Open Scope string_scope.
Open Scope list_scope.
Open Scope Z_scope.

(** ** Library code used by the commands *)

(** [strconv.FormatInt(i, 10)]: the decimal text of a signed integer, a
    leading minus sign for negative numbers and no leading zeros. *)
Definition FormatInt (i : Z) : string := NilZero.string_of_int (Z.to_int i).

Module resource.

(** [resource.Quantity] (k8s.io/apimachinery) holds a decimal amount in
    one of two forms: an [int64Amount], an [int64] value at a decimal
    scale, or, when that cannot hold it, an [inf.Dec] with an unscaled
    [big.Int]. [MilliValue] and [Value] return an [int64]; they give 0 when
    scaling an [int64Amount] overflows, and the low 64 bits when a [Dec] is
    too large. *)

Definition mostNegative : Z := -9223372036854775808.
Definition maxInt64 : Z := 9223372036854775807.

(** The [int64] that holds the low 64 bits of [z]: the result of an
    [int64] operation whose exact result is [z]. *)
Definition int64 (z : Z) : Z :=
  (z + 9223372036854775808) mod 18446744073709551616 - 9223372036854775808.

(** [int64Amount]: the amount [value * 10^scale]. *)
Record int64Amount : Type := mkInt64Amount { value : Z; scale : Z }.

(** [inf.Dec]: the amount [UnscaledBig * 10^(-Scale)]. *)
Record Dec : Type := mkDec { UnscaledBig : Z; Scale : Z }.

(** [Quantity]: its fields [i] and [d]; [d.Dec] is [None] when nil, and
    then [i] holds the amount. *)
Record Quantity : Type := mkQuantity {
  Quantity_i : int64Amount;
  Quantity_d : option Dec;
}.

(** [int64MultiplyScale(a, b)], and [int64MultiplyScale10], [...100] and
    [...1000], which are the same code for a constant [b]: the product and
    whether it fits. *)
Definition int64MultiplyScale (a b : Z) : Z * bool :=
  if (a =? 0) || (a =? 1) then (int64 (a * b), true)
  else if (a =? mostNegative) && negb (b =? 1) then (0, false)
  else
    let c := int64 (a * b) in
    if negb (Z.quot c b =? a) then (0, false) else (c, true).

(** The loop of [positiveScaleInt64]:
    [for i := Scale(0); i < scale; i++ { value, ok = int64MultiplyScale(value, 10) }]. *)
Fixpoint multiplyLoop (n : nat) (value : Z) : Z * bool :=
  match n with
  | O => (value, true)
  | S n' =>
      let '(value, ok) := int64MultiplyScale value 10 in
      if ok : bool then multiplyLoop n' value else (0, false)
  end.

(** [positiveScaleInt64(base, scale)]: [base * 10^scale], or 0 and false
    when that overflows. *)
Definition positiveScaleInt64 (base scale : Z) : Z * bool :=
  match scale with
  | 0 => (base, true)
  | 1 => int64MultiplyScale base 10
  | 2 => int64MultiplyScale base 100
  | 3 => int64MultiplyScale base 1000
  | 6 => int64MultiplyScale base 1000000
  | 9 => int64MultiplyScale base 1000000000
  | _ => multiplyLoop (Z.to_nat scale) base
  end.

(** The loop of [negativeScaleInt64], and what follows it. *)
Fixpoint divideLoop (n : nat) (base value : Z) (fraction : bool) : Z * bool :=
  match n with
  | O =>
      if fraction
      then (if 0 <? base then int64 (value + 1) else int64 (value - 1), false)
      else (value, true)
  | S n' =>
      let fraction := fraction || negb (Z.rem value 10 =? 0) in
      let value := Z.quot value 10 in
      if value =? 0 then
        if fraction then (if 0 <? base then 1 else -1, false) else (0, true)
      else divideLoop n' base value fraction
  end.

(** [negativeScaleInt64(base, scale)]: [base / 10^scale], rounded away
    from zero, and whether it is exact. *)
Definition negativeScaleInt64 (base scale : Z) : Z * bool :=
  if scale =? 0 then (base, true)
  else divideLoop (Z.to_nat scale) base base false.

(** [a.AsScaledInt64(scale)] *)
Definition AsScaledInt64 (a : int64Amount) (scale' : Z) : Z * bool :=
  if scale a <? scale' then
    (fst (negativeScaleInt64 (value a) (scale' - scale a)), true)
  else positiveScaleInt64 (value a) (scale a - scale').

(** [x.Int64()] of a [big.Int]: the low 64 bits of its absolute value,
    negated for a negative [x]. *)
Definition Int64 (x : Z) : Z :=
  let v := int64 (Z.abs x mod 18446744073709551616) in
  if x <? 0 then int64 (- v) else v.

(** [int64(math.Pow10(n))]. Above 10^18 the power is outside the [int64]
    range and the conversion depends on the platform; the value is the one
    of amd64. *)
Definition Pow10 (n : Z) : Z :=
  if n <=? 18 then 10 ^ n else mostNegative.

(** [scaledValue(unscaled, scale, newScale)] *)
Definition scaledValue (unscaled scale' newScale : Z) : Z :=
  let dif := scale' - newScale in
  if dif =? 0 then Int64 unscaled
  else if dif <? 0 then int64 (Int64 unscaled * Pow10 (- dif))
  else
    let log10MaxInt64 := 19 in
    if (unscaled <? maxInt64) && (dif <? log10MaxInt64) then
      let divide := Pow10 dif in
      let result := Z.quot (Int64 unscaled) divide in
      let mod_ := Z.rem (Int64 unscaled) divide in
      if negb (mod_ =? 0) then int64 (result + 1) else result
    else
      let divisor := 10 ^ dif in
      let result := unscaled / divisor in
      let remainder := unscaled mod divisor in
      if negb (remainder =? 0) then int64 (Int64 result + 1) else Int64 result.

(** [q.ScaledValue(scale)]; [scale.infScale()] is [- scale]. *)
Definition ScaledValue (q : Quantity) (scale' : Z) : Z :=
  match Quantity_d q with
  | None => fst (AsScaledInt64 (Quantity_i q) scale')
  | Some dec => scaledValue (UnscaledBig dec) (Scale dec) (- scale')
  end.

Definition Milli : Z := -3.

(** [q.MilliValue()] *)
Definition MilliValue (q : Quantity) : Z := ScaledValue q Milli.

(** [q.Value()] *)
Definition Value (q : Quantity) : Z := ScaledValue q 0.

(** [resource.NewQuantity(v, _)] and [resource.NewMilliQuantity(v, _)] *)
Definition NewQuantity (v : Z) : Quantity := mkQuantity (mkInt64Amount v 0) None.
Definition NewMilliQuantity (v : Z) : Quantity :=
  mkQuantity (mkInt64Amount v Milli) None.

(** [q.AsDec()], as a value. *)
Definition AsDec (q : Quantity) : Dec :=
  match Quantity_d q with
  | Some dec => dec
  | None => mkDec (value (Quantity_i q)) (- scale (Quantity_i q))
  end.

(** [upscale(a, b)] of [inf.Dec]: both at the larger of the two scales. *)
Definition upscale (a b : Dec) : Dec * Dec :=
  if Scale a =? Scale b then (a, b)
  else if Scale b <? Scale a
  then (a, mkDec (UnscaledBig b * 10 ^ (Scale a - Scale b)) (Scale a))
  else (mkDec (UnscaledBig a * 10 ^ (Scale b - Scale a)) (Scale b), b).

(** [x.Cmp(y)] of [inf.Dec] *)
Definition Dec_Cmp (x y : Dec) : Z :=
  let '(xx, yy) := upscale x y in
  match UnscaledBig xx ?= UnscaledBig yy with
  | Lt => -1
  | Eq => 0
  | Gt => 1
  end.

(** [q.Cmp(y)]: -1, 0 or 1 as [q] is below, equal to or above [y]. Two
    [int64Amount]s are compared by [int64Amount.Cmp], which gives what the
    comparison of the two as [Dec] gives. *)
Definition Cmp (q y : Quantity) : Z := Dec_Cmp (AsDec q) (AsDec y).

(** The canonical form of a milli amount: no fractional digits, and the
    exponent a multiple of 3 as large as it can be without losing
    precision. [removeFactors] strips factors of 1000 from the mantissa. *)
Fixpoint removeFactors (fuel : nat) (mantissa exponent : Z) : Z * Z :=
  match fuel with
  | O => (mantissa, exponent)
  | S fuel' =>
      if (mantissa mod 1000 =? 0) && negb (mantissa =? 0)
      then removeFactors fuel' (mantissa / 1000) (exponent + 3)
      else (mantissa, exponent)
  end.

(** The DecimalSI suffix of an exponent. *)
Definition suffixDecimalSI (exponent : Z) : string :=
  match exponent with
  | -9 => "n" | -6 => "u" | -3 => "m" | 0 => ""
  | 3 => "k" | 6 => "M" | 9 => "G" | 12 => "T" | 15 => "P" | 18 => "E"
  | _ => "e" +:+ FormatInt exponent
  end.

(** [resource.NewMilliQuantity(i, resource.DecimalSI).String()], for an
    [int64] amount (at most six factors of 1000). *)
Definition MilliString (i : Z) : string :=
  if i =? 0 then "0"
  else
    let '(mantissa, exponent) := removeFactors 8 i (-3) in
    FormatInt mantissa +:+ suffixDecimalSI exponent.

End resource.

(** ** Package [util]

    The commands call helpers of package [util], which is not part of the
    sources at hand, and [duration.HumanDuration] of the Kubernetes
    libraries; they are taken as an interface. *)
Class Util : Type := {
  (** the snapshot type returned by the pod metrics client *)
  PodMetricsList : Type;
  (** [util.GetSiUnit(b, k, m, g)] and [util.GetBinUnit(b, k, m, g)]: the
      byte count of the chosen unit and its suffix *)
  GetSiUnit : bool -> bool -> bool -> bool -> Z * string;
  GetBinUnit : bool -> bool -> bool -> bool -> Z * string;
  (** [util.Green(&s)], [util.Yellow(&s)], [util.Red(&s)],
      [util.DefaultColor(&s)]: the text with its colour escape codes *)
  Green : string -> string;
  Yellow : string -> string;
  Red : string -> string;
  DefaultColor : string -> string;
  (** [util.GetPodStatus(phase, nocolor, emoji)] *)
  GetPodStatus : string -> bool -> bool -> string;
  (** [util.GetContainerMetrics(metrics, podName, containerName)]: the CPU
      and memory usage of a container, each [None] (nil) when unknown *)
  GetContainerMetrics :
    PodMetricsList -> string -> string ->
    option resource.Quantity * option resource.Quantity;
  (** [util.JoinTab(cells)] *)
  JoinTab : list string -> string;
  (** [duration.HumanDuration(d)] (k8s.io/apimachinery), used for the age
      of a pod *)
  HumanDuration : Z -> string;
}.

(** ** Package [table] *)
Module table.

(** [OutputTable]; the [Output] writer is left out, [Print] writes to the
    standard output whatever it holds. *)
Record OutputTable : Type := mkOutputTable {
  Header : list string;
  Rows : list string;
}.

Definition NewOutputTable : OutputTable := mkOutputTable [] [].

(** [t.AddRow(s)] *)
Definition AddRow `{Util} (t : OutputTable) (s : list string) : OutputTable :=
  mkOutputTable (Header t) (Rows t ++ [JoinTab s]).

(** [t.Print()]: the lines handed to the tab writer, the header first
    when there is one. *)
Definition Print `{Util} (t : OutputTable) : list string :=
  (if decide (0 < length (Header t))%nat then [JoinTab (Header t)] else [])
    ++ Rows t.

End table.

(** ** Package [slices] (golang.org/x/exp/slices)

    [slices.SortFunc] is the library's pattern-defeating quicksort on a
    slice, ordered by a caller-supplied [less] (the functions of
    [zsortanyfunc.go], here without their [LessFunc] suffix; the library
    documents the sort as not guaranteed to be stable). The slice is a list, an
    index a natural number, and the result [None] where the Go code would
    panic on an index out of range (or, for a loop run on fuel, where the
    fuel would not suffice; the fuel handed over by the callers always
    does). *)
Module slices.

Inductive sortedHint : Type :=
| unknownHint
| increasingHint
| decreasingHint.

#[global] Instance sortedHint_eq_dec : EqDecision sortedHint.
Proof. solve_decision. Defined.

(** [bits.Len(uint(n))]: the number of bits needed to write [n]. *)
Definition bitsLen (n : nat) : nat :=
  match n with
  | O => O
  | _ => S (Nat.log2 n)
  end.

(** [nextPowerOfTwo(length)] *)
Definition nextPowerOfTwo (length : nat) : Z := Z.shiftl 1 (Z.of_nat (bitsLen length)).

(** [xorshift.Next], on 64-bit words. *)
Definition xorshiftNext (r : Z) : Z :=
  let r := Z.lxor r (Z.shiftl r 13 mod 2 ^ 64) in
  let r := Z.lxor r (Z.shiftr r 17) in
  let r := Z.lxor r (Z.shiftl r 5 mod 2 ^ 64) in
  r.

Section sort.

Context {E : Type} (less : E -> E -> bool).

(** [data[i], data[j] = data[j], data[i]] *)
Definition swap (data : list E) (i j : nat) : option (list E) :=
  x ← data !! i; y ← data !! j; Some (<[j:=x]> (<[i:=y]> data)).

(** [less(data[i], data[j])] *)
Definition lessAt (data : list E) (i j : nat) : option bool :=
  x ← data !! i; y ← data !! j; Some (less x y).

(** The inner loop of [insertionSortLessFunc]:
    [for j := i; j > a && less(data[j], data[j-1]); j-- { swap }]. *)
Fixpoint insertDown (data : list E) (a j : nat) : option (list E) :=
  match j with
  | O => Some data
  | S j' =>
      if decide (a < j)%nat then
        c ← lessAt data j j';
        if c : bool then data' ← swap data j j'; insertDown data' a j'
        else Some data
      else Some data
  end.

(** The outer loop of [insertionSortLessFunc], [n] elements from [i] on. *)
Fixpoint insertionLoop (n : nat) (data : list E) (a i : nat) : option (list E) :=
  match n with
  | O => Some data
  | S n' => data' ← insertDown data a i; insertionLoop n' data' a (S i)
  end.

(** [insertionSortLessFunc(data, a, b, less)]: [for i := a + 1; i < b; i++]. *)
Definition insertionSort (data : list E) (a b : nat) : option (list E) :=
  insertionLoop (b - (a + 1)) data a (a + 1).

(** [siftDownLessFunc(data, lo, hi, first, less)], its loop run from [root]. *)
Fixpoint siftDownLoop (fuel : nat) (data : list E) (root hi first : nat)
  : option (list E) :=
  match fuel with
  | O => None
  | S fuel' =>
      let child := (2 * root + 1)%nat in
      if decide (hi <= child)%nat then Some data
      else
        c ← (if decide (child + 1 < hi)%nat
             then lessAt data (first + child) (first + child + 1)
             else Some false);
        let child := if c : bool then (child + 1)%nat else child in
        c' ← lessAt data (first + root) (first + child);
        if c' : bool then
          data' ← swap data (first + root) (first + child);
          siftDownLoop fuel' data' child hi first
        else Some data
  end.

Definition siftDown (data : list E) (lo hi first : nat) : option (list E) :=
  siftDownLoop (S hi) data lo hi first.

(** The first loop of [heapSortLessFunc]: [for i := n - 1; i >= 0; i--]. *)
Fixpoint heapify (n : nat) (data : list E) (hi first : nat) : option (list E) :=
  match n with
  | O => Some data
  | S i => data' ← siftDown data i hi first; heapify i data' hi first
  end.

(** The second loop of [heapSortLessFunc]: [for i := n - 1; i >= 0; i--]. *)
Fixpoint popAll (n : nat) (data : list E) (first : nat) : option (list E) :=
  match n with
  | O => Some data
  | S i =>
      data' ← swap data first (first + i);
      data'' ← siftDown data' 0 i first;
      popAll i data'' first
  end.

(** [heapSortLessFunc(data, a, b, less)] *)
Definition heapSort (data : list E) (a b : nat) : option (list E) :=
  let first := a in
  let hi := (b - a)%nat in
  data' ← heapify ((hi - 1) / 2 + 1) data hi first;
  popAll hi data' first.

(** [reverseRangeLessFunc]: [for i < j { swap; i++; j-- }]. *)
Fixpoint reverseLoop (fuel : nat) (data : list E) (i j : nat) : option (list E) :=
  match fuel with
  | O => None
  | S fuel' =>
      if decide (i < j)%nat then
        data' ← swap data i j; reverseLoop fuel' data' (S i) (j - 1)
      else Some data
  end.

Definition reverseRange (data : list E) (a b : nat) : option (list E) :=
  reverseLoop (S (b - a)) data a (b - 1).

(** The loop of [breakPatternsLessFunc]: [for i := 0; i < 3; i++]. *)
Fixpoint breakLoop (n : nat) (data : list E) (a length idx i : nat)
    (random modulus : Z) : option (list E) :=
  match n with
  | O => Some data
  | S n' =>
      let random := xorshiftNext random in
      let other := Z.to_nat (Z.land random (modulus - 1)) in
      let other := if decide (length <= other)%nat then (other - length)%nat else other in
      data' ← swap data (idx - 1 + i) (a + other);
      breakLoop n' data' a length idx (S i) random modulus
  end.

(** [breakPatternsLessFunc(data, a, b, less)] *)
Definition breakPatterns (data : list E) (a b : nat) : option (list E) :=
  let length := (b - a)%nat in
  if decide (8 <= length)%nat then
    let random := Z.of_nat length in
    let modulus := nextPowerOfTwo length in
    let idx := (a + (length / 4) * 2)%nat in
    breakLoop 3 data a length idx 0 random modulus
  else Some data.

(** [order2LessFunc(data, a, b, swaps, less)], the counter passed along. *)
Definition order2 (data : list E) (a b swaps : nat) : option (nat * nat * nat) :=
  c ← lessAt data b a;
  if c : bool then Some (b, a, S swaps) else Some (a, b, swaps).

(** [medianLessFunc(data, a, b, c, swaps, less)] *)
Definition median (data : list E) (a b c swaps : nat) : option (nat * nat) :=
  '(a, b, swaps) ← order2 data a b swaps;
  '(b, c, swaps) ← order2 data b c swaps;
  '(a, b, swaps) ← order2 data a b swaps;
  Some (b, swaps).

(** [medianAdjacentLessFunc(data, a, swaps, less)] *)
Definition medianAdjacent (data : list E) (a swaps : nat) : option (nat * nat) :=
  median data (a - 1) a (a + 1) swaps.

(** [choosePivotLessFunc(data, a, b, less)] *)
Definition choosePivot (data : list E) (a b : nat) : option (nat * sortedHint) :=
  let shortestNinther := 50%nat in
  let maxSwaps := (4 * 3)%nat in
  let l := (b - a)%nat in
  let swaps := 0%nat in
  let i := (a + l / 4 * 1)%nat in
  let j := (a + l / 4 * 2)%nat in
  let k := (a + l / 4 * 3)%nat in
  '(j, swaps) ←
    (if decide (8 <= l)%nat then
       '(i, j, k, swaps) ←
         (if decide (shortestNinther <= l)%nat then
            '(i, swaps) ← medianAdjacent data i swaps;
            '(j, swaps) ← medianAdjacent data j swaps;
            '(k, swaps) ← medianAdjacent data k swaps;
            Some (i, j, k, swaps)
          else Some (i, j, k, swaps));
       median data i j k swaps
     else Some (j, swaps));
  if decide (swaps = 0)%nat then Some (j, increasingHint)
  else if decide (swaps = maxSwaps) then Some (j, decreasingHint)
  else Some (j, unknownHint).

(** [for i < b && !less(data[i], data[i-1]) { i++ }] *)
Fixpoint scanOrdered (fuel : nat) (data : list E) (i b : nat) : option nat :=
  match fuel with
  | O => None
  | S fuel' =>
      if decide (i < b)%nat then
        c ← lessAt data i (i - 1);
        if c : bool then Some i else scanOrdered fuel' data (S i) b
      else Some i
  end.

(** [for j := i - 1; j >= 1; j-- { if !less(data[j], data[j-1]) { break }; swap }] *)
Fixpoint shiftLeft (data : list E) (j : nat) : option (list E) :=
  match j with
  | O => Some data
  | S j' =>
      c ← lessAt data j j';
      if c : bool then data' ← swap data j j'; shiftLeft data' j'
      else Some data
  end.

(** [for j := i + 1; j < b; j++ { if !less(data[j], data[j-1]) { break }; swap }],
    [n] elements from [j] on. *)
Fixpoint shiftRight (n : nat) (data : list E) (j : nat) : option (list E) :=
  match n with
  | O => Some data
  | S n' =>
      c ← lessAt data j (j - 1);
      if c : bool then data' ← swap data j (j - 1); shiftRight n' data' (S j)
      else Some data
  end.

(** The loop of [partialInsertionSortLessFunc]: [for j := 0; j < maxSteps; j++]. *)
Fixpoint partialLoop (steps : nat) (data : list E) (a b i : nat)
  : option (list E * bool) :=
  let shortestShifting := 50%nat in
  match steps with
  | O => Some (data, false)
  | S steps' =>
      i ← scanOrdered (S (b - i)) data i b;
      if decide (i = b) then Some (data, true)
      else if decide (b - a < shortestShifting)%nat then Some (data, false)
      else
        data ← swap data i (i - 1);
        data ← (if decide (2 <= i - a)%nat then shiftLeft data (i - 1) else Some data);
        data ← (if decide (2 <= b - i)%nat
                then shiftRight (b - (i + 1)) data (i + 1) else Some data);
        partialLoop steps' data a b i
  end.

(** [partialInsertionSortLessFunc(data, a, b, less)] *)
Definition partialInsertionSort (data : list E) (a b : nat) : option (list E * bool) :=
  let maxSteps := 5%nat in
  partialLoop maxSteps data a b (a + 1).

(** [for i <= j && less(data[i], data[a]) { i++ }] *)
Fixpoint scanLess (fuel : nat) (data : list E) (a i j : nat) : option nat :=
  match fuel with
  | O => None
  | S fuel' =>
      if decide (i <= j)%nat then
        c ← lessAt data i a;
        if c : bool then scanLess fuel' data a (S i) j else Some i
      else Some i
  end.

(** [for i <= j && !less(data[j], data[a]) { j-- }] *)
Fixpoint scanNotLess (fuel : nat) (data : list E) (a i j : nat) : option nat :=
  match fuel with
  | O => None
  | S fuel' =>
      if decide (i <= j)%nat then
        c ← lessAt data j a;
        if c : bool then Some j else scanNotLess fuel' data a i (j - 1)
      else Some j
  end.

(** The main loop of [partitionLessFunc]. *)
Fixpoint partitionLoop (fuel : nat) (data : list E) (a i j : nat)
  : option (list E * nat) :=
  match fuel with
  | O => None
  | S fuel' =>
      i ← scanLess (S (S j - i)) data a i j;
      j ← scanNotLess (S (S j - i)) data a i j;
      if decide (j < i)%nat then Some (data, j)
      else
        data ← swap data i j;
        partitionLoop fuel' data a (S i) (j - 1)
  end.

(** [partitionLessFunc(data, a, b, pivot, less)] *)
Definition partition (data : list E) (a b pivot : nat)
  : option (list E * nat * bool) :=
  data ← swap data a pivot;
  let i := (a + 1)%nat in
  let j := (b - 1)%nat in
  i ← scanLess (S (S j - i)) data a i j;
  j ← scanNotLess (S (S j - i)) data a i j;
  if decide (j < i)%nat then
    data ← swap data j a; Some (data, j, true)
  else
    data ← swap data i j;
    '(data, j) ← partitionLoop (S (b - a)) data a (S i) (j - 1);
    data ← swap data j a;
    Some (data, j, false).

(** [for i <= j && !less(data[a], data[i]) { i++ }] *)
Fixpoint scanNotGreater (fuel : nat) (data : list E) (a i j : nat) : option nat :=
  match fuel with
  | O => None
  | S fuel' =>
      if decide (i <= j)%nat then
        c ← lessAt data a i;
        if c : bool then Some i else scanNotGreater fuel' data a (S i) j
      else Some i
  end.

(** [for i <= j && less(data[a], data[j]) { j-- }] *)
Fixpoint scanGreater (fuel : nat) (data : list E) (a i j : nat) : option nat :=
  match fuel with
  | O => None
  | S fuel' =>
      if decide (i <= j)%nat then
        c ← lessAt data a j;
        if c : bool then scanGreater fuel' data a i (j - 1) else Some j
      else Some j
  end.

(** The loop of [partitionEqualLessFunc]. *)
Fixpoint partitionEqualLoop (fuel : nat) (data : list E) (a i j : nat)
  : option (list E * nat) :=
  match fuel with
  | O => None
  | S fuel' =>
      i ← scanNotGreater (S (S j - i)) data a i j;
      j ← scanGreater (S (S j - i)) data a i j;
      if decide (j < i)%nat then Some (data, i)
      else
        data ← swap data i j;
        partitionEqualLoop fuel' data a (S i) (j - 1)
  end.

(** [partitionEqualLessFunc(data, a, b, pivot, less)] *)
Definition partitionEqual (data : list E) (a b pivot : nat) : option (list E * nat) :=
  data ← swap data a pivot;
  partitionEqualLoop (S (b - a)) data a (a + 1) (b - 1).

(** [pdqsortLessFunc(data, a, b, limit, less)]. Its [for] loop carries
    [wasBalanced] and [wasPartitioned] from one round to the next; a
    recursive call starts with both set. Every round works on a shorter
    range than the one before, so [fuel] above the length of the range is
    enough. *)
Fixpoint pdqsort (fuel : nat) (data : list E) (a b limit : nat)
    (wasBalanced wasPartitioned : bool) : option (list E) :=
  let maxInsertion := 12%nat in
  match fuel with
  | O => None
  | S fuel' =>
      let length := (b - a)%nat in
      if decide (length <= maxInsertion)%nat then insertionSort data a b
      else if decide (limit = 0)%nat then heapSort data a b
      else
        '(data, limit) ←
          (if negb wasBalanced
           then data ← breakPatterns data a b; Some (data, (limit - 1)%nat)
           else Some (data, limit));
        '(pivot, hint) ← choosePivot data a b;
        '(data, pivot, hint) ←
          (if decide (hint = decreasingHint) then
             data ← reverseRange data a b;
             Some (data, (b - 1 - (pivot - a))%nat, increasingHint)
           else Some (data, pivot, hint));
        '(data, done) ←
          (if wasBalanced && wasPartitioned && bool_decide (hint = increasingHint)
           then partialInsertionSort data a b
           else Some (data, false));
        if done : bool then Some data
        else
          dup ← (if decide (0 < a)%nat
                 then c ← lessAt data (a - 1) pivot; Some (negb c)
                 else Some false);
          if dup : bool then
            '(data, mid) ← partitionEqual data a b pivot;
            pdqsort fuel' data mid b limit wasBalanced wasPartitioned
          else
            '(data, mid, alreadyPartitioned) ← partition data a b pivot;
            let wasPartitioned := alreadyPartitioned in
            let leftLen := (mid - a)%nat in
            let rightLen := (b - mid)%nat in
            let balanceThreshold := (length / 8)%nat in
            if decide (leftLen < rightLen)%nat then
              let wasBalanced := bool_decide (balanceThreshold <= leftLen)%nat in
              data ← pdqsort fuel' data a mid limit true true;
              pdqsort fuel' data (mid + 1) b limit wasBalanced wasPartitioned
            else
              let wasBalanced := bool_decide (balanceThreshold <= rightLen)%nat in
              data ← pdqsort fuel' data (mid + 1) b limit true true;
              pdqsort fuel' data a mid limit wasBalanced wasPartitioned
  end.

(** [slices.SortFunc(x, less)] *)
Definition SortFunc (x : list E) : option (list E) :=
  let n := length x in
  pdqsort (S n) x 0 n (bitsLen n) true true.

(** *** What the sort is specified by *)

(** [SortFunc] asks for a [less] that is a strict weak ordering. *)
Record StrictWeakOrder : Prop := {
  swo_irrefl : forall x, less x x = false;
  swo_trans : forall x y z, less x y = true -> less y z = true -> less x z = true;
  swo_negtrans : forall x y z, less y x = false -> less z y = false -> less z x = false;
}.

(** [data'] comes from [data] by exchanges of elements at indices of
    [[a, b)]. *)
Inductive swaps (a b : nat) : list E -> list E -> Prop :=
| swaps_refl data : swaps a b data data
| swaps_step data i j data' data'' :
    (a <= i < b)%nat -> (a <= j < b)%nat ->
    swap data i j = Some data' ->
    swaps a b data' data'' ->
    swaps a b data data''.

(** Every element of [data[a:b]] satisfies [P]. *)
Definition segAll (P : E -> Prop) (a b : nat) (data : list E) : Prop :=
  forall k x, (a <= k < b)%nat -> data !! k = Some x -> P x.

(** [data[a:b]] is in ascending order: no element is less than one before it. *)
Definition sortedSeg (a b : nat) (data : list E) : Prop :=
  forall i j x y, (a <= i)%nat -> (i < j)%nat -> (j < b)%nat ->
    data !! i = Some x -> data !! j = Some y -> less y x = false.

(** The element before [data[a:b]], when there is one, is not above any
    element of the range. *)
Definition lowerBounded (a b : nat) (data : list E) : Prop :=
  a = 0%nat
  \/ exists z, data !! (a - 1)%nat = Some z /\ segAll (fun x => less x z = false) a b data.

(** [x] and [y] are equivalent: neither is less than the other. *)
Definition equivalent (x y : E) : bool := negb (less x y) && negb (less y x).

(** [data'] keeps the elements of [data] that are equivalent to one
    another in the order they have in [data]. *)
Definition stable (data data' : list E) : Prop :=
  forall z, List.filter (equivalent z) data' = List.filter (equivalent z) data.

(** For the heap sort: [c] is a child of [r] in the implicit binary tree. *)
Definition childOf (r c : nat) : Prop := (c = 2 * r + 1 \/ c = 2 * r + 2)%nat.

(** In the heap [data[first : first+hi]] no node from [lo] on is less than
    one of its children. *)
Definition heapFrom (first lo hi : nat) (data : list E) : Prop :=
  forall r c x y, (lo <= r)%nat -> childOf r c -> (c < hi)%nat ->
    data !! (first + r)%nat = Some x -> data !! (first + c)%nat = Some y ->
    less x y = false.

(** The same but for node [root], whose children are however not above
    the parent of [root]. *)
Definition heapExcept (first lo root hi : nat) (data : list E) : Prop :=
  (forall r c x y, (lo <= r)%nat -> r <> root -> childOf r c -> (c < hi)%nat ->
     data !! (first + r)%nat = Some x -> data !! (first + c)%nat = Some y ->
     less x y = false)
  /\ (forall p c x y, (lo <= p)%nat -> childOf p root -> childOf root c -> (c < hi)%nat ->
        data !! (first + p)%nat = Some x -> data !! (first + c)%nat = Some y ->
        less x y = false).

End sort.

End slices.

(** ** Package [cmd] *)
Module cmd.

Import resource.

(** Go's [error] values, by their message. *)
Definition error : Type := string.

Definition sortResource : Type := string.
Definition memorySortResource : sortResource := "memory".
Definition cpuSortResource : sortResource := "cpu".

Record formattedResource : Type := mkFormattedResource {
  Quantity_ : Quantity;
  formatted : string;
}.

Record podInfo : Type := mkPodInfo {
  nodeName : string;
  podNamespace : string;
  podName : string;
  podAge : string;
  podIP : string;
  podStatus : string;
  containerName : string;
  containerCPUUsed : option formattedResource;
  containerCPURequested : string;
  containerCPULimit : string;
  containerMemoryUsed : option formattedResource;
  containerMemoryRequested : string;
  containerMemoryLimit : string;
  containerImage : string;
}.

(** [FreeOptions], without the clients (see [Cluster]) and the streams. *)
Record FreeOptions : Type := mkFreeOptions {
  labelSelector : string;
  pod : bool;
  emojiStatus : bool;
  allNamespaces : bool;
  noHeaders : bool;
  noMetrics : bool;
  compactView : bool;
  bytes : bool;
  kByte : bool;
  mByte : bool;
  gByte : bool;
  withoutUnit : bool;
  binPrefix : bool;
  nocolor : bool;
  warnThreshold : Z;
  critThreshold : Z;
  list_ : bool;
  listContainerImage : bool;
  listAll : bool;
  sortByResource : sortResource;
  freeTableHeaders : list string;
  listTableHeaders : list string;
}.

(** [NewFreeOptions] *)
Definition NewFreeOptions : FreeOptions := {|
  labelSelector := "";
  pod := false;
  emojiStatus := false;
  allNamespaces := true;
  noHeaders := false;
  noMetrics := false;
  compactView := true;
  bytes := false;
  kByte := false;
  mByte := true;
  gByte := false;
  withoutUnit := false;
  binPrefix := false;
  nocolor := false;
  warnThreshold := 60;
  critThreshold := 90;
  list_ := false;
  listContainerImage := false;
  listAll := false;
  sortByResource := memorySortResource;
  freeTableHeaders := [];
  listTableHeaders := [];
|}.

(** [v1.ResourceList], reduced to the two resources the commands read. *)
Record ResourceList : Type := mkResourceList {
  cpu : option Quantity;
  memory : option Quantity;
}.

(** [rl.Cpu()] and [rl.Memory()]: the listed quantity, or a zero quantity. *)
Definition Cpu (rl : ResourceList) : Quantity := default (NewQuantity 0) (cpu rl).
Definition Memory (rl : ResourceList) : Quantity := default (NewQuantity 0) (memory rl).

(** [v1.Container], [v1.Pod] and [v1.Node], reduced to the fields read. A
    time is its distance from Go's zero time. *)
Record Container : Type := mkContainer {
  Container_Name : string;
  Container_Image : string;
  Requests : ResourceList;
  Limits : ResourceList;
}.

Record Pod : Type := mkPod {
  Pod_Name : string;
  Pod_Namespace : string;
  PodIP : string;
  Phase : string;
  CreationTimestamp : Z;
  Containers : list Container;
}.

Record Node : Type := mkNode {
  Node_Name : string;
}.

(** The comparison functions handed to [slices.SortFunc] by [sortEntries]. *)
Definition lessMemory (a b : podInfo) : bool :=
  match containerMemoryUsed a, containerMemoryUsed b with
  | None, None => false
  | Some _, None => false
  | None, Some _ => true
  | Some x, Some y => Cmp (Quantity_ x) (Quantity_ y) <? 0
  end.

Definition lessCPU (a b : podInfo) : bool :=
  match containerCPUUsed a, containerCPUUsed b with
  | None, None => false
  | Some _, None => false
  | None, Some _ => true
  | Some x, Some y => Cmp (Quantity_ x) (Quantity_ y) <? 0
  end.

(** [o.sortEntries(items)] *)
Definition sortEntries (o : FreeOptions) (items : list podInfo) : option (list podInfo) :=
  if String.eqb (sortByResource o) memorySortResource then
    slices.SortFunc lessMemory items
  else if String.eqb (sortByResource o) cpuSortResource then
    slices.SortFunc lessCPU items
  else Some items.

(** [o.podInfoToRow(info)] *)
Definition podInfoToRow (o : FreeOptions) (info : podInfo) : list string :=
  let result :=
    if compactView o then
      [nodeName info; podNamespace info; podName info; podStatus info;
       containerName info]
    else
      [nodeName info; podNamespace info; podName info; podAge info;
       podIP info; podStatus info; containerName info] in
  let result :=
    match negb (noMetrics o), containerCPUUsed info with
    | true, Some used => result ++ [formatted used]
    | _, _ => result
    end in
  let result :=
    if negb (compactView o)
    then result ++ [containerCPURequested info; containerCPULimit info]
    else result in
  let result :=
    match negb (noMetrics o), containerMemoryUsed info with
    | true, Some used => result ++ [formatted used]
    | _, _ => result
    end in
  let result :=
    if negb (compactView o)
    then result ++ [containerMemoryRequested info; containerCPULimit info]
    else result in
  let result :=
    if listContainerImage o then result ++ [containerImage info] else result in
  result.

Section commands.

Context `{Util}.

(** [o.toUnit(i)]; [i/unitbytes] truncates toward zero (the units of
    [util] are positive byte counts; Go would panic on a zero divisor). *)
Definition toUnit (o : FreeOptions) (i : Z) : string :=
  let '(unitbytes, unitstr) :=
    if binPrefix o
    then GetBinUnit (bytes o) (kByte o) (mByte o) (gByte o)
    else GetSiUnit (bytes o) (kByte o) (mByte o) (gByte o) in
  let unit := if negb (withoutUnit o) then unitstr else "" in
  FormatInt (Z.quot i unitbytes) +:+ unit.

(** [o.toUnitOrDash(i)] *)
Definition toUnitOrDash (o : FreeOptions) (i : Z) : string :=
  if i =? 0 then "-" else toUnit o i.

(** [o.toMilliUnitOrDash(i)] *)
Definition toMilliUnitOrDash (o : FreeOptions) (i : Z) : string :=
  if i =? 0 then "-"
  else if withoutUnit o then FormatInt i
  else MilliString i.

(** The three bands of [toColorPercent]'s [switch]. *)
Inductive severity : Type := OK | WARN | CRIT.

Definition classify (o : FreeOptions) (i : Z) : severity :=
  if i <? warnThreshold o then OK
  else if i <? critThreshold o then WARN
  else CRIT.

Definition paint (band : severity) (p : string) : string :=
  match band with
  | OK => Green p
  | WARN => Yellow p
  | CRIT => Red p
  end.

(** [o.toColorPercent(i)] *)
Definition toColorPercent (o : FreeOptions) (i : Z) : string :=
  let p := FormatInt i +:+ "%" in
  if nocolor o then p else paint (classify o i) p.

(** [o.prepareListTableHeader()]: the value it stores in
    [o.listTableHeaders]. *)
Definition prepareListTableHeader (o : FreeOptions) : list string :=
  let hNode := "NODE NAME" in
  let hNameSpace := "NAMESPACE" in
  let hPod := "POD NAME" in
  let hPodIP := "POD IP" in
  let hPodStatus := "POD STATUS" in
  let hPodAge := "POD AGE" in
  let hContainer := "CONTAINER" in
  let hCPUUse := "CPU/use" in
  let hCPUReq := "CPU/req" in
  let hCPULim := "CPU/lim" in
  let hMEMUse := "MEM/use" in
  let hMEMReq := "MEM/req" in
  let hMEMLim := "MEM/lim" in
  let hImage := "IMAGE" in
  let hPodStatus := if negb (nocolor o) then DefaultColor hPodStatus else hPodStatus in
  let baseHeader := [hNode; hNameSpace] in
  let podHeader :=
    if negb (compactView o) then [hPod; hPodAge; hPodIP; hPodStatus]
    else [hPod; hPodStatus] in
  let containerHeader := [hContainer] in
  let cpuHeader := [hCPUReq; hCPULim] in
  let memHeader := [hMEMReq; hMEMLim] in
  let imageHeader := [hImage] in
  let '(cpuHeader, memHeader) :=
    if negb (noMetrics o) then
      if compactView o then ([hCPUUse], [hMEMUse])
      else ([hCPUUse] ++ cpuHeader, [hMEMUse] ++ memHeader)
    else (cpuHeader, memHeader) in
  let lth := [] in
  let lth := lth ++ baseHeader in
  let lth := lth ++ podHeader in
  let lth := lth ++ containerHeader in
  let lth := lth ++ cpuHeader in
  let lth := lth ++ memHeader in
  let lth := if listContainerImage o then lth ++ imageHeader else lth in
  lth.

(** What the cluster answers to the calls of one run:
    [util.GetNodes(ctx, o.nodeClient, args, o.labelSelector)],
    [util.GetPods(ctx, o.podClient, nodeName)], the pod metrics client
    ([None] when it is nil) with the list it returns ([None] when that is
    nil), and the time of the run. *)
Record Cluster : Type := mkCluster {
  GetNodes : list string -> string -> error + list Node;
  GetPods : string -> error + list Pod;
  metricsPodClient : option (option PodMetricsList);
  now : Z;
}.

(** The body of the container loop of [showPodsOnNode]: the row of one
    container, or [None] where the loop [continue]s. *)
Definition containerRow (o : FreeOptions) (podMetrics : option PodMetricsList)
    (nodeName podNamespace podName podAge podIP podStatus : string)
    (container : Container) : option podInfo :=
  let containerName := Container_Name container in
  let containerImage := Container_Image container in
  let cCpuRequested := MilliValue (Cpu (Requests container)) in
  let cCpuLimit := MilliValue (Cpu (Limits container)) in
  let cMemRequested := Value (Memory (Requests container)) in
  let cMemLimit := Value (Memory (Limits container)) in
  let '(cpuUsed, memoryUsed) :=
    match negb (noMetrics o), podMetrics with
    | true, Some metrics => GetContainerMetrics metrics podName containerName
    | _, _ => (None, None)
    end in
  let containerCPUUsed :=
    (fun q => mkFormattedResource q (toMilliUnitOrDash o (MilliValue q))) <$> cpuUsed in
  let containerMemoryUsed :=
    (fun q => mkFormattedResource q (toUnitOrDash o (Value q))) <$> memoryUsed in
  if negb (listAll o)
     && ((cCpuRequested =? 0) && (cCpuLimit =? 0)
         && (cMemRequested =? 0) && (cMemLimit =? 0))
  then None
  else
    Some {|
      nodeName := nodeName;
      podNamespace := podNamespace;
      podName := podName;
      podAge := podAge;
      podIP := podIP;
      podStatus := podStatus;
      containerName := containerName;
      containerCPUUsed := containerCPUUsed;
      containerCPURequested := toMilliUnitOrDash o cCpuRequested;
      containerCPULimit := toMilliUnitOrDash o cCpuLimit;
      containerMemoryUsed := containerMemoryUsed;
      containerMemoryRequested := toUnitOrDash o cMemRequested;
      containerMemoryLimit := toUnitOrDash o cMemLimit;
      containerImage := if listContainerImage o then containerImage else "";
    |}.

(** The container loop: [nodePods = append(nodePods, row)]. *)
Fixpoint containerLoop (o : FreeOptions) (podMetrics : option PodMetricsList)
    (nodeName podNamespace podName podAge podIP podStatus : string)
    (containers : list Container) (nodePods : list podInfo) : list podInfo :=
  match containers with
  | [] => nodePods
  | container :: rest =>
      let nodePods :=
        match containerRow o podMetrics nodeName podNamespace podName podAge
                podIP podStatus container with
        | Some row => nodePods ++ [row]
        | None => nodePods
        end in
      containerLoop o podMetrics nodeName podNamespace podName podAge podIP
        podStatus rest nodePods
  end.

(** The pod loop of [showPodsOnNode]. *)
Fixpoint podLoop (o : FreeOptions) (c : Cluster) (podMetrics : option PodMetricsList)
    (nodeName : string) (pods : list Pod) (nodePods : list podInfo) : list podInfo :=
  match pods with
  | [] => nodePods
  | pod :: rest =>
      let podName := Pod_Name pod in
      let podNamespace := Pod_Namespace pod in
      let podIP := PodIP pod in
      let podStatus := GetPodStatus (Phase pod) (nocolor o) (emojiStatus o) in
      let podCreationTime := CreationTimestamp pod in
      let podCreationTimeDiff := now c - podCreationTime in
      let podAge :=
        if negb (podCreationTime =? 0) then HumanDuration podCreationTimeDiff
        else "<unknown>" in
      podLoop o c podMetrics nodeName rest
        (containerLoop o podMetrics nodeName podNamespace podName podAge podIP
           podStatus (Containers pod) nodePods)
  end.

(** [for _, containerOfPod := range nodePods { o.table.AddRow(...) }] *)
Definition addRows (o : FreeOptions) (t : table.OutputTable) (nodePods : list podInfo)
  : table.OutputTable :=
  foldl (fun t containerOfPod => table.AddRow t (podInfoToRow o containerOfPod))
    t nodePods.

(** The node loop of [showPodsOnNode]: the table with the rows added so
    far, and the error of [util.GetPods] when the loop returns early. *)
Fixpoint nodeLoop (o : FreeOptions) (c : Cluster) (podMetrics : option PodMetricsList)
    (nodes : list Node) (t : table.OutputTable)
  : option (table.OutputTable * option error) :=
  match nodes with
  | [] => Some (t, None)
  | node :: rest =>
      let nodeName := Node_Name node in
      match GetPods c nodeName with
      | inl perr => Some (t, Some perr)
      | inr pods =>
          let nodePods := podLoop o c podMetrics nodeName pods [] in
          nodePods ← (if negb (noMetrics o) then sortEntries o nodePods
                      else Some nodePods);
          nodeLoop o c podMetrics rest (addRows o t nodePods)
      end
  end.

(** The rows that the node loop adds for [node]: the rows built for its
    pods, sorted on their own when metrics are shown and as built when not,
    each with the name of the node. *)
Definition groupOf (o : FreeOptions) (c : Cluster) (podMetrics : option PodMetricsList)
    (node : Node) (group : list podInfo) : Prop :=
  exists pods,
    GetPods c (Node_Name node) = inr pods
    /\ group ≡ₚ podLoop o c podMetrics (Node_Name node) pods []
    /\ (noMetrics o = true -> group = podLoop o c podMetrics (Node_Name node) pods [])
    /\ (noMetrics o = false ->
        sortEntries o (podLoop o c podMetrics (Node_Name node) pods []) = Some group)
    /\ Forall (fun row => nodeName row = Node_Name node) group.

(** What a command leaves behind: the table it filled, the lines it gave
    to the standard output, and the error it returns ([None] is nil). *)
Record outcome : Type := mkOutcome {
  table : table.OutputTable;
  output : list string;
  err : option error;
}.

(** [o.showPodsOnNode(ctx, nodes)], started on table [t]. *)
Definition showPodsOnNode (o : FreeOptions) (c : Cluster) (nodes : list Node)
    (t : table.OutputTable) : option outcome :=
  let t :=
    if negb (noHeaders o) then table.mkOutputTable (listTableHeaders o) (table.Rows t)
    else t in
  let podMetrics :=
    match negb (noMetrics o), metricsPodClient c with
    | true, Some listed => listed
    | _, _ => None
    end in
  '(t, perr) ← nodeLoop o c podMetrics nodes t;
  match perr with
  | Some perr => Some (mkOutcome t [] (Some perr))
  | None => Some (mkOutcome t (table.Print t) None)
  end.

(** [o.Run(args)]; [showFree] is defined in a file that is not part of the
    sources at hand and is taken as given. *)
Definition Run (showFree : FreeOptions -> Cluster -> list Node -> table.OutputTable -> option outcome)
    (o : FreeOptions) (c : Cluster) (args : list string) (t : table.OutputTable)
  : option outcome :=
  match GetNodes c args (labelSelector o) with
  | inl _ => Some (mkOutcome t [] None)
  | inr nodes =>
      if list_ o then showPodsOnNode o c nodes t
      else showFree o c nodes t
  end.

(** [cmdutil.CheckErr(err)] ends the process with status 1 on an error;
    without one the command completes with status 0. *)
Definition exitStatus (r : outcome) : Z :=
  match err r with
  | Some _ => 1
  | None => 0
  end.

End commands.

(** [(s *sortResource).String()]; [None] is the nil pointer. *)
Definition String_ (s : option sortResource) : string :=
  match s with
  | None => "null"
  | Some v => v
  end.

(** [(s *sortResource).Type()] *)
Definition Type_ : string := "sortResource".

Section flags.

(** [strconv.Quote], which the [%q] verb of [fmt.Errorf] applies to its
    argument, is taken as given. *)
Variable Quote : string -> string.

(** [(s *sortResource).Set(v)] on a pointer to the value [s]: the error it
    returns ([None] is nil) and the value the pointer holds afterwards. *)
Definition Set_ (s : sortResource) (v : string) : option error * sortResource :=
  if negb (String.eqb v (String_ (Some memorySortResource)))
     && negb (String.eqb v (String_ (Some cpuSortResource)))
  then
    (Some ("can only sort by " +:+ Quote (String_ (Some memorySortResource))
           +:+ " and " +:+ Quote (String_ (Some cpuSortResource))
           +:+ ", not by given " +:+ Quote v),
     s)
  else (None, v).

End flags.

Section headers.

Context `{Util}.

(** [o.prepareFreeTableHeader()]: the value it stores in
    [o.freeTableHeaders]. *)
Definition prepareFreeTableHeader (o : FreeOptions) : list string :=
  let hName := "NAME" in
  let hStatus := "STATUS" in
  let hCPUUse := "CPU/use" in
  let hCPUReq := "CPU/req" in
  let hCPULim := "CPU/lim" in
  let hCPUAlloc := "CPU/alloc" in
  let hCPUUseP := "CPU/use%" in
  let hCPUReqP := "CPU/req%" in
  let hCPULimP := "CPU/lim%" in
  let hMEMUse := "MEM/use" in
  let hMEMReq := "MEM/req" in
  let hMEMLim := "MEM/lim" in
  let hMEMAlloc := "MEM/alloc" in
  let hMEMUseP := "MEM/use%" in
  let hMEMReqP := "MEM/req%" in
  let hMEMLimP := "MEM/lim%" in
  let hPods := "PODS" in
  let hPodsAlloc := "PODS/alloc" in
  let hContainers := "CONTAINERS" in
  let recolor := fun h : string => if negb (nocolor o) then DefaultColor h else h in
  let hStatus := recolor hStatus in
  let hCPUUseP := recolor hCPUUseP in
  let hCPUReqP := recolor hCPUReqP in
  let hCPULimP := recolor hCPULimP in
  let hMEMUseP := recolor hMEMUseP in
  let hMEMReqP := recolor hMEMReqP in
  let hMEMLimP := recolor hMEMLimP in
  let baseHeader := [hName; hStatus] in
  let cpuHeader := [hCPUReq; hCPULim; hCPUAlloc] in
  let cpuPHeader := [hCPUReqP; hCPULimP] in
  let memHeader := [hMEMReq; hMEMLim; hMEMAlloc] in
  let memPHeader := [hMEMReqP; hMEMLimP] in
  let podHeader := [hPods; hPodsAlloc; hContainers] in
  let '(cpuHeader, cpuPHeader, memHeader, memPHeader) :=
    if negb (noMetrics o) then
      ([hCPUUse] ++ cpuHeader, [hCPUUseP] ++ cpuPHeader,
       [hMEMUse] ++ memHeader, [hMEMUseP] ++ memPHeader)
    else (cpuHeader, cpuPHeader, memHeader, memPHeader) in
  let fth := [] in
  let fth := fth ++ baseHeader in
  let fth := fth ++ cpuHeader in
  let fth := fth ++ cpuPHeader in
  let fth := fth ++ memHeader in
  let fth := fth ++ memPHeader in
  let fth := if pod o then fth ++ podHeader else fth in
  fth.

End headers.

End cmd.

(** ** The node rollup *)
Module rollup.

(** Modelled from the spec: the records of its data model (section 3) for
    the node summary, whose code ([showFree]) is not part of the sources at
    hand. Amounts are millicores and bytes. *)
Record Capacity : Type := mkCapacity {
  allocatableCPU : Z;
  allocatableMemory : Z;
}.

Record UsageSample : Type := mkUsageSample {
  usageCPU : Z;
  usageMemory : Z;
}.

Record ResourceSpec : Type := mkResourceSpec {
  requestCPU : Z;
  limitCPU : Z;
  requestMemory : Z;
  limitMemory : Z;
}.

Record NodeRollup : Type := mkNodeRollup {
  cpuUse : option Z;
  cpuReq : Z;
  cpuLim : Z;
  cpuAlloc : Z;
  cpuUseP : option Z;
  cpuReqP : option Z;
  cpuLimP : option Z;
  memUse : option Z;
  memReq : Z;
  memLim : Z;
  memAlloc : Z;
  memUseP : option Z;
  memReqP : option Z;
  memLimP : option Z;
}.

(** Modelled from the spec: [util.GetPercentage] is not part of the sources
    at hand. "Percentage(x, capacity) = floor(100 * x / capacity) when
    capacity > 0, else absent." *)
Definition Percentage (x capacity : Z) : option Z :=
  if 0 <? capacity then Some (100 * x / capacity) else None.

Definition sum (l : list Z) : Z := foldr Z.add 0 l.

(** Modelled from the spec: [showFree], which computes the rollup of a
    node, is not part of the sources at hand. "Sum requested CPU/memory and
    limit CPU/memory across all containers of all pods scheduled to the
    node. Usage is taken directly from the node-level UsageSample, not
    re-derived by summing container usage. [...] use% only when a usage
    sample is present. [...] if capacity is zero, all percentage fields for
    that dimension are absent while the raw sums are still reported." *)
Definition rollup (node : Capacity) (usage : option UsageSample)
    (pods : list (ResourceSpec * option UsageSample)) : NodeRollup :=
  let specs := fst <$> pods in
  let cpuReq := sum (requestCPU <$> specs) in
  let cpuLim := sum (limitCPU <$> specs) in
  let memReq := sum (requestMemory <$> specs) in
  let memLim := sum (limitMemory <$> specs) in
  {|
    cpuUse := usageCPU <$> usage;
    cpuReq := cpuReq;
    cpuLim := cpuLim;
    cpuAlloc := allocatableCPU node;
    cpuUseP := u ← usage; Percentage (usageCPU u) (allocatableCPU node);
    cpuReqP := Percentage cpuReq (allocatableCPU node);
    cpuLimP := Percentage cpuLim (allocatableCPU node);
    memUse := usageMemory <$> usage;
    memReq := memReq;
    memLim := memLim;
    memAlloc := allocatableMemory node;
    memUseP := u ← usage; Percentage (usageMemory u) (allocatableMemory node);
    memReqP := Percentage memReq (allocatableMemory node);
    memLimP := Percentage memLim (allocatableMemory node);
  |}.

End rollup.

(** ** An instance of the interface, for the examples

    Units as the unit flags name them (the largest unit asked for wins,
    kilobytes when none is), colours as ANSI escape sequences, metrics as a
    list of samples by pod and container name. *)
Module example.

Import resource cmd.

Definition esc (code text : string) : string :=
  String (ascii_of_nat 27) ("[" +:+ code +:+ "m" +:+ text)
    +:+ String (ascii_of_nat 27) "[0m".

Definition siUnit (b k m g : bool) : Z * string :=
  if g then (1000000000, "G")
  else if m then (1000000, "M")
  else if k then (1000, "K")
  else if b then (1, "")
  else (1000, "K").

Definition binUnit (b k m g : bool) : Z * string :=
  if g then (1073741824, "Gi")
  else if m then (1048576, "Mi")
  else if k then (1024, "Ki")
  else if b then (1, "")
  else (1024, "Ki").

Definition sample : Type := string * string * option Quantity * option Quantity.

Fixpoint containerMetrics (metrics : list sample) (podName containerName : string)
  : option Quantity * option Quantity :=
  match metrics with
  | [] => (None, None)
  | (p, c, cpuUsed, memoryUsed) :: rest =>
      if String.eqb p podName && String.eqb c containerName
      then (cpuUsed, memoryUsed)
      else containerMetrics rest podName containerName
  end.

#[export] Instance util : Util := {|
  PodMetricsList := list sample;
  GetSiUnit := siUnit;
  GetBinUnit := binUnit;
  Green := esc "32";
  Yellow := esc "33";
  Red := esc "31";
  DefaultColor := esc "0";
  GetPodStatus := fun phase _ _ => phase;
  GetContainerMetrics := containerMetrics;
  JoinTab := String.concat (String (ascii_of_nat 9) "");
  HumanDuration := fun d => FormatInt (d / 1000000000) +:+ "s";
|}.

(** A container that declares CPU 250m/500m and memory 64M/128M. *)
Definition web : Container := {|
  Container_Name := "web";
  Container_Image := "nginx:1.25";
  Requests := mkResourceList (Some (NewMilliQuantity 250)) (Some (NewQuantity 64000000));
  Limits := mkResourceList (Some (NewMilliQuantity 500)) (Some (NewQuantity 128000000));
|}.

(** A container that declares nothing. *)
Definition sidecar : Container := {|
  Container_Name := "sidecar";
  Container_Image := "busybox";
  Requests := mkResourceList None None;
  Limits := mkResourceList None None;
|}.

Definition frontend : Pod := {|
  Pod_Name := "frontend";
  Pod_Namespace := "default";
  PodIP := "10.0.0.7";
  Phase := "Running";
  CreationTimestamp := 0;
  Containers := [web; sidecar];
|}.

(** [--list --compact-view=false]: full columns, metrics shown. *)
Definition fullList : FreeOptions := {|
  labelSelector := "";
  pod := false;
  emojiStatus := false;
  allNamespaces := true;
  noHeaders := false;
  noMetrics := false;
  compactView := false;
  bytes := false;
  kByte := false;
  mByte := true;
  gByte := false;
  withoutUnit := false;
  binPrefix := false;
  nocolor := false;
  warnThreshold := 60;
  critThreshold := 90;
  list_ := true;
  listContainerImage := false;
  listAll := false;
  sortByResource := memorySortResource;
  freeTableHeaders := [];
  listTableHeaders := [];
|}.

(** [--list]: the compact columns, metrics shown. *)
Definition compactList : FreeOptions := {|
  labelSelector := "";
  pod := false;
  emojiStatus := false;
  allNamespaces := true;
  noHeaders := false;
  noMetrics := false;
  compactView := true;
  bytes := false;
  kByte := false;
  mByte := true;
  gByte := false;
  withoutUnit := false;
  binPrefix := false;
  nocolor := false;
  warnThreshold := 60;
  critThreshold := 90;
  list_ := true;
  listContainerImage := false;
  listAll := false;
  sortByResource := memorySortResource;
  freeTableHeaders := [];
  listTableHeaders := [];
|}.

(** Usage snapshots: both containers busy, both idle at exactly 0, and a
    snapshot that knows neither. *)
Definition busy : list sample :=
  [("frontend", "web", Some (NewMilliQuantity 20), Some (NewQuantity 30000000));
   ("frontend", "sidecar", Some (NewMilliQuantity 5), Some (NewQuantity 7000000))].

Definition idle : list sample :=
  [("frontend", "web", Some (NewMilliQuantity 0), Some (NewQuantity 0))].

Definition unknown : list sample := [].

(** A cluster whose node listing fails, and one that lists a node and then
    fails to list its pods. *)
Definition nodesUnreachable : Cluster := {|
  GetNodes := fun _ _ => inl "nodes is forbidden";
  GetPods := fun _ => inr [frontend];
  metricsPodClient := Some (Some busy);
  now := 0;
|}.

Definition podsUnreachable : Cluster := {|
  GetNodes := fun _ _ => inr [mkNode "node1"];
  GetPods := fun _ => inl "pods is forbidden";
  metricsPodClient := Some (Some busy);
  now := 0;
|}.

(** Thirteen pods of one container each on one node. In [ties] the last
    three use the same amount of memory; in [gaps] the snapshot does not
    know them. *)
Definition podOf (name : string) : Pod := {|
  Pod_Name := name;
  Pod_Namespace := "default";
  PodIP := "10.0.0.7";
  Phase := "Running";
  CreationTimestamp := 0;
  Containers := [web];
|}.

Definition names13 : list string :=
  ["p00"; "p01"; "p02"; "p03"; "p04"; "p05"; "p06"; "p07"; "p08"; "p09";
   "p10"; "p11"; "p12"].

Definition sampleOf (name : string) (megabytes : Z) : sample :=
  (name, "web", Some (NewMilliQuantity 10), Some (NewQuantity (megabytes * 1000000))).

Definition gaps : list sample :=
  zip_with sampleOf names13 [5; 9; 9; 9; 5; 5; 5; 5; 5; 5].

Definition ties : list sample :=
  zip_with sampleOf names13 [5; 9; 9; 9; 5; 5; 5; 5; 5; 5; 1; 1; 1].

Definition rows13 (metrics : list sample) : list podInfo :=
  podLoop compactList nodesUnreachable (Some metrics) "node1" (podOf <$> names13) [].

(** Two pods, of which the snapshot knows the first only. *)
Definition rows2 : list podInfo :=
  podLoop compactList nodesUnreachable (Some [sampleOf "p00" 5]) "node1"
    [podOf "p00"; podOf "p01"] [].

(** Two nodes with the thirteen pods each. *)
Definition twoNodes : Cluster := {|
  GetNodes := fun _ _ => inr [mkNode "node1"; mkNode "node2"];
  GetPods := fun _ => inr (podOf <$> names13);
  metricsPodClient := Some (Some ties);
  now := 0;
|}.

(** [strconv.Quote] on text that needs no escaping. *)
Definition quoted (s : string) : string :=
  String (ascii_of_nat 34) s +:+ String (ascii_of_nat 34) "".

(** The options [o] with the two headers that [Complete] prepares. *)
Definition withHeaders (o : FreeOptions) : FreeOptions := {|
  labelSelector := labelSelector o;
  pod := pod o;
  emojiStatus := emojiStatus o;
  allNamespaces := allNamespaces o;
  noHeaders := noHeaders o;
  noMetrics := noMetrics o;
  compactView := compactView o;
  bytes := bytes o;
  kByte := kByte o;
  mByte := mByte o;
  gByte := gByte o;
  withoutUnit := withoutUnit o;
  binPrefix := binPrefix o;
  nocolor := nocolor o;
  warnThreshold := warnThreshold o;
  critThreshold := critThreshold o;
  list_ := list_ o;
  listContainerImage := listContainerImage o;
  listAll := listAll o;
  sortByResource := sortByResource o;
  freeTableHeaders := prepareFreeTableHeader o;
  listTableHeaders := prepareListTableHeader o;
|}.

(** [--list --compact-view=false --no-metrics]. *)
Definition fullListNoMetrics : FreeOptions := {|
  labelSelector := "";
  pod := false;
  emojiStatus := false;
  allNamespaces := true;
  noHeaders := false;
  noMetrics := true;
  compactView := false;
  bytes := false;
  kByte := false;
  mByte := true;
  gByte := false;
  withoutUnit := false;
  binPrefix := false;
  nocolor := false;
  warnThreshold := 60;
  critThreshold := 90;
  list_ := true;
  listContainerImage := false;
  listAll := false;
  sortByResource := memorySortResource;
  freeTableHeaders := [];
  listTableHeaders := [];
|}.

(** The two nodes again, with a metrics client whose listing fails. *)
Definition noSnapshot : Cluster := {|
  GetNodes := fun _ _ => inr [mkNode "node1"; mkNode "node2"];
  GetPods := fun _ => inr (podOf <$> names13);
  metricsPodClient := Some None;
  now := 0;
|}.

(** [--list --no-metrics]: the compact columns without metrics. *)
Definition compactListNoMetrics : FreeOptions := {|
  labelSelector := "";
  pod := false;
  emojiStatus := false;
  allNamespaces := true;
  noHeaders := false;
  noMetrics := true;
  compactView := true;
  bytes := false;
  kByte := false;
  mByte := true;
  gByte := false;
  withoutUnit := false;
  binPrefix := false;
  nocolor := false;
  warnThreshold := 60;
  critThreshold := 90;
  list_ := true;
  listContainerImage := false;
  listAll := false;
  sortByResource := memorySortResource;
  freeTableHeaders := [];
  listTableHeaders := [];
|}.

(** Amounts beyond the [int64] range. The quantity 10E is held as the
    [int64Amount] 10 at scale 18. The quantity 9223372036854775807 has more
    digits than an [int64Amount] takes and is held as a [Dec], at the nano
    scale. *)
Definition tenExa : Quantity := mkQuantity (mkInt64Amount 10 18) None.

Definition maxInt64Units : Quantity :=
  mkQuantity (mkInt64Amount 0 0)
    (Some (mkDec 9223372036854775807000000000 9)).

(** A container with a CPU limit of 10E and nothing else, and one with a
    CPU request of 9223372036854775807 cores. *)
Definition unbounded : Container := {|
  Container_Name := "unbounded";
  Container_Image := "busybox";
  Requests := mkResourceList None None;
  Limits := mkResourceList (Some tenExa) None;
|}.

Definition greedy : Container := {|
  Container_Name := "greedy";
  Container_Image := "busybox";
  Requests := mkResourceList (Some maxInt64Units) None;
  Limits := mkResourceList None None;
|}.

End example.

(** * Properties *)

(** ** The sort of package [slices] *)

Import slices.

(** *** Exchanges *)

Section sort_base.

Context {E : Type} (less : E -> E -> bool).

Implicit Types data : list E.

Lemma swap_Some data i j :
  (i < length data)%nat -> (j < length data)%nat ->
  exists x y, data !! i = Some x /\ data !! j = Some y
    /\ swap data i j = Some (<[j:=x]> (<[i:=y]> data)).
Proof.
  intros Hi Hj. unfold swap.
  destruct (lookup_lt_is_Some_2 data i Hi) as [x Hx].
  destruct (lookup_lt_is_Some_2 data j Hj) as [y Hy].
  exists x, y. rewrite Hx, Hy. done.
Qed.

Lemma swap_inv data i j data' :
  swap data i j = Some data' ->
  exists x y, data !! i = Some x /\ data !! j = Some y
    /\ data' = <[j:=x]> (<[i:=y]> data).
Proof.
  unfold swap. intros Hs.
  destruct (data !! i) as [x|] eqn:Hx; [|done].
  destruct (data !! j) as [y|] eqn:Hy; [|done].
  simpl in Hs. injection Hs as <-. eauto.
Qed.

Lemma swap_length data i j data' :
  swap data i j = Some data' -> length data' = length data.
Proof.
  intros (x & y & _ & _ & ->)%swap_inv. by rewrite !length_insert.
Qed.

Lemma swap_lookup data i j data' k :
  swap data i j = Some data' ->
  data' !! k = if decide (k = j) then data !! i
               else if decide (k = i) then data !! j else data !! k.
Proof.
  intros (x & y & Hx & Hy & ->)%swap_inv.
  pose proof (lookup_lt_Some _ _ _ Hx). pose proof (lookup_lt_Some _ _ _ Hy).
  destruct (decide (k = j)) as [->|Hkj].
  - rewrite list_lookup_insert_eq by (by rewrite length_insert). done.
  - rewrite list_lookup_insert_ne by done.
    destruct (decide (k = i)) as [->|Hki].
    + by rewrite list_lookup_insert_eq.
    + by rewrite list_lookup_insert_ne.
Qed.

Lemma swap_lookup_l data i j data' :
  swap data i j = Some data' -> data' !! i = data !! j.
Proof.
  intros Hs. rewrite (swap_lookup _ _ _ _ i Hs). repeat case_decide; congruence.
Qed.

Lemma swap_lookup_r data i j data' :
  swap data i j = Some data' -> data' !! j = data !! i.
Proof.
  intros Hs. rewrite (swap_lookup _ _ _ _ j Hs). repeat case_decide; congruence.
Qed.

Lemma swap_lookup_ne data i j data' k :
  swap data i j = Some data' -> k <> i -> k <> j -> data' !! k = data !! k.
Proof.
  intros Hs ??. rewrite (swap_lookup _ _ _ _ k Hs). repeat case_decide; congruence.
Qed.

Lemma swap_Permutation data i j data' :
  swap data i j = Some data' -> data' ≡ₚ data.
Proof.
  intros Hs. apply Permutation_inj. split; [by eapply swap_length|].
  exists (fun k => if decide (k = j) then i else if decide (k = i) then j else k).
  split.
  - intros k1 k2. repeat case_decide; lia.
  - intros k. rewrite (swap_lookup _ _ _ _ k Hs). by repeat case_decide; subst.
Qed.

Lemma lessAt_Some data i j :
  (i < length data)%nat -> (j < length data)%nat ->
  exists x y, data !! i = Some x /\ data !! j = Some y
    /\ lessAt less data i j = Some (less x y).
Proof.
  intros Hi Hj. unfold lessAt.
  destruct (lookup_lt_is_Some_2 data i Hi) as [x Hx].
  destruct (lookup_lt_is_Some_2 data j Hj) as [y Hy].
  exists x, y. rewrite Hx, Hy. done.
Qed.

(** ** [swaps] *)

Lemma swaps_one a b data i j data' :
  (a <= i < b)%nat -> (a <= j < b)%nat -> swap data i j = Some data' ->
  swaps a b data data'.
Proof. intros. by eapply (swaps_step a b data i j data'); [..|apply swaps_refl]. Qed.

Lemma swaps_trans a b data1 data2 data3 :
  swaps a b data1 data2 -> swaps a b data2 data3 -> swaps a b data1 data3.
Proof.
  induction 1 as [|d i j d' d'' Hi Hj Hs _ IH]; [done|]. intros.
  eapply (swaps_step a b d i j d'); auto.
Qed.

Lemma swaps_mono a b a' b' data data' :
  (a' <= a)%nat -> (b <= b')%nat -> swaps a b data data' -> swaps a' b' data data'.
Proof.
  intros Ha Hb. induction 1; [apply swaps_refl|].
  eapply swaps_step; [| |eassumption|assumption]; lia.
Qed.

Lemma swaps_length a b data data' : swaps a b data data' -> length data' = length data.
Proof.
  induction 1 as [|????? _ _ Hs _ IH]; [done|].
  rewrite IH. by eapply swap_length.
Qed.

Lemma swaps_Permutation a b data data' : swaps a b data data' -> data' ≡ₚ data.
Proof.
  induction 1 as [|????? _ _ Hs _ IH]; [done|].
  rewrite IH. by eapply swap_Permutation.
Qed.

Lemma swaps_outside a b data data' k :
  swaps a b data data' -> (k < a \/ b <= k)%nat -> data' !! k = data !! k.
Proof.
  induction 1 as [|????? Hi Hj Hs _ IH]; [done|].
  intros Hk. rewrite IH by done. rewrite (swap_lookup _ _ _ _ k Hs).
  repeat case_decide; try done; lia.
Qed.

(** An element of the range after the exchanges was in the range before. *)
Lemma swaps_inside a b data data' k x :
  swaps a b data data' -> (a <= k < b)%nat -> data' !! k = Some x ->
  exists k', (a <= k' < b)%nat /\ data !! k' = Some x.
Proof.
  intros Hsw. revert k. induction Hsw as [|????? Hi Hj Hs _ IH]; [by eauto|].
  intros k Hk Hx. destruct (IH k Hk Hx) as (k' & Hk' & Hx').
  rewrite (swap_lookup _ _ _ _ k' Hs) in Hx'.
  repeat case_decide; eauto.
Qed.

Lemma swaps_segAll P a b a' b' data data' :
  swaps a b data data' -> (a' <= a)%nat -> (b <= b')%nat ->
  segAll P a' b' data -> segAll P a' b' data'.
Proof.
  intros Hsw Ha Hb Hall k x Hk Hx.
  destruct (decide (a <= k < b)%nat) as [Hin|Hout].
  - destruct (swaps_inside _ _ _ _ _ _ Hsw Hin Hx) as (k' & Hk' & Hx').
    apply (Hall k' x); [lia|done].
  - rewrite (swaps_outside _ _ _ _ k Hsw) in Hx by lia. by apply (Hall k x).
Qed.

Lemma segAll_mono P a b a' b' data :
  (a <= a')%nat -> (b' <= b)%nat -> segAll P a b data -> segAll P a' b' data.
Proof. intros ?? Hall k x ??. apply (Hall k x); [lia|done]. Qed.

Lemma segAll_impl (P Q : E -> Prop) a b data :
  (forall x, P x -> Q x) -> segAll P a b data -> segAll Q a b data.
Proof. intros HPQ Hall k x ??. eapply HPQ, Hall; eauto. Qed.

Lemma swaps_lowerBounded a b a' b' data data' :
  swaps a' b' data data' -> (a <= a')%nat -> (b' <= b)%nat ->
  lowerBounded less a b data -> lowerBounded less a b data'.
Proof.
  intros Hsw Ha Hb [->|(z & Hz & Hall)]; [by left|].
  destruct (decide (a = 0)%nat) as [->|Hne]; [by left|right].
  exists z. split.
  - rewrite (swaps_outside _ _ _ _ _ Hsw); [done|lia].
  - eapply swaps_segAll; eauto.
Qed.

Lemma lowerBounded_mono_r a b b' data :
  (b' <= b)%nat -> lowerBounded less a b data -> lowerBounded less a b' data.
Proof.
  intros Hb [->|(z & Hz & Hall)]; [by left|right].
  exists z. split; [done|]. eapply segAll_mono; [| |exact Hall]; lia.
Qed.

Lemma sortedSeg_mono a b a' b' data :
  (a <= a')%nat -> (b' <= b)%nat -> sortedSeg less a b data -> sortedSeg less a' b' data.
Proof. intros ?? Hs i j x y ?????. apply (Hs i j x y); auto; lia. Qed.

Lemma sortedSeg_short a b data : (b <= a + 1)%nat -> sortedSeg less a b data.
Proof. intros ? i j x y ???. lia. Qed.

(** Exchanges outside a range keep it sorted. *)
Lemma swaps_sortedSeg a b a' b' data data' :
  swaps a' b' data data' -> (b <= a' \/ b' <= a)%nat ->
  sortedSeg less a b data -> sortedSeg less a b data'.
Proof.
  intros Hsw Hd Hs i j x y ??? Hx Hy.
  rewrite (swaps_outside _ _ _ _ _ Hsw) in Hx by lia.
  rewrite (swaps_outside _ _ _ _ _ Hsw) in Hy by lia.
  by apply (Hs i j x y).
Qed.

End sort_base.

(** *** Insertion sort *)

Section insertion.

Context {E : Type} (less : E -> E -> bool) (Hswo : StrictWeakOrder less).

Implicit Types data : list E.

Lemma less_asym x y : less x y = true -> less y x = false.
Proof.
  intros Hxy. destruct (less y x) eqn:Hyx; [|done].
  pose proof (swo_trans less Hswo x y x Hxy Hyx) as Hxx.
  by rewrite (swo_irrefl less Hswo) in Hxx.
Qed.

Lemma less_le_trans x y z : less x y = true -> less z y = false -> less x z = true.
Proof.
  intros Hxy Hzy. destruct (less x z) eqn:Hxz; [done|].
  (* y <= z and z <= x give y <= x *)
  pose proof (swo_negtrans less Hswo y z x Hzy Hxz). congruence.
Qed.

Lemma le_less_trans x y z : less y x = false -> less y z = true -> less x z = true.
Proof.
  intros Hyx Hyz. destruct (less x z) eqn:Hxz; [done|].
  pose proof (swo_negtrans less Hswo z x y Hxz Hyx). congruence.
Qed.

Lemma insertDown_spec a j data :
  (a <= j)%nat -> (j < length data)%nat -> sortedSeg less a j data ->
  exists data', insertDown less data a j = Some data'
    /\ swaps a (S j) data data' /\ sortedSeg less a (S j) data'.
Proof.
  revert data. induction j as [|j' IH]; intros data Ha Hj Hsorted; simpl.
  { exists data. split; [done|]. split; [apply swaps_refl|].
    intros i j x y ???. lia. }
  case_decide as Haj; cycle 1.
  { exists data. split; [done|]. split; [apply swaps_refl|].
    intros i j x y ???. lia. }
  destruct (lessAt_Some less data (S j') j') as (x & y & Hx & Hy & ->); [lia..|].
  simpl. destruct (less x y) eqn:Hxy; cycle 1.
  { exists data. split; [done|]. split; [apply swaps_refl|].
    intros i j w v Hi Hij Hj2 Hw Hv.
    destruct (decide (j = S j')) as [->|Hne]; cycle 1.
    { apply (Hsorted i j w v); auto; lia. }
    rewrite Hx in Hv. injection Hv as <-.
    destruct (decide (i = j')) as [->|Hne'].
    { rewrite Hy in Hw. by injection Hw as <-. }
    apply (swo_negtrans less Hswo w y x); [|done].
    apply (Hsorted i j' w y); auto; lia. }
  destruct (swap_Some data (S j') j') as (x' & y' & Hx' & Hy' & Hswap); [lia..|].
  rewrite Hswap. simpl. set (data1 := <[j':=x']> (<[S j':=y']> data)) in *.
  assert (x' = x) as -> by congruence. assert (y' = y) as -> by congruence.
  destruct (IH data1) as (data' & -> & Hsw & Hsorted'); [lia| | |].
  { erewrite swap_length by done. lia. }
  { intros i j w v Hi Hij Hj2 Hw Hv.
    rewrite (swap_lookup _ _ _ _ _ Hswap) in Hw.
    rewrite (swap_lookup _ _ _ _ _ Hswap) in Hv.
    repeat case_decide; try lia. apply (Hsorted i j w v); auto; lia. }
  exists data'. split; [done|]. split.
  { eapply swaps_step; [| |exact Hswap|]; [lia..|].
    eapply swaps_mono; [| |exact Hsw]; lia. }
  intros i j w v Hi Hij Hj2 Hw Hv.
  destruct (decide (j = S j')) as [->|Hne]; cycle 1.
  { apply (Hsorted' i j w v); auto; lia. }
  rewrite (swaps_outside _ _ _ _ _ Hsw) in Hv by lia.
  rewrite (swap_lookup _ _ _ _ _ Hswap) in Hv.
  repeat case_decide; try lia. assert (v = y) as -> by congruence.
  destruct (swaps_inside _ _ _ _ _ _ Hsw (conj Hi Hij) Hw) as (k' & Hk' & Hw').
  rewrite (swap_lookup _ _ _ _ _ Hswap) in Hw'.
  repeat case_decide; try lia.
  - assert (w = x) as -> by congruence. by apply less_asym.
  - apply (Hsorted k' j' w y); auto; lia.
Qed.

Lemma insertionLoop_spec a n i data :
  (a < i)%nat -> (i + n <= length data)%nat -> sortedSeg less a i data ->
  exists data', insertionLoop less n data a i = Some data'
    /\ swaps a (i + n) data data' /\ sortedSeg less a (i + n) data'.
Proof.
  revert i data. induction n as [|n IH]; intros i data Hai Hlen Hsorted; simpl.
  { exists data. rewrite Nat.add_0_r. split; [done|]. split; [apply swaps_refl|done]. }
  destruct (insertDown_spec a i data) as (data1 & -> & Hsw1 & Hs1); [lia..|done|].
  simpl. destruct (IH (S i) data1) as (data' & -> & Hsw & Hs); [lia| |done|].
  { erewrite swaps_length by done. lia. }
  exists data'. split; [done|].
  replace (i + S n)%nat with (S i + n)%nat by lia. split; [|done].
  eapply swaps_trans; [|exact Hsw]. eapply swaps_mono; [| |exact Hsw1]; lia.
Qed.

Lemma insertionSort_spec a b data :
  (a <= b <= length data)%nat ->
  exists data', insertionSort less data a b = Some data'
    /\ swaps a b data data' /\ sortedSeg less a b data'.
Proof.
  intros Hab. unfold insertionSort.
  destruct (decide (b <= a + 1)%nat) as [Hshort|Hlong].
  { replace (b - (a + 1))%nat with 0%nat by lia. simpl. exists data.
    split; [done|]. split; [apply swaps_refl|by apply sortedSeg_short]. }
  destruct (insertionLoop_spec a (b - (a + 1)) (a + 1) data) as (data' & -> & Hsw & Hs);
    [lia..| |].
  { apply sortedSeg_short. lia. }
  replace (a + 1 + (b - (a + 1)))%nat with b in * by lia. eauto.
Qed.

End insertion.

(** *** Partition around a pivot *)

Section partition.

Context {E : Type} (less : E -> E -> bool).

Implicit Types data : list E.

Lemma scanLess_spec fuel data a i j p :
  data !! a = Some p -> (j < length data)%nat -> (i <= S j)%nat ->
  (S j - i < fuel)%nat ->
  exists i', scanLess less fuel data a i j = Some i'
    /\ (i <= i' <= S j)%nat
    /\ segAll (fun x => less x p = true) i i' data
    /\ (i' <= j -> exists x, data !! i' = Some x /\ less x p = false)%nat.
Proof.
  intros Hp Hj. revert i. induction fuel as [|fuel IH]; intros i Hij Hfuel; [lia|].
  simpl. case_decide as Hle; cycle 1.
  { exists i. split; [done|]. split; [lia|]. split; [|lia]. intros k x ?. lia. }
  destruct (lessAt_Some less data i a) as (x & p' & Hx & Hp' & ->);
    [lia|by eapply lookup_lt_Some|].
  assert (p' = p) as -> by congruence. simpl.
  destruct (less x p) eqn:Hxp; cycle 1.
  { exists i. split; [done|]. split; [lia|]. split; [|by eauto]. intros k y ?. lia. }
  destruct (IH (S i)) as (i' & -> & Hi' & Hall & Hstop); [lia..|].
  exists i'. split; [done|]. split; [lia|]. split; [|done].
  intros k y Hk Hy. destruct (decide (k = i)) as [->|Hne].
  - congruence.
  - apply (Hall k y); [lia|done].
Qed.

Lemma scanNotLess_spec fuel data a i j p :
  data !! a = Some p -> (j < length data)%nat -> (1 <= i <= S j)%nat ->
  (S j - i < fuel)%nat ->
  exists j', scanNotLess less fuel data a i j = Some j'
    /\ (j' <= j)%nat /\ (i <= S j')%nat
    /\ segAll (fun x => less x p = false) (S j') (S j) data
    /\ (i <= j' -> exists x, data !! j' = Some x /\ less x p = true)%nat.
Proof.
  intros Hp. revert j. induction fuel as [|fuel IH]; intros j Hj Hij Hfuel; [lia|].
  simpl. case_decide as Hle; cycle 1.
  { exists j. split; [done|]. split; [lia|]. split; [lia|]. split; [|lia].
    intros k x ?. lia. }
  destruct (lessAt_Some less data j a) as (x & p' & Hx & Hp' & ->);
    [lia|by eapply lookup_lt_Some|].
  assert (p' = p) as -> by congruence. simpl.
  destruct (less x p) eqn:Hxp.
  { exists j. split; [done|]. split; [lia|]. split; [lia|]. split; [|by eauto].
    intros k y ?. lia. }
  destruct (IH (j - 1)%nat) as (j' & -> & Hj' & Hij' & Hall & Hstop); [lia..|].
  exists j'. split; [done|]. split; [lia|]. split; [lia|]. split; [|done].
  intros k y Hk Hy. destruct (decide (k = j)) as [->|Hne].
  - congruence.
  - apply (Hall k y); [lia|done].
Qed.

#[local] Arguments scanLess : simpl never.
#[local] Arguments scanNotLess : simpl never.

Lemma partitionLoop_spec fuel data a b i j p :
  data !! a = Some p -> (a < i)%nat -> (i <= S j)%nat -> (j < b <= length data)%nat ->
  (S j - i < fuel)%nat ->
  segAll (fun x => less x p = true) (S a) i data ->
  segAll (fun x => less x p = false) (S j) b data ->
  exists data' j', partitionLoop less fuel data a i j = Some (data', j')
    /\ swaps (S a) b data data' /\ (a <= j' < b)%nat
    /\ segAll (fun x => less x p = true) (S a) (S j') data'
    /\ segAll (fun x => less x p = false) (S j') b data'.
Proof.
  intros Hp. revert data i j Hp.
  induction fuel as [|fuel IH]; intros data i j Hp Hai Hij Hjb Hfuel Hlo Hhi; [lia|].
  simpl.
  destruct (scanLess_spec (S (S j - i)) data a i j p) as (i' & -> & Hi' & Hall1 & Hstop1);
    [done|lia..|].
  simpl.
  destruct (scanNotLess_spec (S (S j - i')) data a i' j p)
    as (j' & -> & Hj' & Hij' & Hall2 & Hstop2); [done|lia..|].
  simpl.
  assert (segAll (fun x => less x p = true) (S a) i' data) as Hlo'.
  { intros k x Hk Hx. destruct (decide (k < i)%nat).
    - apply (Hlo k x); [lia|done].
    - apply (Hall1 k x); [lia|done]. }
  assert (segAll (fun x => less x p = false) (S j') b data) as Hhi'.
  { intros k x Hk Hx. destruct (decide (j < k)%nat).
    - apply (Hhi k x); [lia|done].
    - apply (Hall2 k x); [lia|done]. }
  case_decide as Hlt.
  { exists data, j'. split; [done|]. split; [apply swaps_refl|]. split; [lia|].
    split; [|done]. eapply segAll_mono; [| |exact Hlo']; lia. }
  destruct Hstop1 as (xi & Hxi & Hxip); [lia|].
  destruct Hstop2 as (xj & Hxj & Hxjp); [lia|].
  assert (i' <> j') as Hne by (intros ->; congruence).
  destruct (swap_Some data i' j') as (x' & y' & Hx' & Hy' & Hswap); [lia..|].
  rewrite Hswap. simpl. set (data1 := <[j':=x']> (<[i':=y']> data)) in *.
  assert (x' = xi) as -> by congruence. assert (y' = xj) as -> by congruence.
  destruct (IH data1 (S i') (j' - 1)%nat) as (data' & j'' & -> & Hsw & Hj'' & Hlo'' & Hhi'').
  - rewrite (swap_lookup _ _ _ _ _ Hswap). repeat case_decide; try lia. done.
  - lia.
  - lia.
  - erewrite swap_length by done. lia.
  - lia.
  - intros k x Hk Hx. rewrite (swap_lookup _ _ _ _ _ Hswap) in Hx.
    repeat case_decide; try lia.
    + congruence.
    + apply (Hlo' k x); [lia|done].
  - intros k x Hk Hx. rewrite (swap_lookup _ _ _ _ _ Hswap) in Hx.
    repeat case_decide; try lia.
    + congruence.
    + apply (Hhi' k x); [lia|done].
  - exists data', j''. split; [done|]. split; [|split; [lia|done]].
    eapply swaps_step; [| |exact Hswap|exact Hsw]; lia.
Qed.

#[local] Arguments partitionLoop : simpl never.

Lemma partition_spec data a b pivot :
  (a <= pivot < b)%nat -> (b <= length data)%nat ->
  exists data' mid already p,
    partition less data a b pivot = Some (data', mid, already)
    /\ swaps a b data data' /\ (a <= mid < b)%nat
    /\ data !! pivot = Some p /\ data' !! mid = Some p
    /\ segAll (fun x => less x p = true) a mid data'
    /\ segAll (fun x => less x p = false) (S mid) b data'.
Proof.
  intros Hpiv Hb. unfold partition.
  destruct (swap_Some data a pivot) as (xa & p & Hxa & Hp & Hswap); [lia..|].
  rewrite Hswap. simpl. set (data0 := <[pivot:=xa]> (<[a:=p]> data)) in *.
  assert (data0 !! a = Some p) as Hp0.
  { rewrite (swap_lookup _ _ _ _ _ Hswap). repeat case_decide; congruence. }
  assert (length data0 = length data) as Hlen0 by (by eapply swap_length).
  assert (swaps a b data data0) as Hsw0 by (eapply swaps_one; [| |exact Hswap]; lia).
  destruct (scanLess_spec (S (S (b - 1) - (a + 1))) data0 a (a + 1) (b - 1) p)
    as (i & -> & Hi & Hall1 & Hstop1); [done|lia..|].
  simpl.
  destruct (scanNotLess_spec (S (S (b - 1) - i)) data0 a i (b - 1) p)
    as (j & -> & Hj & Hij & Hall2 & Hstop2); [done|lia..|].
  simpl.
  (* the last exchange, of the pivot with data[j] *)
  assert (forall data1 j, swaps a b data data1 -> (a <= j < b)%nat ->
            data1 !! a = Some p ->
            segAll (fun x => less x p = true) (S a) (S j) data1 ->
            segAll (fun x => less x p = false) (S j) b data1 ->
            exists data', swap data1 j a = Some data'
              /\ swaps a b data data' /\ data' !! j = Some p
              /\ segAll (fun x => less x p = true) a j data'
              /\ segAll (fun x => less x p = false) (S j) b data') as Hlast.
  { intros data1 j1 Hsw1 Hj1 Hp1 Hlo Hhi.
    assert (length data1 = length data) as Hlen1 by (by eapply swaps_length).
    destruct (swap_Some data1 j1 a) as (xj & p' & Hxj & Hp' & Hswap1); [lia..|].
    eexists. split; [exact Hswap1|].
    assert (p' = p) as -> by congruence.
    split; [|split; [|split]].
    - eapply swaps_trans; [exact Hsw1|]. eapply swaps_one; [| |exact Hswap1]; lia.
    - rewrite (swap_lookup _ _ _ _ _ Hswap1). repeat case_decide; try done; congruence.
    - intros k x Hk Hx. rewrite (swap_lookup _ _ _ _ _ Hswap1) in Hx.
      repeat case_decide; try lia.
      + apply (Hlo j1 x); [lia|congruence].
      + apply (Hlo k x); [lia|done].
    - intros k x Hk Hx. rewrite (swap_lookup _ _ _ _ _ Hswap1) in Hx.
      repeat case_decide; try lia. apply (Hhi k x); [lia|done]. }
  replace (S (b - 1)) with b in * by lia.
  case_decide as Hlt.
  { destruct (Hlast data0 j) as (data' & -> & Hsw & Hmid & Hlo & Hhi); [done|lia|done| | |].
    - eapply segAll_mono; [| |exact Hall1]; lia.
    - done.
    - simpl. exists data', j, true, p. repeat split; auto; lia. }
  destruct Hstop1 as (xi & Hxi & Hxip); [lia|].
  destruct Hstop2 as (xj & Hxj & Hxjp); [lia|].
  assert (i <> j) as Hne by (intros ->; congruence).
  destruct (swap_Some data0 i j) as (x' & y' & Hx' & Hy' & Hswap1); [lia..|].
  rewrite Hswap1. simpl. set (data1 := <[j:=x']> (<[i:=y']> data0)) in *.
  assert (x' = xi) as -> by congruence. assert (y' = xj) as -> by congruence.
  destruct (partitionLoop_spec (S (b - a)) data1 a b (S i) (j - 1)%nat p)
    as (data2 & j' & -> & Hsw2 & Hj' & Hlo2 & Hhi2).
  - rewrite (swap_lookup _ _ _ _ _ Hswap1). repeat case_decide; try lia. done.
  - lia.
  - lia.
  - erewrite swap_length by done. lia.
  - lia.
  - intros k x Hk Hx. rewrite (swap_lookup _ _ _ _ _ Hswap1) in Hx.
    repeat case_decide; try lia.
    + congruence.
    + apply (Hall1 k x); [lia|done].
  - intros k x Hk Hx. rewrite (swap_lookup _ _ _ _ _ Hswap1) in Hx.
    repeat case_decide; try lia.
    + congruence.
    + apply (Hall2 k x); [lia|done].
  - simpl.
    assert (swaps a b data data2) as Hsw.
    { eapply swaps_trans; [exact Hsw0|].
      eapply swaps_step; [| |exact Hswap1|]; [lia..|].
      eapply swaps_mono; [| |exact Hsw2]; lia. }
    destruct (Hlast data2 j') as (data' & -> & Hsw' & Hmid & Hlo & Hhi); [done|lia| |done|done|].
    + rewrite (swaps_outside _ _ _ _ _ Hsw2) by lia.
      rewrite (swap_lookup _ _ _ _ _ Hswap1). repeat case_decide; try lia. done.
    + simpl. exists data', j', false, p. repeat split; auto; lia.
Qed.

End partition.

(** *** Partition of the elements equal to the pivot *)

Section partitionEqual.

Context {E : Type} (less : E -> E -> bool).

Implicit Types data : list E.

Lemma scanNotGreater_spec fuel data a i j p :
  data !! a = Some p -> (j < length data)%nat -> (i <= S j)%nat ->
  (S j - i < fuel)%nat ->
  exists i', scanNotGreater less fuel data a i j = Some i'
    /\ (i <= i' <= S j)%nat
    /\ segAll (fun x => less p x = false) i i' data
    /\ (i' <= j -> exists x, data !! i' = Some x /\ less p x = true)%nat.
Proof.
  intros Hp Hj. revert i. induction fuel as [|fuel IH]; intros i Hij Hfuel; [lia|].
  simpl. case_decide as Hle; cycle 1.
  { exists i. split; [done|]. split; [lia|]. split; [|lia]. intros k x ?. lia. }
  destruct (lessAt_Some less data a i) as (p' & x & Hp' & Hx & ->);
    [by eapply lookup_lt_Some|lia|].
  assert (p' = p) as -> by congruence. simpl.
  destruct (less p x) eqn:Hxp.
  { exists i. split; [done|]. split; [lia|]. split; [|by eauto]. intros k y ?. lia. }
  destruct (IH (S i)) as (i' & -> & Hi' & Hall & Hstop); [lia..|].
  exists i'. split; [done|]. split; [lia|]. split; [|done].
  intros k y Hk Hy. destruct (decide (k = i)) as [->|Hne].
  - congruence.
  - apply (Hall k y); [lia|done].
Qed.

Lemma scanGreater_spec fuel data a i j p :
  data !! a = Some p -> (j < length data)%nat -> (1 <= i <= S j)%nat ->
  (S j - i < fuel)%nat ->
  exists j', scanGreater less fuel data a i j = Some j'
    /\ (j' <= j)%nat /\ (i <= S j')%nat
    /\ segAll (fun x => less p x = true) (S j') (S j) data
    /\ (i <= j' -> exists x, data !! j' = Some x /\ less p x = false)%nat.
Proof.
  intros Hp. revert j. induction fuel as [|fuel IH]; intros j Hj Hij Hfuel; [lia|].
  simpl. case_decide as Hle; cycle 1.
  { exists j. split; [done|]. split; [lia|]. split; [lia|]. split; [|lia].
    intros k x ?. lia. }
  destruct (lessAt_Some less data a j) as (p' & x & Hp' & Hx & ->);
    [by eapply lookup_lt_Some|lia|].
  assert (p' = p) as -> by congruence. simpl.
  destruct (less p x) eqn:Hxp; cycle 1.
  { exists j. split; [done|]. split; [lia|]. split; [lia|]. split; [|by eauto].
    intros k y ?. lia. }
  destruct (IH (j - 1)%nat) as (j' & -> & Hj' & Hij' & Hall & Hstop); [lia..|].
  exists j'. split; [done|]. split; [lia|]. split; [lia|]. split; [|done].
  intros k y Hk Hy. destruct (decide (k = j)) as [->|Hne].
  - congruence.
  - apply (Hall k y); [lia|done].
Qed.

#[local] Arguments scanNotGreater : simpl never.
#[local] Arguments scanGreater : simpl never.

Lemma partitionEqualLoop_spec fuel data a b i j p :
  data !! a = Some p -> (a < i)%nat -> (i <= S j)%nat -> (j < b <= length data)%nat ->
  (S j - i < fuel)%nat ->
  segAll (fun x => less p x = false) (S a) i data ->
  segAll (fun x => less p x = true) (S j) b data ->
  exists data' i', partitionEqualLoop less fuel data a i j = Some (data', i')
    /\ swaps (S a) b data data' /\ (a < i' <= b)%nat
    /\ segAll (fun x => less p x = false) (S a) i' data'
    /\ segAll (fun x => less p x = true) i' b data'.
Proof.
  intros Hp. revert data i j Hp.
  induction fuel as [|fuel IH]; intros data i j Hp Hai Hij Hjb Hfuel Hlo Hhi; [lia|].
  simpl.
  destruct (scanNotGreater_spec (S (S j - i)) data a i j p)
    as (i' & -> & Hi' & Hall1 & Hstop1); [done|lia..|].
  simpl.
  destruct (scanGreater_spec (S (S j - i')) data a i' j p)
    as (j' & -> & Hj' & Hij' & Hall2 & Hstop2); [done|lia..|].
  simpl.
  assert (segAll (fun x => less p x = false) (S a) i' data) as Hlo'.
  { intros k x Hk Hx. destruct (decide (k < i)%nat).
    - apply (Hlo k x); [lia|done].
    - apply (Hall1 k x); [lia|done]. }
  assert (segAll (fun x => less p x = true) (S j') b data) as Hhi'.
  { intros k x Hk Hx. destruct (decide (j < k)%nat).
    - apply (Hhi k x); [lia|done].
    - apply (Hall2 k x); [lia|done]. }
  case_decide as Hlt.
  { exists data, i'. split; [done|]. split; [apply swaps_refl|]. split; [lia|].
    split; [done|]. eapply segAll_mono; [| |exact Hhi']; lia. }
  destruct Hstop1 as (xi & Hxi & Hxip); [lia|].
  destruct Hstop2 as (xj & Hxj & Hxjp); [lia|].
  assert (i' <> j') as Hne by (intros ->; congruence).
  destruct (swap_Some data i' j') as (x' & y' & Hx' & Hy' & Hswap); [lia..|].
  rewrite Hswap. simpl. set (data1 := <[j':=x']> (<[i':=y']> data)) in *.
  assert (x' = xi) as -> by congruence. assert (y' = xj) as -> by congruence.
  destruct (IH data1 (S i') (j' - 1)%nat) as (data' & i'' & -> & Hsw & Hi'' & Hlo'' & Hhi'').
  - rewrite (swap_lookup _ _ _ _ _ Hswap). repeat case_decide; try lia. done.
  - lia.
  - lia.
  - erewrite swap_length by done. lia.
  - lia.
  - intros k x Hk Hx. rewrite (swap_lookup _ _ _ _ _ Hswap) in Hx.
    repeat case_decide; try lia.
    + congruence.
    + apply (Hlo' k x); [lia|done].
  - intros k x Hk Hx. rewrite (swap_lookup _ _ _ _ _ Hswap) in Hx.
    repeat case_decide; try lia.
    + congruence.
    + apply (Hhi' k x); [lia|done].
  - exists data', i''. split; [done|]. split; [|split; [lia|done]].
    eapply swaps_step; [| |exact Hswap|exact Hsw]; lia.
Qed.

#[local] Arguments partitionEqualLoop : simpl never.

Lemma partitionEqual_spec data a b pivot :
  (forall x, less x x = false) ->
  (a <= pivot < b)%nat -> (b <= length data)%nat ->
  exists data' mid p,
    partitionEqual less data a b pivot = Some (data', mid)
    /\ swaps a b data data' /\ (a < mid <= b)%nat
    /\ data !! pivot = Some p
    /\ segAll (fun x => less p x = false) a mid data'
    /\ segAll (fun x => less p x = true) mid b data'.
Proof.
  intros Hirr Hpiv Hb. unfold partitionEqual.
  destruct (swap_Some data a pivot) as (xa & p & Hxa & Hp & Hswap); [lia..|].
  rewrite Hswap. simpl. set (data0 := <[pivot:=xa]> (<[a:=p]> data)) in *.
  assert (data0 !! a = Some p) as Hp0.
  { rewrite (swap_lookup _ _ _ _ _ Hswap). repeat case_decide; congruence. }
  assert (length data0 = length data) as Hlen0 by (by eapply swap_length).
  destruct (partitionEqualLoop_spec (S (b - a)) data0 a b (a + 1) (b - 1)%nat p)
    as (data' & mid & -> & Hsw & Hmid & Hlo & Hhi); [done|lia..| | |].
  { intros k x ?. lia. }
  { intros k x ?. lia. }
  exists data', mid, p. split; [done|]. split; [|split; [lia|split; [done|split; [|done]]]].
  - eapply swaps_step; [| |exact Hswap|]; [lia..|].
    eapply swaps_mono; [| |exact Hsw]; lia.
  - intros k x Hk Hx. destruct (decide (k = a)) as [->|Hne].
    + rewrite (swaps_outside _ _ _ _ _ Hsw) in Hx by lia.
      assert (x = p) as -> by congruence. apply Hirr.
    + apply (Hlo k x); [lia|done].
Qed.

End partitionEqual.

(** *** Reversal, pattern breaking and the choice of the pivot *)

Section helpers.

Context {E : Type} (less : E -> E -> bool).

Implicit Types data : list E.

Lemma reverseLoop_spec a b fuel data i j :
  (j - i < fuel)%nat -> (i < j -> a <= i /\ j < b)%nat -> (b <= length data)%nat ->
  exists data', reverseLoop fuel data i j = Some data' /\ swaps a b data data'.
Proof.
  revert data i j. induction fuel as [|fuel IH]; intros data i j Hfuel Hij Hb; [lia|].
  simpl. case_decide as Hlt; cycle 1.
  { exists data. split; [done|apply swaps_refl]. }
  destruct (swap_Some data i j) as (x & y & Hx & Hy & Hswap); [lia..|].
  rewrite Hswap. simpl.
  destruct (IH (<[j:=x]> (<[i:=y]> data)) (S i) (j - 1)%nat) as (data' & -> & Hsw);
    [lia|lia| |].
  { erewrite swap_length by done. lia. }
  exists data'. split; [done|].
  eapply swaps_step; [| |exact Hswap|exact Hsw]; lia.
Qed.

Lemma reverseRange_spec data a b :
  (a <= b <= length data)%nat ->
  exists data', reverseRange data a b = Some data' /\ swaps a b data data'.
Proof. intros Hab. apply reverseLoop_spec; lia. Qed.

Lemma nextPowerOfTwo_mask (length : nat) (r : Z) :
  (0 < length)%nat ->
  (Z.to_nat (Z.land r (nextPowerOfTwo length - 1)) < 2 * length)%nat.
Proof.
  intros Hlen. unfold nextPowerOfTwo, bitsLen.
  destruct length as [|n]; [lia|]. set (l := S n) in *.
  change (Z.shiftl 1 (Z.of_nat (S (Nat.log2 l))) - 1)
    with (Z.ones (Z.of_nat (S (Nat.log2 l)))).
  rewrite Z.land_ones by lia.
  pose proof (Z.mod_pos_bound r (2 ^ Z.of_nat (S (Nat.log2 l)))) as Hmod.
  assert (2 ^ Z.of_nat (S (Nat.log2 l)) = Z.of_nat (2 ^ S (Nat.log2 l))) as Hpow.
  { rewrite Nat2Z.inj_pow. done. }
  pose proof (Nat.log2_spec l Hlen) as [Hlo Hhi].
  rewrite Nat.pow_succ_r' in Hpow. rewrite Hpow in *. lia.
Qed.

Lemma breakLoop_spec n data a b idx i random modulus :
  let length := (b - a)%nat in
  (a <= b <= Datatypes.length data)%nat ->
  modulus = nextPowerOfTwo length -> (0 < length)%nat ->
  (a + 1 <= idx + i)%nat -> (idx - 1 + i + n <= b)%nat -> (1 <= idx)%nat ->
  exists data', breakLoop n data a length idx i random modulus = Some data'
    /\ swaps a b data data'.
Proof.
  intros length Hab -> Hlen. subst length.
  revert data i random Hab. induction n as [|n IH]; intros data i random Hab Hlo Hhi Hidx.
  { exists data. split; [done|apply swaps_refl]. }
  simpl.
  set (other0 := Z.to_nat (Z.land (xorshiftNext random) (nextPowerOfTwo (b - a) - 1))).
  pose proof (nextPowerOfTwo_mask (b - a) (xorshiftNext random) Hlen) as Hother.
  fold other0 in Hother.
  set (other := if decide (b - a <= other0)%nat then (other0 - (b - a))%nat else other0).
  assert (other < b - a)%nat as Hother' by (subst other; case_decide; lia).
  destruct (swap_Some data (idx - 1 + i) (a + other)) as (x & y & Hx & Hy & Hswap); [lia..|].
  rewrite Hswap. simpl.
  destruct (IH (<[(a + other)%nat:=x]> (<[(idx - 1 + i)%nat:=y]> data)) (S i) (xorshiftNext random))
    as (data' & -> & Hsw); [|lia..|].
  { erewrite swap_length by done. lia. }
  exists data'. split; [done|].
  eapply swaps_step; [| |exact Hswap|exact Hsw]; lia.
Qed.

Lemma breakPatterns_spec data a b :
  (a <= b <= length data)%nat ->
  exists data', breakPatterns data a b = Some data' /\ swaps a b data data'.
Proof.
  intros Hab. unfold breakPatterns. case_decide as Hlen; cycle 1.
  { exists data. split; [done|apply swaps_refl]. }
  assert (2 <= (b - a) / 4)%nat as Hq by (apply Nat.div_le_lower_bound; lia).
  assert ((b - a) / 4 * 4 <= b - a)%nat as Hq'.
  { rewrite Nat.mul_comm. apply Nat.Div0.mul_div_le. }
  apply breakLoop_spec; auto; lia.
Qed.

(** [choosePivot] only reads; the pivot it picks lies in the range. *)
Lemma order2_spec (P : nat -> Prop) data a b swaps :
  (a < length data)%nat -> (b < length data)%nat -> P a -> P b ->
  exists x y swaps', order2 less data a b swaps = Some (x, y, swaps')
    /\ P x /\ P y /\ (x < length data)%nat /\ (y < length data)%nat.
Proof.
  intros Ha Hb HPa HPb. unfold order2.
  destruct (lessAt_Some less data b a) as (x & y & _ & _ & ->); [done..|]. simpl.
  destruct (less x y); eauto 10.
Qed.

Lemma median_spec (P : nat -> Prop) data a b c swaps :
  (a < length data)%nat -> (b < length data)%nat -> (c < length data)%nat ->
  P a -> P b -> P c ->
  exists m swaps', median less data a b c swaps = Some (m, swaps') /\ P m.
Proof.
  intros Ha Hb Hc HPa HPb HPc. unfold median.
  destruct (order2_spec P data a b swaps) as (a1 & b1 & s1 & -> & ? & ? & ? & ?); auto.
  simpl.
  destruct (order2_spec P data b1 c s1) as (b2 & c2 & s2 & -> & ? & ? & ? & ?); auto.
  simpl.
  destruct (order2_spec P data a1 b2 s2) as (a3 & b3 & s3 & -> & ? & ? & ? & ?); auto.
  simpl. eauto.
Qed.

#[local] Arguments median : simpl never.

Lemma choosePivot_spec data a b :
  (a < b <= length data)%nat ->
  exists pivot hint, choosePivot less data a b = Some (pivot, hint)
    /\ (a <= pivot < b)%nat.
Proof.
  intros Hab. unfold choosePivot.
  set (l := (b - a)%nat). set (q := (l / 4)%nat).
  assert (q * 4 <= l)%nat as Hq.
  { subst q. rewrite Nat.mul_comm. apply Nat.Div0.mul_div_le. }
  assert (forall (j swaps : nat), (a <= j < b)%nat ->
    exists pivot hint,
      (if decide (swaps = 0)%nat then Some (j, increasingHint)
       else if decide (swaps = 4 * 3)%nat then Some (j, decreasingHint)
       else Some (j, unknownHint)) = Some (pivot, hint) /\ (a <= pivot < b)%nat) as Hend.
  { intros j swaps Hj. repeat case_decide; eauto. }
  set (P := fun k : nat => (a <= k < b)%nat).
  case_decide as H8; cycle 1.
  { refine (Hend (a + q * 2)%nat 0%nat _).
    assert (q <= 1)%nat by (subst q; apply Nat.lt_succ_r, Nat.Div0.div_lt_upper_bound; lia).
    subst l. lia. }
  case_decide as H50; cycle 1.
  { simpl.
    destruct (median_spec P data (a + q * 1) (a + q * 2) (a + q * 3) 0)
      as (m & s & -> & Hm); unfold P; try lia.
    simpl. by apply Hend. }
  assert (12 <= q)%nat as Hq12 by (apply Nat.div_le_lower_bound; lia).
  unfold medianAdjacent.
  destruct (median_spec P data (a + q * 1 - 1) (a + q * 1) (a + q * 1 + 1) 0)
    as (i & s1 & -> & Hi); unfold P; try lia.
  simpl.
  destruct (median_spec P data (a + q * 2 - 1) (a + q * 2) (a + q * 2 + 1) s1)
    as (j & s2 & -> & Hj); unfold P; try lia.
  simpl.
  destruct (median_spec P data (a + q * 3 - 1) (a + q * 3) (a + q * 3 + 1) s2)
    as (k & s3 & -> & Hk); unfold P; try lia.
  simpl. unfold P in *.
  destruct (median_spec P data i j k s3) as (m & s & -> & Hm); unfold P; try lia.
  simpl. by apply Hend.
Qed.

End helpers.

(** *** Partial insertion sort *)

Section partial.

Context {E : Type} (less : E -> E -> bool) (Hswo : StrictWeakOrder less).

Implicit Types data : list E.

Lemma scanOrdered_spec a fuel data i b :
  (a < i <= b)%nat -> (b <= length data)%nat -> (b - i < fuel)%nat ->
  sortedSeg less a i data ->
  exists i', scanOrdered less fuel data i b = Some i'
    /\ (i <= i' <= b)%nat /\ sortedSeg less a i' data
    /\ (i' < b -> exists x y, data !! (i' - 1)%nat = Some x /\ data !! i' = Some y
                    /\ less y x = true)%nat.
Proof.
  revert i. induction fuel as [|fuel IH]; intros i Hi Hb Hfuel Hsorted; [lia|].
  simpl. case_decide as Hlt; cycle 1.
  { exists i. split; [done|]. split; [lia|]. split; [done|lia]. }
  destruct (lessAt_Some less data i (i - 1)) as (y & x & Hy & Hx & ->); [lia..|].
  simpl. destruct (less y x) eqn:Hyx.
  { exists i. split; [done|]. split; [lia|]. split; [done|]. eauto. }
  destruct (IH (S i)) as (i' & -> & Hi' & Hs' & Hstop); [lia..| |].
  { intros k j w v Hk Hkj Hj Hw Hv.
    destruct (decide (j = i)) as [->|Hne]; cycle 1.
    { apply (Hsorted k j w v); auto; lia. }
    assert (v = y) as -> by congruence.
    destruct (decide (k = i - 1)%nat) as [->|Hne'].
    { congruence. }
    apply (swo_negtrans less Hswo w x y); [|done].
    apply (Hsorted k (i - 1)%nat w x); auto; lia. }
  exists i'. split; [done|]. split; [lia|]. done.
Qed.

(** Below a range whose elements are all at or above the element before
    it, the shift to the left stops where the insertion does. *)
Lemma shiftLeft_insertDown a j data :
  (a <= j < length data)%nat -> lowerBounded less a (S j) data ->
  shiftLeft less data j = insertDown less data a j.
Proof.
  revert data. induction j as [|j' IH]; intros data Hj Hlow; [done|].
  simpl.
  destruct (lessAt_Some less data (S j') j') as (x & y & Hx & Hy & Hless); [lia..|].
  rewrite Hless. simpl. case_decide as Haj.
  - destruct (less x y) eqn:Hxy; [|done].
    destruct (swap_Some data (S j') j') as (x' & y' & Hx' & Hy' & Hswap); [lia..|].
    rewrite Hswap. simpl. apply IH.
    + erewrite swap_length by done. lia.
    + apply (lowerBounded_mono_r less a (S (S j'))); [lia|].
      apply (swaps_lowerBounded less a (S (S j')) a (S (S j')) data); [|lia|lia|done].
      eapply swaps_one; [| |exact Hswap]; lia.
  - assert (a = S j') as -> by lia.
    destruct Hlow as [?|(z & Hz & Hall)]; [lia|].
    replace (S j' - 1)%nat with j' in Hz by lia.
    assert (z = y) as -> by congruence.
    rewrite (Hall (S j') x); [done|lia|done].
Qed.

Lemma shiftRight_spec n data j :
  (1 <= j)%nat -> (j + n <= length data)%nat ->
  exists data', shiftRight less n data j = Some data'
    /\ swaps (j - 1) (j + n) data data'.
Proof.
  revert data j. induction n as [|n IH]; intros data j Hj Hlen.
  { exists data. split; [done|apply swaps_refl]. }
  simpl.
  destruct (lessAt_Some less data j (j - 1)) as (x & y & Hx & Hy & ->); [lia..|].
  simpl. destruct (less x y).
  - destruct (swap_Some data j (j - 1)) as (x' & y' & Hx' & Hy' & Hswap); [lia..|].
    rewrite Hswap. simpl.
    destruct (IH (<[(j - 1)%nat:=x']> (<[j:=y']> data)) (S j)) as (data' & -> & Hsw); [lia| |].
    { erewrite swap_length by done. lia. }
    exists data'. split; [done|].
    eapply swaps_step; [| |exact Hswap|]; [lia..|].
    eapply swaps_mono; [| |exact Hsw]; lia.
  - exists data. split; [done|apply swaps_refl].
Qed.

#[local] Arguments scanOrdered : simpl never.
#[local] Arguments shiftLeft : simpl never.
#[local] Arguments shiftRight : simpl never.

Lemma partialLoop_spec steps data a b i :
  (a < i <= b)%nat -> (b <= length data)%nat ->
  lowerBounded less a b data -> sortedSeg less a i data ->
  exists data' done, partialLoop less steps data a b i = Some (data', done)
    /\ swaps a b data data' /\ (done = true -> sortedSeg less a b data').
Proof.
  revert data i. induction steps as [|steps IH]; intros data i Hi Hb Hlow Hsorted.
  { exists data, false. split; [done|]. split; [apply swaps_refl|done]. }
  simpl.
  destruct (scanOrdered_spec a (S (b - i)) data i b) as (i' & -> & Hi' & Hs' & Hstop);
    [lia..|done|].
  simpl. case_decide as Hend.
  { subst i'. exists data, true. split; [done|]. split; [apply swaps_refl|done]. }
  case_decide as Hshort.
  { exists data, false. split; [done|]. split; [apply swaps_refl|done]. }
  destruct (swap_Some data i' (i' - 1)) as (x & y & Hx & Hy & Hswap); [lia..|].
  rewrite Hswap. simpl. set (data1 := <[(i' - 1)%nat:=x]> (<[i':=y]> data)) in *.
  assert (swaps a b data data1) as Hsw1 by (eapply swaps_one; [| |exact Hswap]; lia).
  assert (length data1 = length data) as Hlen1 by (by eapply swap_length).
  assert (exists data2,
    (if decide (2 <= i' - a)%nat then shiftLeft less data1 (i' - 1) else Some data1)
      = Some data2
    /\ swaps a i' data1 data2 /\ sortedSeg less a i' data2) as (data2 & -> & Hsw2 & Hs2).
  { case_decide as H2; cycle 1.
    { exists data1. split; [done|]. split; [apply swaps_refl|].
      apply sortedSeg_short. lia. }
    rewrite (shiftLeft_insertDown a); [|lia|].
    - destruct (insertDown_spec less Hswo a (i' - 1)%nat data1) as (data2 & -> & Hsw2 & Hs2);
        [lia..| |].
      + intros k j w v Hk Hkj Hj Hw Hv.
        rewrite (swap_lookup _ _ _ _ _ Hswap) in Hw.
        rewrite (swap_lookup _ _ _ _ _ Hswap) in Hv.
        repeat case_decide; try lia. apply (Hs' k j w v); auto; lia.
      + replace (S (i' - 1)) with i' in * by lia. eauto.
    - eapply lowerBounded_mono_r; [|eapply swaps_lowerBounded; [exact Hsw1|..|exact Hlow]]; lia. }
  simpl.
  assert (swaps a b data data2) as Hsw12.
  { eapply swaps_trans; [exact Hsw1|]. eapply swaps_mono; [| |exact Hsw2]; lia. }
  assert (length data2 = length data) as Hlen2 by (by eapply swaps_length).
  assert (exists data3,
    (if decide (2 <= b - i')%nat then shiftRight less (b - (i' + 1)) data2 (i' + 1)
     else Some data2) = Some data3
    /\ swaps i' b data2 data3) as (data3 & -> & Hsw3).
  { case_decide as H2; cycle 1.
    { exists data2. split; [done|apply swaps_refl]. }
    destruct (shiftRight_spec (b - (i' + 1)) data2 (i' + 1)) as (data3 & -> & Hsw3); [lia..|].
    exists data3. split; [done|]. eapply swaps_mono; [| |exact Hsw3]; lia. }
  simpl.
  assert (swaps a b data data3) as Hsw13.
  { eapply swaps_trans; [exact Hsw12|]. eapply swaps_mono; [| |exact Hsw3]; lia. }
  destruct (IH data3 i') as (data' & done & -> & Hsw & Hdone); [lia| | | |].
  - erewrite swaps_length by done. lia.
  - eapply swaps_lowerBounded; [exact Hsw13|..|exact Hlow]; lia.
  - eapply swaps_sortedSeg; [exact Hsw3| |exact Hs2]. lia.
  - exists data', done. split; [done|]. split; [|done].
    eapply swaps_trans; eauto.
Qed.

Lemma partialInsertionSort_spec data a b :
  (a < b <= length data)%nat -> lowerBounded less a b data ->
  exists data' done, partialInsertionSort less data a b = Some (data', done)
    /\ swaps a b data data' /\ (done = true -> sortedSeg less a b data').
Proof.
  intros Hab Hlow. apply partialLoop_spec; auto; try lia.
  apply sortedSeg_short. lia.
Qed.

End partial.

(** *** Heap sort *)

Section heap.

Context {E : Type} (less : E -> E -> bool) (Hswo : StrictWeakOrder less).

Implicit Types data : list E.

#[local] Arguments Nat.mul : simpl never.
#[local] Arguments Nat.add : simpl never.
#[local] Arguments Nat.sub : simpl never.
#[local] Arguments Nat.div : simpl never.

Lemma lookup_same data i j x y :
  data !! i = Some x -> data !! j = Some y -> i = j -> x = y.
Proof. intros ?? ->. congruence. Qed.

Lemma siftDownLoop_spec first lo hi fuel data root :
  (first + hi <= length data)%nat -> (lo <= root)%nat -> (hi - root < fuel)%nat ->
  heapExcept less first lo root hi data ->
  exists data', siftDownLoop less fuel data root hi first = Some data'
    /\ swaps (first + lo) (first + hi) data data'
    /\ heapFrom less first lo hi data'.
Proof.
  revert data root. induction fuel as [|fuel IH]; intros data root Hlen Hlo Hfuel [H1 H2]; [lia|].
  simpl. case_decide as Hchild.
  { exists data. split; [done|]. split; [apply swaps_refl|].
    intros r c x y Hr Hc Hchi Hx Hy.
    destruct (decide (r = root)) as [->|Hne]; [unfold childOf in Hc; lia|].
    by apply (H1 r c x y). }
  (* the greater child [m], and its sibling when there is one *)
  assert (exists m, 
    ((if decide (2 * root + 1 + 1 < hi)%nat
      then lessAt less data (first + (2 * root + 1)) (first + (2 * root + 1) + 1)
      else Some false) = Some (bool_decide (m = 2 * root + 1 + 1)%nat))
    /\ childOf root m /\ (m < hi)%nat
    /\ (forall c x y, childOf root c -> (c < hi)%nat ->
          data !! (first + m)%nat = Some x -> data !! (first + c)%nat = Some y ->
          less x y = false)) as (m & Hpick & Hm & Hmhi & Hmax).
  { case_decide as Htwo.
    - destruct (lessAt_Some less data (first + (2 * root + 1)) (first + (2 * root + 1) + 1))
        as (x & y & Hx & Hy & ->); [lia..|].
      destruct (less x y) eqn:Hxy.
      + exists (2 * root + 1 + 1)%nat. rewrite bool_decide_eq_true_2 by done.
        split; [done|]. split; [right; lia|]. split; [lia|].
        intros c x' y' [->| ->] Hc Hx' Hy'.
        * assert (x' = y) as -> by (eapply lookup_same; [exact Hx'|exact Hy|lia]).
          assert (y' = x) as -> by congruence.
          by apply (less_asym less Hswo).
        * assert (y' = x') as -> by (eapply lookup_same; [exact Hy'|exact Hx'|lia]).
          apply (swo_irrefl less Hswo).
      + exists (2 * root + 1)%nat. rewrite bool_decide_eq_false_2 by lia.
        split; [done|]. split; [left; lia|]. split; [lia|].
        intros c x' y' [->| ->] Hc Hx' Hy'.
        * assert (y' = x') as -> by congruence. apply (swo_irrefl less Hswo).
        * assert (x' = x) as -> by congruence.
          assert (y' = y) as -> by (eapply lookup_same; [exact Hy'|exact Hy|lia]).
          done.
    - exists (2 * root + 1)%nat. rewrite bool_decide_eq_false_2 by lia.
      split; [done|]. split; [left; lia|]. split; [lia|].
      intros c x' y' [->| ->] Hc Hx' Hy'; [|lia].
      assert (y' = x') as -> by congruence. apply (swo_irrefl less Hswo). }
  rewrite Hpick. simpl.
  replace (if bool_decide (m = 2 * root + 1 + 1)%nat then (2 * root + 1 + 1)%nat
           else (2 * root + 1)%nat) with m
    by (case_bool_decide; unfold childOf in Hm; lia).
  clear Hpick.
  destruct (lessAt_Some less data (first + root) (first + m)) as (xr & xm & Hxr & Hxm & ->);
    [unfold childOf in Hm; lia..|].
  simpl. destruct (less xr xm) eqn:Hrm; cycle 1.
  { exists data. split; [done|]. split; [apply swaps_refl|].
    intros r c x y Hr Hc Hchi Hx Hy.
    destruct (decide (r = root)) as [->|Hne]; [|by apply (H1 r c x y)].
    assert (x = xr) as -> by congruence.
    apply (swo_negtrans less Hswo y xm xr); [|done].
    by apply (Hmax c xm y). }
  destruct (swap_Some data (first + root) (first + m)) as (x' & y' & Hx' & Hy' & Hswap);
    [unfold childOf in Hm; lia..|].
  rewrite Hswap. simpl.
  set (data1 := <[(first + m)%nat:=x']> (<[(first + root)%nat:=y']> data)) in *.
  assert (x' = xr) as -> by congruence. assert (y' = xm) as -> by congruence.
  assert (root < m)%nat as Hrootm by (unfold childOf in Hm; lia).
  destruct (IH data1 m) as (data' & -> & Hsw & Hheap).
  - erewrite swap_length by done. done.
  - lia.
  - lia.
  - split.
    + intros r c x y Hr Hrm' Hc Hchi Hx Hy.
      destruct (decide (r = root)) as [->|Hne].
      * (* the children of [root] against the element moved up *)
        rewrite (swap_lookup_l _ _ _ _ Hswap) in Hx.
        assert (x = xm) as -> by congruence.
        destruct (decide (c = m)) as [->|Hcm].
        -- rewrite (swap_lookup_r _ _ _ _ Hswap) in Hy.
           assert (y = xr) as -> by congruence.
           by apply (less_asym less Hswo).
        -- rewrite (swap_lookup_ne _ _ _ _ _ Hswap) in Hy by (unfold childOf in *; lia).
           by apply (Hmax c xm y).
      * assert (c <> m) as Hcm by (unfold childOf in *; lia).
        rewrite (swap_lookup_ne _ _ _ _ _ Hswap) in Hx by lia.
        destruct (decide (c = root)) as [->|Hcr].
        -- (* [r] is the parent of [root] *)
           rewrite (swap_lookup_l _ _ _ _ Hswap) in Hy.
           by apply (H2 r m x y).
        -- rewrite (swap_lookup_ne _ _ _ _ _ Hswap) in Hy by lia.
           by apply (H1 r c x y).
    + intros p c x y Hp Hpm Hc Hchi Hx Hy.
      assert (p = root) as -> by (unfold childOf in *; lia).
      assert (m < c)%nat by (unfold childOf in *; lia).
      rewrite (swap_lookup_l _ _ _ _ Hswap) in Hx.
      rewrite (swap_lookup_ne _ _ _ _ _ Hswap) in Hy by lia.
      apply (H1 m c x y); auto; lia.
  - exists data'. split; [done|]. split; [|done].
    eapply swaps_step; [| |exact Hswap|exact Hsw]; unfold childOf in Hm; lia.
Qed.

Lemma siftDown_spec first lo hi data :
  (first + hi <= length data)%nat -> heapFrom less first (S lo) hi data ->
  exists data', siftDown less data lo hi first = Some data'
    /\ swaps (first + lo) (first + hi) data data'
    /\ heapFrom less first lo hi data'.
Proof.
  intros Hlen Hheap. apply siftDownLoop_spec; [done|lia|lia|]. split.
  - intros r c x y Hr Hne. apply Hheap. lia.
  - intros p c x y Hp Hpr. unfold childOf in Hpr. lia.
Qed.

#[local] Arguments siftDown : simpl never.

Lemma heapify_spec first hi n data :
  (first + hi <= length data)%nat -> heapFrom less first n hi data ->
  exists data', heapify less n data hi first = Some data'
    /\ swaps first (first + hi) data data'
    /\ heapFrom less first 0 hi data'.
Proof.
  revert data. induction n as [|i IH]; intros data Hlen Hheap.
  { exists data. split; [done|]. split; [apply swaps_refl|done]. }
  simpl. destruct (siftDown_spec first i hi data) as (data1 & -> & Hsw1 & Hheap1); [done..|].
  simpl. destruct (IH data1) as (data' & -> & Hsw & Hheap'); [|done|].
  { erewrite swaps_length by done. done. }
  exists data'. split; [done|]. split; [|done].
  eapply swaps_trans; [|exact Hsw]. eapply swaps_mono; [| |exact Hsw1]; lia.
Qed.

(** The root of a heap is not less than any of its nodes. *)
Lemma heap_root_max first hi data k x y :
  heapFrom less first 0 hi data -> (first + hi <= length data)%nat -> (k < hi)%nat ->
  data !! (first + 0)%nat = Some x -> data !! (first + k)%nat = Some y ->
  less x y = false.
Proof.
  intros Hheap Hlen. revert y.
  induction k as [k IH] using lt_wf_ind. intros y Hk Hx Hy.
  destruct (decide (k = 0)%nat) as [->|Hne].
  { assert (y = x) as -> by congruence. apply (swo_irrefl less Hswo). }
  set (p := ((k - 1) / 2)%nat).
  assert (childOf p k) as Hpk.
  { unfold childOf, p. pose proof (Nat.div_mod_eq (k - 1) 2) as Hdm.
    pose proof (Nat.mod_upper_bound (k - 1) 2). lia. }
  assert (p < k)%nat as Hp by (unfold childOf in Hpk; lia).
  destruct (lookup_lt_is_Some_2 data (first + p)) as [z Hz]; [lia|].
  apply (swo_negtrans less Hswo y z x).
  - apply (Hheap p k z y); auto; lia.
  - apply (IH p); auto; lia.
Qed.

Lemma popAll_spec first hi n data :
  (n <= hi)%nat -> (first + hi <= length data)%nat ->
  heapFrom less first 0 n data ->
  sortedSeg less (first + n) (first + hi) data ->
  (forall k j x y, (k < n)%nat -> (n <= j < hi)%nat ->
     data !! (first + k)%nat = Some x -> data !! (first + j)%nat = Some y ->
     less y x = false) ->
  exists data', popAll less n data first = Some data'
    /\ swaps first (first + hi) data data'
    /\ sortedSeg less first (first + hi) data'.
Proof.
  revert data. induction n as [|i IH]; intros data Hn Hlen Hheap Hsorted Hcross.
  { exists data. split; [done|]. split; [apply swaps_refl|].
    by rewrite Nat.add_0_r in Hsorted. }
  simpl.
  destruct (swap_Some data first (first + i)) as (mx & xi & Hmx & Hxi & Hswap); [lia..|].
  rewrite Hswap. simpl.
  set (data1 := <[(first + i)%nat:=mx]> (<[first:=xi]> data)) in *.
  assert (length data1 = length data) as Hlen1 by (by eapply swap_length).
  destruct (siftDown_spec first 0 i data1) as (data2 & -> & Hsw2 & Hheap2); [lia| |].
  { intros r c x y Hr Hc Hci Hx Hy.
    rewrite (swap_lookup _ _ _ _ _ Hswap) in Hx.
    rewrite (swap_lookup _ _ _ _ _ Hswap) in Hy.
    unfold childOf in Hc. repeat case_decide; try lia.
    apply (Hheap r c x y); auto; unfold childOf; lia. }
  simpl. rewrite Nat.add_0_r in Hsw2.
  assert (length data2 = length data) as Hlen2 by (erewrite swaps_length by done; done).
  assert (data2 !! (first + i)%nat = Some mx) as Hmx2.
  { rewrite (swaps_outside _ _ _ _ _ Hsw2) by lia.
    rewrite (swap_lookup _ _ _ _ _ Hswap). by case_decide. }
  assert (forall j, (i < j < hi)%nat -> data2 !! (first + j)%nat = data !! (first + j)%nat) as Hrest.
  { intros j Hj. rewrite (swaps_outside _ _ _ _ _ Hsw2) by lia.
    rewrite (swap_lookup _ _ _ _ _ Hswap). repeat case_decide; try lia. done. }
  (* an element of the heap after the step was in the heap before it *)
  assert (forall k x, (k < i)%nat -> data2 !! (first + k)%nat = Some x ->
            exists k', (k' < S i)%nat /\ data !! (first + k')%nat = Some x) as Hfrom.
  { intros k x Hk Hx.
    destruct (swaps_inside _ _ _ _ (first + k)%nat x Hsw2) as (k' & Hk' & Hx'); [lia|done|].
    rewrite (swap_lookup _ _ _ _ _ Hswap) in Hx'.
    repeat case_decide; try lia.
    - exists i. split; [lia|done].
    - exists (k' - first)%nat. split; [lia|].
      replace (first + (k' - first))%nat with k' by lia. done. }
  destruct (IH data2) as (data' & -> & Hsw & Hsorted'); [lia|lia|done| | |].
  - intros j1 j2 x y Hj1 Hj12 Hj2 Hx Hy.
    destruct (decide (j1 = first + i)%nat) as [->|Hne].
    + assert (x = mx) as -> by congruence.
      replace j2 with (first + (j2 - first))%nat in Hy by lia.
      rewrite Hrest in Hy by lia.
      apply (Hcross 0%nat (j2 - first)%nat mx y); [lia|lia| |done].
      by rewrite Nat.add_0_r.
    + replace j1 with (first + (j1 - first))%nat in Hx by lia.
      replace j2 with (first + (j2 - first))%nat in Hy by lia.
      rewrite Hrest in Hx by lia. rewrite Hrest in Hy by lia.
      apply (Hsorted (first + (j1 - first))%nat (first + (j2 - first))%nat x y); auto; lia.
  - intros k j x y Hk Hj Hx Hy.
    destruct (Hfrom k x Hk Hx) as (k' & Hk' & Hx').
    destruct (decide (j = i)) as [->|Hne].
    + assert (y = mx) as -> by congruence.
      apply (heap_root_max first (S i) data k' mx x); auto; [lia|].
      by rewrite Nat.add_0_r.
    + rewrite Hrest in Hy by lia.
      apply (Hcross k' j x y); auto; lia.
  - exists data'. split; [done|]. split; [|done].
    eapply swaps_step; [| |exact Hswap|]; [lia..|].
    eapply swaps_trans; [|exact Hsw].
    eapply swaps_mono; [| |exact Hsw2]; lia.
Qed.

#[local] Arguments heapify : simpl never.
#[local] Arguments popAll : simpl never.

Lemma heapSort_spec data a b :
  (a <= b <= length data)%nat ->
  exists data', heapSort less data a b = Some data'
    /\ swaps a b data data' /\ sortedSeg less a b data'.
Proof.
  intros Hab. unfold heapSort.
  destruct (heapify_spec a (b - a) ((b - a - 1) / 2 + 1) data) as (data1 & -> & Hsw1 & Hheap1);
    [lia| |].
  { intros r c x y Hr Hc Hchi.
    pose proof (Nat.div_mod_eq (b - a - 1) 2) as Hdm.
    pose proof (Nat.mod_upper_bound (b - a - 1) 2).
    unfold childOf in Hc. lia. }
  simpl. replace (a + (b - a))%nat with b in * by lia.
  destruct (popAll_spec a (b - a) (b - a) data1) as (data' & -> & Hsw & Hsorted);
    [lia| |done| | |].
  - erewrite swaps_length by done. lia.
  - apply sortedSeg_short. lia.
  - intros k j x y Hk Hj. lia.
  - replace (a + (b - a))%nat with b in * by lia.
    exists data'. split; [done|]. split; [|done]. eapply swaps_trans; eauto.
Qed.

End heap.

(** *** Pattern-defeating quicksort *)

Section pdq.

Context {E : Type} (less : E -> E -> bool) (Hswo : StrictWeakOrder less).

Implicit Types data : list E.

#[local] Arguments Nat.mul : simpl never.
#[local] Arguments Nat.add : simpl never.
#[local] Arguments Nat.sub : simpl never.
#[local] Arguments Nat.div : simpl never.
#[local] Arguments insertionSort : simpl never.
#[local] Arguments heapSort : simpl never.
#[local] Arguments breakPatterns : simpl never.
#[local] Arguments choosePivot : simpl never.
#[local] Arguments reverseRange : simpl never.
#[local] Arguments partialInsertionSort : simpl never.
#[local] Arguments partitionEqual : simpl never.
#[local] Arguments partition : simpl never.
#[local] Arguments lessAt : simpl never.

(** Exchanges that stay clear of a range and of the element before it
    keep its lower bound. *)
Lemma lowerBounded_frame a b a' b' data data' :
  swaps a' b' data data' -> (a <= b)%nat -> (b' <= a - 1 \/ b <= a')%nat ->
  lowerBounded less a b data -> lowerBounded less a b data'.
Proof.
  intros Hsw Hab Hd [->|(z & Hz & Hall)]; [by left|].
  destruct (decide (a = 0)%nat) as [->|Hne]; [by left|right].
  exists z. split.
  - rewrite (swaps_outside _ _ _ _ _ Hsw); [done|lia].
  - intros k x Hk Hx. rewrite (swaps_outside _ _ _ _ _ Hsw) in Hx by lia.
    by apply (Hall k x).
Qed.

(** A range split at a pivot, with both sides in order, is in order. *)
Lemma sortedSeg_around_pivot a b mid p data :
  (a <= mid < b)%nat -> data !! mid = Some p ->
  segAll (fun x => less x p = true) a mid data ->
  segAll (fun x => less x p = false) (S mid) b data ->
  sortedSeg less a mid data -> sortedSeg less (S mid) b data ->
  sortedSeg less a b data.
Proof.
  intros Hmid Hp Hlo Hhi Hsl Hsr i j x y Hi Hij Hj Hx Hy.
  destruct (decide (j < mid)%nat); [apply (Hsl i j x y); auto; lia|].
  destruct (decide (mid < i)%nat); [apply (Hsr i j x y); auto; lia|].
  destruct (decide (i = mid)) as [->|Hne].
  { assert (x = p) as -> by congruence. apply (Hhi j y); [lia|done]. }
  assert (less x p = true) as Hxp by (apply (Hlo i x); [lia|done]).
  destruct (decide (j = mid)) as [->|Hne'].
  { assert (y = p) as -> by congruence. by apply (less_asym less Hswo). }
  assert (less y p = false) as Hyp by (apply (Hhi j y); [lia|done]).
  destruct (less y x) eqn:Hyx; [|done].
  pose proof (swo_trans less Hswo y x p Hyx Hxp). congruence.
Qed.

(** A range whose front holds elements equivalent to the pivot and whose
    back, in order, holds greater ones, is in order. *)
Lemma sortedSeg_after_equal a b mid p z data :
  (a <= mid <= b)%nat -> less z p = false ->
  segAll (fun x => less x z = false) a b data ->
  segAll (fun x => less p x = false) a mid data ->
  segAll (fun x => less p x = true) mid b data ->
  sortedSeg less mid b data ->
  sortedSeg less a b data.
Proof.
  intros Hmid Hzp Hz Hlo Hhi Hsr i j x y Hi Hij Hj Hx Hy.
  destruct (decide (mid <= i)%nat); [apply (Hsr i j x y); auto; lia|].
  assert (less p x = false) as Hpx by (apply (Hlo i x); [lia|done]).
  destruct (decide (j < mid)%nat).
  - (* x <= p <= z <= y *)
    assert (less y z = false) as Hyz by (apply (Hz j y); [lia|done]).
    apply (swo_negtrans less Hswo x p y); [done|].
    by apply (swo_negtrans less Hswo p z y).
  - assert (less p y = true) as Hpy by (apply (Hhi j y); [lia|done]).
    destruct (less y x) eqn:Hyx; [|done].
    pose proof (swo_trans less Hswo p y x Hpy Hyx). congruence.
Qed.

Lemma pdqsort_spec fuel data a b limit wasBalanced wasPartitioned :
  (b - a < fuel)%nat -> (a <= b <= length data)%nat -> lowerBounded less a b data ->
  exists data', pdqsort less fuel data a b limit wasBalanced wasPartitioned = Some data'
    /\ swaps a b data data' /\ sortedSeg less a b data'.
Proof.
  revert data a b limit wasBalanced wasPartitioned.
  induction fuel as [|fuel IH];
    intros data a b limit wasBalanced wasPartitioned Hfuel Hab Hlow; [lia|].
  simpl.
  case_decide as Hlong; [by apply insertionSort_spec|].
  case_decide as Hlimit; [by apply heapSort_spec|].
  (* breaking patterns *)
  assert (exists data1 limit1,
    (if negb wasBalanced
     then data0 ← breakPatterns data a b; Some (data0, (limit - 1)%nat)
     else Some (data, limit)) = Some (data1, limit1)
    /\ swaps a b data data1) as (data1 & limit1 & -> & Hsw1).
  { destruct wasBalanced; simpl.
    - exists data, limit. split; [done|apply swaps_refl].
    - destruct (breakPatterns_spec data a b) as (data1 & -> & Hsw1); [done|].
      simpl. eauto. }
  simpl.
  assert (length data1 = length data) as Hlen1 by (by eapply swaps_length).
  (* the pivot *)
  destruct (choosePivot_spec less data1 a b) as (pivot & hint & -> & Hpivot); [lia|].
  simpl.
  assert (exists data2 pivot2 hint2,
    (if decide (hint = decreasingHint)
     then data0 ← reverseRange data1 a b;
          Some (data0, (b - 1 - (pivot - a))%nat, increasingHint)
     else Some (data1, pivot, hint)) = Some (data2, pivot2, hint2)
    /\ swaps a b data1 data2 /\ (a <= pivot2 < b)%nat)
    as (data2 & pivot2 & hint2 & -> & Hsw2 & Hpivot2).
  { case_decide.
    - destruct (reverseRange_spec data1 a b) as (data2 & -> & Hsw2); [lia|].
      simpl. exists data2, (b - 1 - (pivot - a))%nat, increasingHint.
      split; [done|]. split; [done|lia].
    - exists data1, pivot, hint. split; [done|]. split; [apply swaps_refl|done]. }
  simpl.
  assert (swaps a b data data2) as Hsw12 by (eapply swaps_trans; eauto).
  assert (length data2 = length data) as Hlen2 by (by eapply swaps_length).
  (* is the range in order already? *)
  assert (exists data3 done,
    (if wasBalanced && wasPartitioned && bool_decide (hint2 = increasingHint)
     then partialInsertionSort less data2 a b
     else Some (data2, false)) = Some (data3, done)
    /\ swaps a b data2 data3 /\ (done = true -> sortedSeg less a b data3))
    as (data3 & done & -> & Hsw3 & Hdone).
  { destruct (wasBalanced && wasPartitioned && bool_decide (hint2 = increasingHint)).
    - apply (partialInsertionSort_spec less Hswo); [lia|].
      eapply swaps_lowerBounded; [exact Hsw12|..|exact Hlow]; lia.
    - exists data2, false. split; [done|]. split; [apply swaps_refl|done]. }
  simpl.
  assert (swaps a b data data3) as Hsw13 by (eapply swaps_trans; eauto).
  assert (length data3 = length data) as Hlen3 by (by eapply swaps_length).
  assert (lowerBounded less a b data3) as Hlow3.
  { eapply swaps_lowerBounded; [exact Hsw13|..|exact Hlow]; lia. }
  destruct done.
  { exists data3. split; [done|]. split; [done|]. by apply Hdone. }
  clear Hdone.
  (* is the pivot a copy of the element before the range? *)
  assert (exists dup,
    (if decide (0 < a)%nat
     then c ← lessAt less data3 (a - 1) pivot2; Some (negb c)
     else Some false) = Some dup
    /\ (dup = true ->
        exists z p, data3 !! (a - 1)%nat = Some z /\ data3 !! pivot2 = Some p
          /\ less z p = false /\ segAll (fun x => less x z = false) a b data3))
    as (dup & -> & Hdup).
  { case_decide as Ha; cycle 1.
    { exists false. split; [done|]. done. }
    destruct (lessAt_Some less data3 (a - 1) pivot2) as (z & p & Hz & Hp & ->); [lia..|].
    simpl. exists (negb (less z p)). split; [done|]. intros Hneg.
    exists z, p. split; [done|]. split; [done|]. split; [by destruct (less z p)|].
    destruct Hlow3 as [->|(z' & Hz' & Hall)]; [lia|].
    assert (z' = z) as -> by congruence. done. }
  simpl. destruct dup.
  - destruct Hdup as (z & p & Hz & Hp & Hzp & Hzall); [done|].
    destruct (partitionEqual_spec less data3 a b pivot2)
      as (data4 & mid & p' & -> & Hsw4 & Hmid & Hp' & Hlo & Hhi);
      [apply (swo_irrefl less Hswo)|done|lia|].
    assert (p' = p) as -> by congruence.
    simpl.
    assert (length data4 = length data) as Hlen4 by (erewrite swaps_length by done; done).
    assert (segAll (fun x => less x z = false) a b data4) as Hzall4.
    { eapply swaps_segAll; [exact Hsw4|..|exact Hzall]; lia. }
    destruct (IH data4 mid b limit1 wasBalanced wasPartitioned)
      as (data' & -> & Hsw & Hsorted); [lia|lia| |].
    { right. destruct (lookup_lt_is_Some_2 data4 (mid - 1)) as [z' Hz']; [lia|].
      exists z'. split; [done|].
      assert (less p z' = false) as Hpz' by (apply (Hlo (mid - 1)%nat z'); [lia|done]).
      intros k x Hk Hx.
      assert (less p x = true) as Hpx by (apply (Hhi k x); [lia|done]).
      destruct (less x z') eqn:Hxz'; [|done].
      pose proof (swo_trans less Hswo p x z' Hpx Hxz'). congruence. }
    exists data'. split; [done|]. split.
    { eapply swaps_trans; [exact Hsw13|]. eapply swaps_trans; [exact Hsw4|].
      eapply swaps_mono; [| |exact Hsw]; lia. }
    apply (sortedSeg_after_equal a b mid p z); auto; [lia| | |].
    + eapply swaps_segAll; [exact Hsw|..|exact Hzall4]; lia.
    + intros k x Hk Hx. rewrite (swaps_outside _ _ _ _ _ Hsw) in Hx by lia.
      by apply (Hlo k x).
    + eapply swaps_segAll; [exact Hsw|..|exact Hhi]; lia.
  - clear Hdup.
    destruct (partition_spec less data3 a b pivot2)
      as (data4 & mid & already & p & -> & Hsw4 & Hmid & Hp & Hp4 & Hlo & Hhi); [done|lia|].
    simpl.
    assert (length data4 = length data) as Hlen4 by (erewrite swaps_length by done; done).
    assert (swaps a b data data4) as Hsw14 by (eapply swaps_trans; eauto).
    assert (lowerBounded less a mid data4) as Hlowl.
    { apply (lowerBounded_mono_r less a b); [lia|].
      eapply swaps_lowerBounded; [exact Hsw14|..|exact Hlow]; lia. }
    assert (lowerBounded less (mid + 1) b data4) as Hlowr.
    { right. exists p. split; [by replace (mid + 1 - 1)%nat with mid by lia|].
      eapply segAll_mono; [| |exact Hhi]; lia. }
    (* both sides sorted, in either order *)
    assert (forall data6, swaps a mid data4 data6 \/ True ->
      swaps a b data4 data6 -> data6 !! mid = Some p ->
      segAll (fun x => less x p = true) a mid data6 ->
      segAll (fun x => less x p = false) (S mid) b data6 ->
      sortedSeg less a mid data6 -> sortedSeg less (mid + 1) b data6 ->
      exists data', Some data6 = Some data'
        /\ swaps a b data data' /\ sortedSeg less a b data') as Hfinish.
    { intros data6 _ Hsw6 Hp6 Hlo6 Hhi6 Hsl Hsr. exists data6. split; [done|]. split.
      - eapply swaps_trans; eauto.
      - apply (sortedSeg_around_pivot a b mid p); auto.
        by replace (S mid) with (mid + 1)%nat by lia. }
    case_decide as Hside.
    + destruct (IH data4 a mid limit1 true true) as (data5 & -> & Hsw5 & Hs5); [lia|lia|done|].
      simpl.
      destruct (IH data5 (mid + 1)%nat b limit1
                  (bool_decide ((b - a) / 8 <= mid - a)%nat) already)
        as (data6 & -> & Hsw6 & Hs6); [lia| | |].
      { erewrite swaps_length by done. lia. }
      { eapply lowerBounded_frame; [exact Hsw5| | |exact Hlowr]; lia. }
      apply Hfinish; auto.
      * eapply swaps_trans; [eapply swaps_mono; [| |exact Hsw5]|eapply swaps_mono; [| |exact Hsw6]]; lia.
      * rewrite (swaps_outside _ _ _ _ _ Hsw6) by lia.
        rewrite (swaps_outside _ _ _ _ _ Hsw5) by lia. done.
      * intros k x Hk Hx. rewrite (swaps_outside _ _ _ _ _ Hsw6) in Hx by lia.
        revert k x Hk Hx. eapply swaps_segAll; [exact Hsw5|..|exact Hlo]; lia.
      * eapply swaps_segAll; [exact Hsw6|..]; [lia|lia|].
        intros k x Hk Hx. rewrite (swaps_outside _ _ _ _ _ Hsw5) in Hx by lia.
        by apply (Hhi k x).
      * eapply swaps_sortedSeg; [exact Hsw6| |exact Hs5]. lia.
    + destruct (IH data4 (mid + 1)%nat b limit1 true true) as (data5 & -> & Hsw5 & Hs5);
        [lia|lia|done|].
      simpl.
      destruct (IH data5 a mid limit1
                  (bool_decide ((b - a) / 8 <= b - mid)%nat) already)
        as (data6 & -> & Hsw6 & Hs6); [lia| | |].
      { erewrite swaps_length by done. lia. }
      { eapply lowerBounded_frame; [exact Hsw5| | |exact Hlowl]; lia. }
      apply Hfinish; auto.
      * eapply swaps_trans; [eapply swaps_mono; [| |exact Hsw5]|eapply swaps_mono; [| |exact Hsw6]]; lia.
      * rewrite (swaps_outside _ _ _ _ _ Hsw6) by lia.
        rewrite (swaps_outside _ _ _ _ _ Hsw5) by lia. done.
      * eapply swaps_segAll; [exact Hsw6|..]; [lia|lia|].
        intros k x Hk Hx. rewrite (swaps_outside _ _ _ _ _ Hsw5) in Hx by lia.
        by apply (Hlo k x).
      * intros k x Hk Hx. rewrite (swaps_outside _ _ _ _ _ Hsw6) in Hx by lia.
        revert k x Hk Hx. eapply swaps_segAll; [exact Hsw5|..|exact Hhi]; lia.
      * eapply swaps_sortedSeg; [exact Hsw6| |exact Hs5]. lia.
Qed.

Theorem SortFunc_spec (x : list E) :
  exists x', SortFunc less x = Some x'
    /\ x' ≡ₚ x /\ sortedSeg less 0 (length x') x'.
Proof.
  unfold SortFunc.
  destruct (pdqsort_spec (S (length x)) x 0 (length x) (bitsLen (length x)) true true)
    as (x' & -> & Hsw & Hsorted); [lia|lia|by left|].
  exists x'. split; [done|]. split; [by eapply swaps_Permutation|].
  by erewrite swaps_length by done.
Qed.

End pdq.

(** *** Stability of the insertion sort *)

Section stability.

Context {E : Type} (less : E -> E -> bool) (Hswo : StrictWeakOrder less).

Implicit Types data : list E.

Lemma swap_adjacent data j x y data' :
  data !! j = Some y -> data !! S j = Some x -> swap data (S j) j = Some data' ->
  exists l1 l2, data = l1 ++ y :: x :: l2 /\ data' = l1 ++ x :: y :: l2.
Proof.
  intros Hy Hx Hswap.
  exists (take j data), (drop (S (S j)) data).
  assert (data = take j data ++ y :: x :: drop (S (S j)) data) as Hsplit.
  { rewrite <- (drop_S _ _ _ Hx), <- (drop_S _ _ _ Hy). by rewrite take_drop. }
  split; [done|].
  apply swap_inv in Hswap as (x' & y' & Hx' & Hy' & ->).
  assert (x' = x) as -> by congruence. assert (y' = y) as -> by congruence.
  pose proof (lookup_lt_Some _ _ _ Hy) as Hlen.
  assert (length (take j data) = j) as Hl1 by (rewrite length_take; lia).
  rewrite Hsplit at 1.
  rewrite insert_app_r_alt by lia. rewrite Hl1.
  replace (S j - j)%nat with 1%nat by lia. simpl.
  rewrite insert_app_r_alt by lia. rewrite Hl1.
  replace (j - j)%nat with 0%nat by lia. done.
Qed.

Lemma stable_refl data : stable less data data.
Proof. done. Qed.

Lemma stable_trans data1 data2 data3 :
  stable less data1 data2 -> stable less data2 data3 -> stable less data1 data3.
Proof. intros H1 H2 z. by rewrite H2, H1. Qed.

Lemma stable_exchange l1 l2 x y :
  less x y = true -> stable less (l1 ++ y :: x :: l2) (l1 ++ x :: y :: l2).
Proof.
  intros Hxy z. rewrite !List.filter_app. f_equal. simpl.
  destruct (equivalent less z x) eqn:Hzx, (equivalent less z y) eqn:Hzy; try done.
  exfalso. unfold equivalent in *.
  apply andb_prop in Hzx as [Hzx Hxz]. apply andb_prop in Hzy as [Hzy Hyz].
  apply negb_true_iff in Hzx, Hxz, Hzy, Hyz.
  pose proof (less_le_trans less Hswo x y z Hxy Hzy). congruence.
Qed.

Lemma insertDown_stable a j data data' :
  insertDown less data a j = Some data' -> stable less data data'.
Proof.
  revert data. induction j as [|j' IH]; intros data; simpl; [by intros [= <-]|].
  case_decide; [|by intros [= <-]].
  unfold lessAt.
  destruct (data !! S j') as [x|] eqn:Hx; [|done].
  destruct (data !! j') as [y|] eqn:Hy; [|done]. simpl.
  destruct (less x y) eqn:Hxy; [|by intros [= <-]].
  destruct (swap data (S j') j') as [data1|] eqn:Hswap; [|done]. simpl.
  intros Hrec. eapply stable_trans; [|by apply IH].
  destruct (swap_adjacent data j' x y data1) as (l1 & l2 & -> & ->); auto.
  by apply stable_exchange.
Qed.

Lemma insertionLoop_stable n data a i data' :
  insertionLoop less n data a i = Some data' -> stable less data data'.
Proof.
  revert data i. induction n as [|n IH]; intros data i; simpl; [by intros [= <-]|].
  destruct (insertDown less data a i) as [data1|] eqn:Hins; [|done]. simpl.
  intros Hrec. eapply stable_trans; [by eapply insertDown_stable|by eapply IH].
Qed.

Lemma insertionSort_stable data a b data' :
  insertionSort less data a b = Some data' -> stable less data data'.
Proof. apply insertionLoop_stable. Qed.

(** Up to twelve elements [SortFunc] is the insertion sort. *)
Lemma SortFunc_short (x : list E) :
  (length x <= 12)%nat -> SortFunc less x = insertionSort less x 0 (length x).
Proof.
  intros Hlen. unfold SortFunc. simpl. rewrite Nat.sub_0_r. by case_decide.
Qed.

Lemma SortFunc_stable (x x' : list E) :
  (length x <= 12)%nat -> SortFunc less x = Some x' -> stable less x x'.
Proof. intros Hlen. rewrite SortFunc_short by done. apply insertionSort_stable. Qed.

End stability.

(** *** The contract of [SortFunc] *)
Section sorted_list.

Context {E : Type} (less : E -> E -> bool).

Lemma sortedSeg_StronglySorted (l : list E) :
  sortedSeg less 0 (length l) l ->
  StronglySorted (fun x y => less y x = false) l.
Proof.
  induction l as [|x l IH]; intros Hsorted; constructor.
  - apply IH. intros i j a b Hi Hij Hj Ha Hb.
    apply (Hsorted (S i) (S j) a b); simpl; auto; lia.
  - apply Forall_lookup. intros k y Hk.
    apply (Hsorted 0%nat (S k) x y); simpl; auto; try lia.
    apply lookup_lt_Some in Hk. lia.
Qed.

(** X1: for a strict weak ordering, [slices.SortFunc] returns, and what it
    returns holds the elements of the slice in ascending order. *)
Theorem SortFunc_sorts (x : list E) :
  StrictWeakOrder less ->
  exists x', SortFunc less x = Some x'
    /\ Permutation x' x
    /\ StronglySorted (fun a b => less b a = false) x'.
Proof.
  intros Hswo. destruct (SortFunc_spec less Hswo x) as (x' & Hsort & Hperm & Hsorted).
  exists x'. split; [done|]. split; [done|]. by apply sortedSeg_StronglySorted.
Qed.

End sorted_list.

(** ** Formatting *)
Section formatting.

Context `{Util}.

Import resource cmd.

Lemma string_of_uint_head (d : Decimal.uint) :
  exists c s, NilZero.string_of_uint d = String c s /\ c <> "-"%char.
Proof. destruct d; simpl; eexists _, _; split; try reflexivity; discriminate. Qed.

(** The decimal text of an integer, whatever follows it, is never a lone
    dash: it holds at least one digit. *)
Lemma FormatInt_not_dash (i : Z) (suffix : string) : FormatInt i +:+ suffix <> "-".
Proof.
  unfold FormatInt.
  destruct (Z.to_int i) as [d|d]; simpl;
    destruct (string_of_uint_head d) as (c & s & -> & Hc); simpl.
  - intros [=]. congruence.
  - discriminate.
Qed.

Lemma FormatInt_not_dash' (i : Z) : FormatInt i <> "-".
Proof.
  intros Heq. apply (FormatInt_not_dash i "").
  rewrite <- Heq. clear Heq.
  induction (FormatInt i) as [|a s IH]; [reflexivity|].
  change (String a (s +:+ "") = String a s). by rewrite IH.
Qed.

Lemma MilliString_not_dash (i : Z) : MilliString i <> "-".
Proof.
  unfold MilliString. destruct (i =? 0); [discriminate|].
  destruct (removeFactors 8 i (-3)) as [m e]. apply FormatInt_not_dash.
Qed.

Lemma toUnit_not_dash (o : FreeOptions) (i : Z) : toUnit o i <> "-".
Proof.
  unfold toUnit.
  destruct (if binPrefix o then _ else _) as [unitbytes unitstr].
  apply FormatInt_not_dash.
Qed.

Lemma toUnitOrDash_dash_iff (o : FreeOptions) (i : Z) :
  toUnitOrDash o i = "-" <-> i = 0.
Proof.
  unfold toUnitOrDash. destruct (Z.eqb_spec i 0) as [->|Hi]; [done|].
  pose proof (toUnit_not_dash o i). split; intros; congruence.
Qed.

Lemma toMilliUnitOrDash_dash_iff (o : FreeOptions) (i : Z) :
  toMilliUnitOrDash o i = "-" <-> i = 0.
Proof.
  unfold toMilliUnitOrDash. destruct (Z.eqb_spec i 0) as [->|Hi]; [done|].
  pose proof (FormatInt_not_dash' i). pose proof (MilliString_not_dash i).
  destruct (withoutUnit o); split; intros; congruence.
Qed.

(** C9: [toUnitOrDash] and [toMilliUnitOrDash] return "-" exactly when the
    amount is 0; for every other amount they return the formatted quantity
    ([toUnit], and the raw number or the milli quantity's text), which is
    never "-". *)
Theorem formatOrDash_dash_iff_zero (o : FreeOptions) (i : Z) :
  (toUnitOrDash o i = "-" <-> i = 0)
  /\ (toMilliUnitOrDash o i = "-" <-> i = 0)
  /\ (i <> 0 ->
      toUnitOrDash o i = toUnit o i
      /\ toMilliUnitOrDash o i = (if withoutUnit o then FormatInt i else MilliString i)
      /\ toUnitOrDash o i <> "-" /\ toMilliUnitOrDash o i <> "-").
Proof.
  split; [apply toUnitOrDash_dash_iff|]. split; [apply toMilliUnitOrDash_dash_iff|].
  intros Hi. unfold toUnitOrDash, toMilliUnitOrDash.
  destruct (Z.eqb_spec i 0) as [->|_]; [done|].
  pose proof (toUnit_not_dash o i). pose proof (FormatInt_not_dash' i).
  pose proof (MilliString_not_dash i).
  repeat split; try done. by destruct (withoutUnit o).
Qed.

(** ** Severity bands *)

(** C8: with [warnThreshold <= critThreshold], the band of a percentage is
    OK (green) exactly below the warn threshold, WARN (yellow) exactly from
    the warn threshold up to below the crit threshold, CRIT (red) exactly
    from the crit threshold on; [toColorPercent] paints the percentage text
    in the colour of that band, and with [nocolor] returns the bare text. *)
Theorem toColorPercent_bands (o : FreeOptions) (i : Z) :
  warnThreshold o <= critThreshold o ->
  (classify o i = OK <-> i < warnThreshold o)
  /\ (classify o i = WARN <-> warnThreshold o <= i < critThreshold o)
  /\ (classify o i = CRIT <-> critThreshold o <= i)
  /\ toColorPercent o i =
       (if nocolor o then FormatInt i +:+ "%"
        else match classify o i with
             | OK => Green (FormatInt i +:+ "%")
             | WARN => Yellow (FormatInt i +:+ "%")
             | CRIT => Red (FormatInt i +:+ "%")
             end).
Proof.
  intros Hwc. unfold toColorPercent, paint, classify.
  destruct (Z.ltb_spec i (warnThreshold o)), (Z.ltb_spec i (critThreshold o));
    repeat split; intros; try discriminate; try lia; auto.
Qed.

End formatting.

Lemma bands_at_default_thresholds :
  (cmd.classify cmd.NewFreeOptions 75 = cmd.OK <-> 75 < 60)
  /\ (cmd.classify cmd.NewFreeOptions 75 = cmd.WARN <-> 60 <= 75 < 90)
  /\ (cmd.classify cmd.NewFreeOptions 75 = cmd.CRIT <-> 90 <= 75)
  /\ @cmd.toColorPercent example.util cmd.NewFreeOptions 75 = example.esc "33" "75%".
Proof.
  apply (toColorPercent_bands (H := example.util) cmd.NewFreeOptions 75).
  simpl. lia.
Defined.

(** ** The node rollup *)
Section rollup_facts.

Import rollup.

(** C7: a percentage over a positive capacity is [floor(100 * x / capacity)],
    and lies in [0, 100] when [0 <= x <= capacity]; when the capacity of a
    dimension is 0 every percentage of that dimension is absent, whatever
    the usage, and the sums and the usage are reported all the same. *)
Theorem rollup_percentages (node : Capacity) (usage : option UsageSample)
    (pods : list (ResourceSpec * option UsageSample)) (x capacity : Z) :
  let r := rollup node usage pods in
  (0 < capacity ->
     Percentage x capacity = Some (100 * x / capacity)
     /\ 100 * x / capacity * capacity <= 100 * x < (100 * x / capacity + 1) * capacity
     /\ (0 <= x <= capacity -> 0 <= 100 * x / capacity <= 100))
  /\ (allocatableCPU node = 0 ->
        cpuUseP r = None /\ cpuReqP r = None /\ cpuLimP r = None)
  /\ (allocatableMemory node = 0 ->
        memUseP r = None /\ memReqP r = None /\ memLimP r = None)
  /\ (0 < allocatableCPU node ->
        cpuUseP r = (fun u => 100 * usageCPU u / allocatableCPU node) <$> usage
        /\ cpuReqP r = Some (100 * cpuReq r / allocatableCPU node)
        /\ cpuLimP r = Some (100 * cpuLim r / allocatableCPU node))
  /\ (0 < allocatableMemory node ->
        memUseP r = (fun u => 100 * usageMemory u / allocatableMemory node) <$> usage
        /\ memReqP r = Some (100 * memReq r / allocatableMemory node)
        /\ memLimP r = Some (100 * memLim r / allocatableMemory node))
  /\ cpuUse r = usageCPU <$> usage
  /\ memUse r = usageMemory <$> usage
  /\ cpuReq r = sum ((requestCPU ∘ fst) <$> pods)
  /\ cpuLim r = sum ((limitCPU ∘ fst) <$> pods)
  /\ memReq r = sum ((requestMemory ∘ fst) <$> pods)
  /\ memLim r = sum ((limitMemory ∘ fst) <$> pods)
  /\ cpuAlloc r = allocatableCPU node
  /\ memAlloc r = allocatableMemory node.
Proof.
  intros r. subst r. unfold rollup, Percentage. simpl.
  rewrite <- !list_fmap_compose.
  split; [|split; [|split; [|split; [|split]]]].
  - intros Hc. destruct (Z.ltb_spec 0 capacity); [|lia].
    split; [reflexivity|]. split.
    + pose proof (Z.mul_div_le (100 * x) capacity Hc).
      pose proof (Z.mul_succ_div_gt (100 * x) capacity Hc). lia.
    + intros Hx. split.
      * apply Z.div_pos; lia.
      * apply Z.div_le_upper_bound; lia.
  - intros ->. destruct usage; simpl; auto.
  - intros ->. destruct usage; simpl; auto.
  - intros Hc. destruct (Z.ltb_spec 0 (allocatableCPU node)); [|lia].
    destruct usage; simpl; auto.
  - intros Hc. destruct (Z.ltb_spec 0 (allocatableMemory node)); [|lia].
    destruct usage; simpl; auto.
  - repeat split; reflexivity.
Qed.

End rollup_facts.

(** The node of the README's first table row: 3600m and 5943857K
    allocatable, one container asking 704m/807403K with limits
    304m/375390K, usage 58m/2144333K. *)
Lemma rollup_of_readme_node :
  let node := rollup.mkCapacity 3600 5943857 in
  let usage := Some (rollup.mkUsageSample 58 2144333) in
  let pods := [(rollup.mkResourceSpec 704 304 807403 375390, None)] in
  let r := rollup.rollup node usage pods in
  (rollup.cpuUseP r, rollup.cpuReqP r, rollup.cpuLimP r) = (Some 1, Some 19, Some 8)
  /\ (rollup.memUseP r, rollup.memReqP r, rollup.memLimP r) = (Some 36, Some 13, Some 6)
  /\ 0 <= 100 * 58 / 3600 <= 100.
Proof.
  pose proof (rollup_percentages (rollup.mkCapacity 3600 5943857)
                (Some (rollup.mkUsageSample 58 2144333))
                [(rollup.mkResourceSpec 704 304 807403 375390, None)] 58 3600)
    as (Hp & _ & _ & Hcpu & Hmem & _).
  destruct (Hp ltac:(lia)) as (_ & _ & Hrange).
  destruct (Hcpu ltac:(simpl; lia)) as (Hu & Hr & Hl).
  destruct (Hmem ltac:(simpl; lia)) as (Hu' & Hr' & Hl').
  cbv zeta. rewrite Hu, Hr, Hl, Hu', Hr', Hl'.
  split; [reflexivity|]. split; [reflexivity|]. apply Hrange. lia.
Defined.

(** ** Container rows *)
Section rows.

Context `{Util}.

Import resource cmd.

(** The container loop appends, in order, the rows of the containers it
    does not skip. *)
Lemma containerLoop_omap (o : FreeOptions) (podMetrics : option PodMetricsList)
    (nodeName podNamespace podName podAge podIP podStatus : string)
    (containers : list Container) (nodePods : list podInfo) :
  containerLoop o podMetrics nodeName podNamespace podName podAge podIP podStatus
    containers nodePods
  = nodePods ++ omap (containerRow o podMetrics nodeName podNamespace podName
                        podAge podIP podStatus) containers.
Proof.
  revert nodePods. induction containers as [|c cs IH]; intros nodePods; simpl.
  - by rewrite app_nil_r.
  - rewrite IH. destruct (containerRow _ _ _ _ _ _ _ _ c); [|done].
    by rewrite <- app_assoc.
Qed.


(** C4, as the code has it: with metrics on, a usage sample that is
    present puts a use cell in the row, right after the identifying cells
    for CPU and after the CPU cells for memory; the cell is
    [toMilliUnitOrDash] of the sample's milli value (for memory
    [toUnitOrDash] of its value), so it is a dash exactly when that value
    is 0 and the formatted value otherwise. *)
Theorem use_cell_of_present_sample (o : FreeOptions) (metrics : PodMetricsList)
    (nodeName podNamespace podName podAge podIP podStatus : string)
    (container : Container) (row : podInfo)
    (cpuUsed memoryUsed : option Quantity) :
  noMetrics o = false ->
  GetContainerMetrics metrics podName (Container_Name container)
    = (cpuUsed, memoryUsed) ->
  containerRow o (Some metrics) nodeName podNamespace podName podAge podIP
    podStatus container = Some row ->
  let base := if compactView o then 5%nat else 7%nat in
  let afterCPU :=
    (base + match cpuUsed with Some _ => 1 | None => 0 end
     + (if compactView o then 0 else 2))%nat in
  (forall q, cpuUsed = Some q ->
     podInfoToRow o row !! base = Some (toMilliUnitOrDash o (MilliValue q))
     /\ (toMilliUnitOrDash o (MilliValue q) = "-" <-> MilliValue q = 0))
  /\ (forall q, memoryUsed = Some q ->
        podInfoToRow o row !! afterCPU = Some (toUnitOrDash o (Value q))
        /\ (toUnitOrDash o (Value q) = "-" <-> Value q = 0)).
Proof.
  intros Hm Hget Hrow base afterCPU. subst base afterCPU.
  unfold containerRow in Hrow. rewrite Hm, Hget in Hrow. simpl in Hrow.
  destruct (negb (listAll o) && _); [discriminate|].
  injection Hrow as <-.
  unfold podInfoToRow. rewrite Hm. simpl.
  split; intros q Hq; (split; [|by auto using toMilliUnitOrDash_dash_iff, toUnitOrDash_dash_iff]);
    destruct (compactView o), cpuUsed, memoryUsed, (listContainerImage o);
    simplify_eq; reflexivity.
Qed.

End rows.

Section row_examples.

#[local] Existing Instance example.util.

(** The web container with the busy snapshot: 20m and 30M in the use cells. *)
Lemma use_cells_of_busy_web :
  let row := {|
      cmd.nodeName := "node1"; cmd.podNamespace := "default";
      cmd.podName := "frontend"; cmd.podAge := "<unknown>";
      cmd.podIP := "10.0.0.7"; cmd.podStatus := "Running";
      cmd.containerName := "web";
      cmd.containerCPUUsed :=
        Some (cmd.mkFormattedResource (resource.NewMilliQuantity 20) "20m");
      cmd.containerCPURequested := "250m"; cmd.containerCPULimit := "500m";
      cmd.containerMemoryUsed :=
        Some (cmd.mkFormattedResource (resource.NewQuantity 30000000) "30M");
      cmd.containerMemoryRequested := "64M"; cmd.containerMemoryLimit := "128M";
      cmd.containerImage := "" |} in
    (forall q, Some (resource.NewMilliQuantity 20) = Some q ->
       cmd.podInfoToRow example.compactList row !! 5%nat
         = Some (cmd.toMilliUnitOrDash example.compactList (resource.MilliValue q))
       /\ (cmd.toMilliUnitOrDash example.compactList (resource.MilliValue q) = "-"
           <-> resource.MilliValue q = 0))
    /\ (forall q, Some (resource.NewQuantity 30000000) = Some q ->
          cmd.podInfoToRow example.compactList row !! 6%nat
            = Some (cmd.toUnitOrDash example.compactList (resource.Value q))
          /\ (cmd.toUnitOrDash example.compactList (resource.Value q) = "-"
              <-> resource.Value q = 0)).
Proof.
  apply (use_cell_of_present_sample (H := example.util) example.compactList
           example.busy "node1" "default" "frontend" "<unknown>" "10.0.0.7"
           "Running" example.web _
           (Some (resource.NewMilliQuantity 20)) (Some (resource.NewQuantity 30000000)));
    reflexivity.
Defined.

(** C4 as stated fails: a sample that is present and measures exactly 0
    renders as a dash in both use cells, and a sample that is absent puts
    no cell in the row at all. *)
Lemma zero_sample_is_a_dash_and_no_sample_no_cell :
  cmd.podInfoToRow example.compactList
    <$> cmd.containerRow example.compactList (Some example.idle) "node1" "default"
          "frontend" "<unknown>" "10.0.0.7" "Running" example.web
  = Some ["node1"; "default"; "frontend"; "Running"; "web"; "-"; "-"]
  /\ cmd.podInfoToRow example.compactList
       <$> cmd.containerRow example.compactList (Some example.unknown) "node1"
             "default" "frontend" "<unknown>" "10.0.0.7" "Running" example.web
     = Some ["node1"; "default"; "frontend"; "Running"; "web"].
Proof. split; reflexivity. Qed.

(** C5 fails on the code: in the full view the last cell of a row, under
    the header MEM/lim, repeats the CPU limit; the memory limit kept in the
    row is not rendered. *)
Lemma MEM_lim_cell_holds_CPU_limit :
  exists row,
    cmd.containerRow example.fullList (Some example.busy) "node1" "default"
      "frontend" "<unknown>" "10.0.0.7" "Running" example.web = Some row
    /\ cmd.prepareListTableHeader example.fullList !! 12%nat = Some "MEM/lim"
    /\ cmd.podInfoToRow example.fullList row !! 12%nat = Some "500m"
    /\ cmd.containerCPULimit row = "500m"
    /\ cmd.containerMemoryLimit row = "128M"
    /\ cmd.podInfoToRow example.fullList row
       = ["node1"; "default"; "frontend"; "<unknown>"; "10.0.0.7"; "Running"; "web";
          "20m"; "250m"; "500m"; "30M"; "64M"; "500m"].
Proof. eexists. split; [reflexivity|]. repeat split. Qed.

(** C3 fails on the code for the node listing: when [util.GetNodes] fails,
    [Run] returns nil, so the command ends with status 0, shows nothing and
    drops the error; a failure of [util.GetPods] in list mode is returned. *)
Lemma Run_drops_node_listing_error
    (showFree : cmd.FreeOptions -> cmd.Cluster -> list cmd.Node ->
                table.OutputTable -> option cmd.outcome)
    (o : cmd.FreeOptions) (args : list string) (t : table.OutputTable) :
  cmd.Run showFree o example.nodesUnreachable args t
    = Some (cmd.mkOutcome t [] None)
  /\ cmd.exitStatus (cmd.mkOutcome t [] None) = 0
  /\ cmd.output
       <$> cmd.Run showFree example.compactList example.podsUnreachable args t = Some []
  /\ cmd.err
       <$> cmd.Run showFree example.compactList example.podsUnreachable args t
     = Some (Some "pods is forbidden").
Proof. repeat split. Qed.

End row_examples.

(** ** Sorting the rows of a node *)
Section entries.

Import resource cmd.

(** The comparison by a usage sample, absent samples below present ones,
    is a strict weak ordering. *)
Lemma compare_mul_r (n m p : Z) : 0 < p -> (n * p ?= m * p) = (n ?= m).
Proof.
  intros Hp. destruct (Z.compare_spec n m) as [->|Hlt|Hgt].
  - apply Z.compare_refl.
  - apply Z.compare_lt_iff. nia.
  - apply Z.compare_gt_iff. nia.
Qed.

Lemma Dec_Cmp_at (x y : Dec) (L : Z) :
  Scale x <= L -> Scale y <= L ->
  Dec_Cmp x y
  = match UnscaledBig x * 10 ^ (L - Scale x) ?= UnscaledBig y * 10 ^ (L - Scale y) with
    | Lt => -1
    | Eq => 0
    | Gt => 1
    end.
Proof.
  intros Hx Hy. unfold Dec_Cmp, upscale.
  destruct (Z.eqb_spec (Scale x) (Scale y)) as [Heq|Hne].
  { rewrite Heq. rewrite compare_mul_r by (apply Z.pow_pos_nonneg; lia). done. }
  destruct (Z.ltb_spec (Scale y) (Scale x)) as [Hlt|Hge]; simpl.
  - replace (L - Scale y) with ((Scale x - Scale y) + (L - Scale x)) by lia.
    rewrite Z.pow_add_r, Z.mul_assoc by lia.
    rewrite compare_mul_r by (apply Z.pow_pos_nonneg; lia). done.
  - replace (L - Scale x) with ((Scale y - Scale x) + (L - Scale y)) by lia.
    rewrite Z.pow_add_r, Z.mul_assoc by lia.
    rewrite compare_mul_r by (apply Z.pow_pos_nonneg; lia). done.
Qed.

(** [q.Cmp(y) < 0] compares the two amounts at any scale that is fine
    enough for both. *)
Lemma Cmp_neg (q y : Quantity) (L : Z) :
  Scale (AsDec q) <= L -> Scale (AsDec y) <= L ->
  (Cmp q y <? 0)
  = (UnscaledBig (AsDec q) * 10 ^ (L - Scale (AsDec q))
     <? UnscaledBig (AsDec y) * 10 ^ (L - Scale (AsDec y))).
Proof.
  intros Hq Hy. unfold Cmp. rewrite (Dec_Cmp_at _ _ L) by done.
  destruct (Z.compare_spec (UnscaledBig (AsDec q) * 10 ^ (L - Scale (AsDec q)))
              (UnscaledBig (AsDec y) * 10 ^ (L - Scale (AsDec y)))),
    (Z.ltb_spec (UnscaledBig (AsDec q) * 10 ^ (L - Scale (AsDec q)))
       (UnscaledBig (AsDec y) * 10 ^ (L - Scale (AsDec y))));
    simpl; try reflexivity; lia.
Qed.

Lemma Cmp_neg_irrefl (q : Quantity) : (Cmp q q <? 0) = false.
Proof. rewrite (Cmp_neg q q (Scale (AsDec q))) by lia. apply Z.ltb_irrefl. Qed.

Lemma Cmp_neg_trans (x y z : Quantity) :
  (Cmp x y <? 0) = true -> (Cmp y z <? 0) = true -> (Cmp x z <? 0) = true.
Proof.
  set (L := Z.max (Scale (AsDec x)) (Z.max (Scale (AsDec y)) (Scale (AsDec z)))).
  rewrite (Cmp_neg x y L), (Cmp_neg y z L), (Cmp_neg x z L) by lia.
  rewrite !Z.ltb_lt. lia.
Qed.

Lemma Cmp_neg_negtrans (x y z : Quantity) :
  (Cmp y x <? 0) = false -> (Cmp z y <? 0) = false -> (Cmp z x <? 0) = false.
Proof.
  set (L := Z.max (Scale (AsDec x)) (Z.max (Scale (AsDec y)) (Scale (AsDec z)))).
  rewrite (Cmp_neg y x L), (Cmp_neg z y L), (Cmp_neg z x L) by lia.
  rewrite !Z.ltb_ge. lia.
Qed.

Ltac swo_by_cases used :=
  repeat match goal with
         | |- context [used ?a] => destruct (used a)
         end;
  simpl; try done; eauto using Cmp_neg_trans, Cmp_neg_negtrans.

Lemma lessMemory_swo : StrictWeakOrder lessMemory.
Proof.
  split; unfold lessMemory.
  - intros x. destruct (containerMemoryUsed x); [|done]. apply Cmp_neg_irrefl.
  - intros x y z. swo_by_cases containerMemoryUsed.
  - intros x y z. swo_by_cases containerMemoryUsed.
Qed.

Lemma lessCPU_swo : StrictWeakOrder lessCPU.
Proof.
  split; unfold lessCPU.
  - intros x. destruct (containerCPUUsed x); [|done]. apply Cmp_neg_irrefl.
  - intros x y z. swo_by_cases containerCPUUsed.
  - intros x y z. swo_by_cases containerCPUUsed.
Qed.

Lemma sortEntries_memory (o : FreeOptions) (items : list podInfo) :
  sortByResource o = memorySortResource ->
  sortEntries o items = SortFunc lessMemory items.
Proof. intros Hby. unfold sortEntries. by rewrite Hby. Qed.

Lemma sortEntries_cpu (o : FreeOptions) (items : list podInfo) :
  sortByResource o = cpuSortResource ->
  sortEntries o items = SortFunc lessCPU items.
Proof. intros Hby. unfold sortEntries. by rewrite Hby. Qed.

(** Whatever the sort dimension, [sortEntries] returns the rows it was
    given, in some order. *)
Lemma sortEntries_Permutation (o : FreeOptions) (items : list podInfo) :
  exists out, sortEntries o items = Some out /\ out ≡ₚ items.
Proof.
  unfold sortEntries.
  destruct (String.eqb (sortByResource o) memorySortResource).
  { destruct (SortFunc_spec lessMemory lessMemory_swo items) as (out & -> & Hp & _). eauto. }
  destruct (String.eqb (sortByResource o) cpuSortResource).
  { destruct (SortFunc_spec lessCPU lessCPU_swo items) as (out & -> & Hp & _). eauto. }
  eauto.
Qed.

(** A row without a sample, for the equivalence class of such rows. *)
Lemma absent_class (used : podInfo -> option formattedResource)
    (less : podInfo -> podInfo -> bool) (z : podInfo) :
  (forall a b, less a b =
     match used a, used b with
     | None, None => false
     | Some _, None => false
     | None, Some _ => true
     | Some x, Some y => Cmp (Quantity_ x) (Quantity_ y) <? 0
     end) ->
  used z = None ->
  forall r, equivalent less z r = match used r with None => true | Some _ => false end.
Proof.
  intros Hless Hz r. unfold equivalent. rewrite !Hless, Hz. by destruct (used r).
Qed.

Lemma absent_first_by (used : podInfo -> option formattedResource)
    (less : podInfo -> podInfo -> bool) (items out : list podInfo) :
  (forall a b, less a b =
     match used a, used b with
     | None, None => false
     | Some _, None => false
     | None, Some _ => true
     | Some x, Some y => Cmp (Quantity_ x) (Quantity_ y) <? 0
     end) ->
  (exists z, used z = None) ->
  StrictWeakOrder less ->
  SortFunc less items = Some out ->
  out ≡ₚ items
  /\ (forall i j x y, (i < j)%nat -> out !! i = Some x -> out !! j = Some y ->
        used y = None -> used x = None)
  /\ (forall a b, used a = None -> used b = None -> less a b = false /\ less b a = false)
  /\ (forall a b, used a = None -> is_Some (used b) -> less a b = true /\ less b a = false)
  /\ ((length items <= 12)%nat ->
      List.filter (fun r => match used r with None => true | Some _ => false end) out
      = List.filter (fun r => match used r with None => true | Some _ => false end) items).
Proof.
  intros Hless (z & Hz) Hswo Hsort.
  destruct (SortFunc_spec less Hswo items) as (out' & Hsort' & Hperm & Hsorted).
  assert (out' = out) as -> by congruence.
  split; [done|]. split; [|split; [|split]].
  - intros i j x y Hij Hx Hy Hy'.
    pose proof (Hsorted i j x y ltac:(lia) Hij (lookup_lt_Some _ _ _ Hy) Hx Hy) as Hyx.
    rewrite Hless, Hy' in Hyx. by destruct (used x).
  - intros a b Ha Hb. by rewrite !Hless, Ha, Hb.
  - intros a b Ha [v Hb]. by rewrite !Hless, Ha, Hb.
  - intros Hlen. pose proof (SortFunc_stable less Hswo items out Hlen Hsort z) as Hst.
    rewrite <- (List.filter_ext _ _ (absent_class used less z Hless Hz) out).
    rewrite <- (List.filter_ext _ _ (absent_class used less z Hless Hz) items).
    done.
Qed.

Lemma blank_row : exists z, containerMemoryUsed z = None /\ containerCPUUsed z = None.
Proof. by exists (mkPodInfo "" "" "" "" "" "" "" None "" "" None "" "" ""). Qed.

(** C1, as the code has it: sorted by a dimension, the rows without a
    usage sample for it come first, so that a row with a sample never
    appears before a row without one; the comparator treats
    missing-vs-missing as equal and missing-vs-present as less; and among at
    most twelve rows the rows without a sample keep their input order. *)
Theorem absent_rows_come_first (o : FreeOptions) (items : list podInfo) :
  sortByResource o = memorySortResource \/ sortByResource o = cpuSortResource ->
  let byMemory := String.eqb (sortByResource o) memorySortResource in
  let used := if byMemory then containerMemoryUsed else containerCPUUsed in
  let less := if byMemory then lessMemory else lessCPU in
  exists out, sortEntries o items = Some out
    /\ out ≡ₚ items
    /\ (forall i j x y, (i < j)%nat -> out !! i = Some x -> out !! j = Some y ->
          used y = None -> used x = None)
    /\ (forall a b, used a = None -> used b = None ->
          less a b = false /\ less b a = false)
    /\ (forall a b, used a = None -> is_Some (used b) ->
          less a b = true /\ less b a = false)
    /\ ((length items <= 12)%nat ->
        List.filter (fun r => match used r with None => true | Some _ => false end) out
        = List.filter (fun r => match used r with None => true | Some _ => false end) items).
Proof.
  destruct blank_row as (z & Hzm & Hzc).
  intros [Hby|Hby]; rewrite Hby; simpl.
  - rewrite (sortEntries_memory o items Hby).
    destruct (SortFunc_spec lessMemory lessMemory_swo items) as (out & Hsort & _).
    exists out. split; [done|].
    apply (absent_first_by containerMemoryUsed lessMemory items out);
      eauto using lessMemory_swo.
  - rewrite (sortEntries_cpu o items Hby).
    destruct (SortFunc_spec lessCPU lessCPU_swo items) as (out & Hsort & _).
    exists out. split; [done|].
    apply (absent_first_by containerCPUUsed lessCPU items out);
      eauto using lessCPU_swo.
Qed.

(** C2, as the code has it: the sort puts the rows in ascending order of
    the chosen dimension, and among at most twelve rows it is stable: the
    rows that the comparator treats as equal keep their input order. *)
Theorem sort_is_stable_up_to_twelve_rows (o : FreeOptions) (items : list podInfo) :
  sortByResource o = memorySortResource \/ sortByResource o = cpuSortResource ->
  let byMemory := String.eqb (sortByResource o) memorySortResource in
  let less := if byMemory then lessMemory else lessCPU in
  exists out, sortEntries o items = Some out
    /\ out ≡ₚ items
    /\ (forall i j x y, (i < j)%nat -> out !! i = Some x -> out !! j = Some y ->
          less y x = false)
    /\ ((length items <= 12)%nat ->
        forall z, List.filter (equivalent less z) out = List.filter (equivalent less z) items).
Proof.
  intros [Hby|Hby]; rewrite Hby; simpl.
  - rewrite (sortEntries_memory o items Hby).
    destruct (SortFunc_spec lessMemory lessMemory_swo items) as (out & Hsort & Hperm & Hsorted).
    exists out. split; [done|]. split; [done|]. split.
    + intros i j x y Hij Hx Hy.
      apply (Hsorted i j x y); auto; [lia|by eapply lookup_lt_Some].
    + intros Hlen. by apply (SortFunc_stable lessMemory lessMemory_swo).
  - rewrite (sortEntries_cpu o items Hby).
    destruct (SortFunc_spec lessCPU lessCPU_swo items) as (out & Hsort & Hperm & Hsorted).
    exists out. split; [done|]. split; [done|]. split.
    + intros i j x y Hij Hx Hy.
      apply (Hsorted i j x y); auto; [lia|by eapply lookup_lt_Some].
    + intros Hlen. by apply (SortFunc_stable lessCPU lessCPU_swo).
Qed.

End entries.

(** ** The rows of the nodes, one node after the other *)
Section grouping.

Context `{Util}.

Import resource cmd.

Lemma containerRow_nodeName (o : FreeOptions) (podMetrics : option PodMetricsList)
    (node podNamespace podName podAge podIP podStatus : string)
    (container : Container) (row : podInfo) :
  containerRow o podMetrics node podNamespace podName podAge podIP podStatus
    container = Some row ->
  nodeName row = node.
Proof.
  unfold containerRow.
  destruct (match negb (noMetrics o), podMetrics with
            | true, Some metrics => _ | _, _ => _ end) as [cpuUsed memoryUsed].
  destruct (negb (listAll o) && _); [done|]. by intros [= <-].
Qed.

Lemma containerLoop_nodeName (o : FreeOptions) (podMetrics : option PodMetricsList)
    (node podNamespace podName podAge podIP podStatus : string)
    (containers : list Container) (nodePods : list podInfo) :
  Forall (fun row => nodeName row = node) nodePods ->
  Forall (fun row => nodeName row = node)
    (containerLoop o podMetrics node podNamespace podName podAge podIP podStatus
       containers nodePods).
Proof.
  revert nodePods. induction containers as [|c cs IH]; intros nodePods Hall; simpl; [done|].
  apply IH.
  destruct (containerRow _ _ _ _ _ _ _ _ c) as [row|] eqn:Hrow; [|done].
  apply Forall_app. split; [done|]. apply Forall_singleton.
  by eapply containerRow_nodeName.
Qed.

Lemma podLoop_nodeName (o : FreeOptions) (c : Cluster) (podMetrics : option PodMetricsList)
    (node : string) (pods : list Pod) (nodePods : list podInfo) :
  Forall (fun row => nodeName row = node) nodePods ->
  Forall (fun row => nodeName row = node) (podLoop o c podMetrics node pods nodePods).
Proof.
  revert nodePods. induction pods as [|pod rest IH]; intros nodePods Hall; simpl; [done|].
  by apply IH, containerLoop_nodeName.
Qed.

Lemma addRows_spec (o : FreeOptions) (t : table.OutputTable) (nodePods : list podInfo) :
  table.Header (addRows o t nodePods) = table.Header t
  /\ table.Rows (addRows o t nodePods)
     = table.Rows t ++ ((fun row => JoinTab (podInfoToRow o row)) <$> nodePods).
Proof.
  unfold addRows. revert t. induction nodePods as [|row rows IH]; intros t; simpl.
  - by rewrite app_nil_r.
  - destruct (IH (table.AddRow t (podInfoToRow o row))) as [-> ->]. simpl.
    by rewrite <- app_assoc.
Qed.

Lemma nodeLoop_groups (o : FreeOptions) (c : Cluster) (podMetrics : option PodMetricsList)
    (nodes : list Node) (t : table.OutputTable) :
  Forall (fun node => exists pods, GetPods c (Node_Name node) = inr pods) nodes ->
  exists t' (groups : list (list podInfo)),
    nodeLoop o c podMetrics nodes t = Some (t', None)
    /\ table.Header t' = table.Header t
    /\ table.Rows t'
       = table.Rows t
         ++ concat ((fun group : list podInfo =>
                       (fun row => JoinTab (podInfoToRow o row)) <$> group) <$> groups)
    /\ Forall2 (groupOf o c podMetrics) nodes groups.
Proof.
  revert t. induction nodes as [|node rest IH]; intros t Hok; simpl.
  { exists t, []. split; [done|]. split; [done|]. split; [by rewrite app_nil_r|done]. }
  inversion_clear Hok as [|?? (pods & Hpods) Hok']. rewrite Hpods.
  set (rows := podLoop o c podMetrics (Node_Name node) pods []).
  assert (exists group,
    (if negb (noMetrics o) then sortEntries o rows else Some rows) = Some group
    /\ groupOf o c podMetrics node group) as (group & -> & Hgroup).
  { assert (Forall (fun row => nodeName row = Node_Name node) rows) as Hnames.
    { by apply podLoop_nodeName. }
    destruct (noMetrics o) eqn:Hno; simpl.
    - exists rows. split; [done|]. exists pods. rewrite Hno. by repeat split.
    - destruct (sortEntries_Permutation o rows) as (group & Hsort & Hperm).
      rewrite Hsort. exists group. split; [done|]. exists pods.
      split; [done|]. split; [done|]. split; [by rewrite Hno|].
      split; [by intros _|]. by rewrite Hperm. }
  simpl.
  destruct (IH (addRows o t group) Hok') as (t' & groups & -> & Hheader & Hrows & Hgroups).
  exists t', (group :: groups). split; [done|].
  destruct (addRows_spec o t group) as [Hh Hr].
  split; [congruence|]. split; [|by constructor].
  rewrite Hrows, Hr. simpl. by rewrite <- app_assoc.
Qed.

(** C10: in list mode, when the pods of every node can be listed, the rows
    added to the table are the rows of the first node, then those of the
    second, and so on; the rows of a node are the rows built for its pods,
    each with the name of the node, sorted on their own when metrics are
    shown and in the order they were built when not. *)
Theorem rows_are_grouped_by_node (o : FreeOptions) (c : Cluster)
    (nodes : list Node) (t : table.OutputTable) :
  Forall (fun node => exists pods, GetPods c (Node_Name node) = inr pods) nodes ->
  let podMetrics :=
    match negb (noMetrics o), metricsPodClient c with
    | true, Some listed => listed
    | _, _ => None
    end in
  exists r (groups : list (list podInfo)),
    showPodsOnNode o c nodes t = Some r
    /\ err r = None
    /\ output r = table.Print (table r)
    /\ table.Rows (table r)
       = table.Rows t
         ++ concat ((fun group : list podInfo =>
                       (fun row => JoinTab (podInfoToRow o row)) <$> group) <$> groups)
    /\ Forall2 (groupOf o c podMetrics) nodes groups.
Proof.
  intros Hok podMetrics. unfold showPodsOnNode. fold podMetrics.
  set (t0 := if negb (noHeaders o) then _ else t).
  assert (table.Rows t0 = table.Rows t) as Hrows0 by (subst t0; by destruct (noHeaders o)).
  destruct (nodeLoop_groups o c podMetrics nodes t0 Hok)
    as (t' & groups & -> & _ & Hrows & Hgroups).
  simpl. eexists _, groups. split; [done|]. simpl.
  split; [done|]. split; [done|]. split; [|done]. by rewrite Hrows, Hrows0.
Qed.

End grouping.

(** ** Failures of the cluster, and the age of a pod *)
Section failures.

Context `{Util}.

Import resource cmd.

Lemma nodeLoop_GetPods_error (o : FreeOptions) (c : Cluster)
    (podMetrics : option PodMetricsList) (before after : list Node) (node : Node)
    (perr : error) (t : table.OutputTable) :
  Forall (fun node => exists pods, GetPods c (Node_Name node) = inr pods) before ->
  GetPods c (Node_Name node) = inl perr ->
  exists t', nodeLoop o c podMetrics (before ++ node :: after) t = Some (t', Some perr).
Proof.
  intros Hok Hfail. revert t. induction Hok as [|n ns (pods & Hpods) _ IH]; intros t; simpl.
  { rewrite Hfail. eauto. }
  rewrite Hpods.
  assert (exists group,
    (if negb (noMetrics o)
     then sortEntries o (podLoop o c podMetrics (Node_Name n) pods [])
     else Some (podLoop o c podMetrics (Node_Name n) pods [])) = Some group)
    as (group & ->).
  { destruct (negb (noMetrics o)); [|by eauto].
    destruct (sortEntries_Permutation o (podLoop o c podMetrics (Node_Name n) pods []))
      as (group & -> & _). eauto. }
  simpl. apply IH.
Qed.

(** X2: in list mode, when the nodes are listed and [util.GetPods] fails
    for one of them (and succeeds for those before it), [Run] returns the
    error of that call, the command ends with status 1, and no line is
    written. *)
Theorem Run_returns_pod_listing_error
    (showFree : FreeOptions -> Cluster -> list Node -> table.OutputTable -> option outcome)
    (o : FreeOptions) (c : Cluster) (args : list string) (t : table.OutputTable)
    (before after : list Node) (node : Node) (perr : error) :
  list_ o = true ->
  GetNodes c args (labelSelector o) = inr (before ++ node :: after) ->
  Forall (fun node => exists pods, GetPods c (Node_Name node) = inr pods) before ->
  GetPods c (Node_Name node) = inl perr ->
  exists r, Run showFree o c args t = Some r
    /\ err r = Some perr /\ output r = [] /\ exitStatus r = 1.
Proof.
  intros Hlist Hnodes Hok Hfail. unfold Run, showPodsOnNode. rewrite Hnodes, Hlist.
  match goal with
  | |- context [nodeLoop o c ?pm _ ?t0] =>
      destruct (nodeLoop_GetPods_error o c pm before after node perr t0 Hok Hfail)
        as (t' & ->)
  end.
  simpl. eexists. split; [reflexivity|]. done.
Qed.

(** X3: a pod whose creation timestamp is the zero time has the age
    "<unknown>" in each of its rows. *)
Theorem zero_creation_time_shows_unknown_age (o : FreeOptions) (c : Cluster)
    (podMetrics : option PodMetricsList) (node : string) (pod : Pod) :
  CreationTimestamp pod = 0 ->
  Forall (fun row => podAge row = "<unknown>") (podLoop o c podMetrics node [pod] []).
Proof.
  intros Hzero. simpl. rewrite Hzero. simpl. rewrite containerLoop_omap. simpl.
  apply Forall_lookup. intros k row Hrow.
  apply list_elem_of_lookup_2, list_elem_of_omap in Hrow as (container & _ & Hrow).
  unfold containerRow in Hrow.
  destruct (match negb (noMetrics o), podMetrics with
            | true, Some metrics => _ | _, _ => _ end) as [cpuUsed memoryUsed].
  destruct (negb (listAll o) && _); [done|]. by injection Hrow as <-.
Qed.

End failures.

(** ** The sort on concrete rows *)
Section sort_examples.

#[local] Existing Instance example.util.

Import resource cmd example.

(** Two rows, the first with a memory sample and the second without: the
    theorem applies, and the row without a sample ends up first. *)
Lemma absent_row_first_of_two :
  (sortByResource compactList = memorySortResource
   \/ sortByResource compactList = cpuSortResource)
  /\ exists out, sortEntries compactList rows2 = Some out
       /\ out ≡ₚ rows2
       /\ forall i j x y, (i < j)%nat -> out !! i = Some x -> out !! j = Some y ->
            containerMemoryUsed y = None -> containerMemoryUsed x = None.
Proof.
  split; [by left|].
  destruct (absent_rows_come_first compactList rows2 (or_introl eq_refl))
    as (out & Hsort & Hperm & Hfirst & _).
  exists out. split; [exact Hsort|]. split; [exact Hperm|]. exact Hfirst.
Defined.

(** C1 as stated fails: the row without a sample is sorted before the row
    with one, the comparator calls missing-vs-present less, and among
    thirteen rows the three rows without a sample change places. *)
Lemma absent_row_sorts_before_present_row :
  (fun row => (podName row, formatted <$> containerMemoryUsed row)) <$> rows2
    = [("p00", Some "5M"); ("p01", None)]
  /\ fmap (M := list) (fun row => (podName row, formatted <$> containerMemoryUsed row))
       <$> sortEntries compactList rows2
     = Some [("p01", None); ("p00", Some "5M")]
  /\ (forall a b, containerMemoryUsed a = None -> is_Some (containerMemoryUsed b) ->
        lessMemory a b = true)
  /\ podName <$> rows13 gaps = names13
  /\ fmap (M := list) (fun row => (podName row, formatted <$> containerMemoryUsed row))
       <$> sortEntries compactList (rows13 gaps)
     = Some [("p10", None); ("p12", None); ("p11", None); ("p09", Some "5M");
             ("p04", Some "5M"); ("p05", Some "5M"); ("p06", Some "5M");
             ("p07", Some "5M"); ("p08", Some "5M"); ("p00", Some "5M");
             ("p03", Some "9M"); ("p02", Some "9M"); ("p01", Some "9M")].
Proof.
  split; [reflexivity|]. split; [vm_compute; reflexivity|]. split.
  { intros a b Ha [v Hb]. unfold lessMemory. by rewrite Ha, Hb. }
  split; [reflexivity|]. vm_compute. reflexivity.
Qed.

(** Twelve rows with ties: the theorem applies and the rows that compare
    equal keep their places. *)
Lemma twelve_rows_keep_ties_in_order :
  (sortByResource compactList = memorySortResource
   \/ sortByResource compactList = cpuSortResource)
  /\ (length (take 12 (rows13 ties)) <= 12)%nat
  /\ exists out, sortEntries compactList (take 12 (rows13 ties)) = Some out
       /\ forall z, List.filter (equivalent lessMemory z) out
                    = List.filter (equivalent lessMemory z) (take 12 (rows13 ties)).
Proof.
  split; [by left|].
  assert (length (take 12 (rows13 ties)) <= 12)%nat as Hlen by (vm_compute; lia).
  split; [exact Hlen|].
  destruct (sort_is_stable_up_to_twelve_rows compactList (take 12 (rows13 ties))
              (or_introl eq_refl)) as (out & Hsort & _ & _ & Hstable).
  exists out. split; [exact Hsort|]. exact (Hstable Hlen).
Defined.

(** C2 as stated fails: among thirteen rows built in the order p00 ... p12,
    the three rows that use 1M come out as p10, p12, p11, the rows that use
    5M and those that use 9M change places as well. *)
Lemma thirteen_rows_lose_the_order_of_ties :
  (fun row => (podName row, formatted <$> containerMemoryUsed row)) <$> rows13 ties
    = [("p00", Some "5M"); ("p01", Some "9M"); ("p02", Some "9M"); ("p03", Some "9M");
       ("p04", Some "5M"); ("p05", Some "5M"); ("p06", Some "5M"); ("p07", Some "5M");
       ("p08", Some "5M"); ("p09", Some "5M"); ("p10", Some "1M"); ("p11", Some "1M");
       ("p12", Some "1M")]
  /\ fmap (M := list) (fun row => (podName row, formatted <$> containerMemoryUsed row))
       <$> sortEntries compactList (rows13 ties)
     = Some [("p10", Some "1M"); ("p12", Some "1M"); ("p11", Some "1M");
             ("p09", Some "5M"); ("p04", Some "5M"); ("p05", Some "5M");
             ("p06", Some "5M"); ("p07", Some "5M"); ("p08", Some "5M");
             ("p00", Some "5M"); ("p03", Some "9M"); ("p02", Some "9M");
             ("p01", Some "9M")].
Proof. split; vm_compute; reflexivity. Qed.

(** Two nodes: the theorem applies, and the table holds the thirteen rows
    of node1 followed by the thirteen rows of node2. *)
Lemma rows_of_two_nodes :
  Forall (fun node => exists pods, GetPods twoNodes (Node_Name node) = inr pods)
    [mkNode "node1"; mkNode "node2"]
  /\ exists r (groups : list (list podInfo)),
       showPodsOnNode compactList twoNodes [mkNode "node1"; mkNode "node2"]
         table.NewOutputTable = Some r
       /\ err r = None
       /\ table.Rows (table r)
          = concat ((fun group : list podInfo =>
                       (fun row => JoinTab (podInfoToRow compactList row)) <$> group)
                      <$> groups)
       /\ Forall2 (groupOf compactList twoNodes (Some ties))
            [mkNode "node1"; mkNode "node2"] groups.
Proof.
  assert (Forall (fun node => exists pods, GetPods twoNodes (Node_Name node) = inr pods)
            [mkNode "node1"; mkNode "node2"]) as Hok.
  { repeat constructor; eexists; reflexivity. }
  split; [exact Hok|].
  destruct (rows_are_grouped_by_node compactList twoNodes
              [mkNode "node1"; mkNode "node2"] table.NewOutputTable Hok)
    as (r & groups & Hrun & Herr & _ & Hrows & Hgroups).
  exists r, groups. split; [exact Hrun|]. split; [exact Herr|].
  split; [exact Hrows|]. exact Hgroups.
Defined.

(** The thirteen rows with ties, by memory: the comparator is a strict weak
    ordering and the sort returns them in ascending order. *)
Lemma thirteen_rows_sorted :
  StrictWeakOrder lessMemory
  /\ exists out, SortFunc lessMemory (rows13 ties) = Some out
       /\ Permutation out (rows13 ties)
       /\ StronglySorted (fun a b => lessMemory b a = false) out.
Proof.
  split; [exact lessMemory_swo|].
  exact (SortFunc_sorts lessMemory (rows13 ties) lessMemory_swo).
Defined.

(** The cluster that lists a node and then fails to list its pods. *)
Lemma pod_listing_error_of_podsUnreachable :
  list_ compactList = true
  /\ GetNodes podsUnreachable [] (labelSelector compactList)
     = inr ([] ++ mkNode "node1" :: [])
  /\ GetPods podsUnreachable (Node_Name (mkNode "node1")) = inl "pods is forbidden"
  /\ exists r, Run (fun _ _ _ _ => None) compactList podsUnreachable []
                 table.NewOutputTable = Some r
       /\ err r = Some "pods is forbidden" /\ output r = [] /\ exitStatus r = 1.
Proof.
  split; [reflexivity|]. split; [reflexivity|]. split; [reflexivity|].
  apply (Run_returns_pod_listing_error (fun _ _ _ _ => None) compactList
           podsUnreachable [] table.NewOutputTable [] [] (mkNode "node1")
           "pods is forbidden"); try reflexivity.
  constructor.
Defined.

(** The frontend pod has the zero creation time. *)
Lemma frontend_age_unknown :
  CreationTimestamp frontend = 0
  /\ Forall (fun row => podAge row = "<unknown>")
       (podLoop compactList twoNodes (Some busy) "node1" [frontend] []).
Proof.
  split; [reflexivity|].
  apply (zero_creation_time_shows_unknown_age compactList twoNodes (Some busy)
           "node1" frontend).
  reflexivity.
Defined.

End sort_examples.

(** ** The sort flag *)
Section sort_flag.

Import cmd.

Variable Quote : string -> string.

(** X4: [Set] accepts exactly the two names memory and cpu. It then stores
    the name it was given, which [String] gives back; for any other text it
    returns an error and leaves the stored value as it was. So a sort
    resource that starts as one of the two names is one of them after any
    sequence of calls. *)
Theorem Set_keeps_sort_resource_valid (s : sortResource) (vs : list string) :
  s = memorySortResource \/ s = cpuSortResource ->
  let s' := foldl (fun s v => snd (Set_ Quote s v)) s vs in
  (s' = memorySortResource \/ s' = cpuSortResource)
  /\ (forall v,
        (fst (Set_ Quote s v) = None <-> v = memorySortResource \/ v = cpuSortResource)
        /\ (fst (Set_ Quote s v) = None ->
            snd (Set_ Quote s v) = v /\ String_ (Some (snd (Set_ Quote s v))) = v)
        /\ (fst (Set_ Quote s v) <> None -> snd (Set_ Quote s v) = s)).
Proof.
  intros Hs. split.
  - revert s Hs. induction vs as [|v vs IH]; intros s Hs; simpl; [done|].
    apply IH. unfold Set_. simpl.
    destruct (String.eqb_spec v memorySortResource) as [->|?]; simpl; [by left|].
    destruct (String.eqb_spec v cpuSortResource) as [->|?]; simpl; [by right|done].
  - intros v. unfold Set_. simpl.
    destruct (String.eqb_spec v memorySortResource) as [->|?]; simpl.
    { repeat split; auto. done. }
    destruct (String.eqb_spec v cpuSortResource) as [->|?]; simpl.
    { repeat split; auto. done. }
    repeat split; try done. intros [?|?]; done.
Qed.

End sort_flag.

(** ** Severity bands, whatever the thresholds *)
Section bands.

Import cmd.

(** X5: whatever the two thresholds are, a larger percentage never gets a
    milder colour: what is green at [q] is green below [q], and what is red
    at [p] is red above [p]. When the crit threshold is not above the warn
    threshold, no percentage is yellow. *)
Theorem severity_grows_with_percentage (o : FreeOptions) (p q : Z) :
  p <= q ->
  (classify o q = OK -> classify o p = OK)
  /\ (classify o p = CRIT -> classify o q = CRIT)
  /\ (critThreshold o <= warnThreshold o -> classify o p <> WARN).
Proof.
  intros Hpq. unfold classify.
  destruct (Z.ltb_spec p (warnThreshold o)), (Z.ltb_spec p (critThreshold o)),
    (Z.ltb_spec q (warnThreshold o)), (Z.ltb_spec q (critThreshold o));
    repeat split; intros; try done; lia.
Qed.

End bands.

Section widths.

Context `{Util}.

Import resource cmd.

(** X6: a row has one cell for each column of the list header, less one
    for each usage sample the row lacks when metrics are shown, and less
    four when [--no-metrics] meets the compact view: the header then keeps
    CPU/req, CPU/lim, MEM/req and MEM/lim, which the row does not fill. *)
Theorem row_width_against_header (o : FreeOptions) (info : podInfo) :
  let absent := fun used : option formattedResource =>
                  match used with Some _ => 0%nat | None => 1%nat end in
  let missing :=
    if noMetrics o then (if compactView o then 4%nat else 0%nat)
    else (absent (containerCPUUsed info) + absent (containerMemoryUsed info))%nat in
  (length (podInfoToRow o info) + missing)%nat = length (prepareListTableHeader o).
Proof.
  unfold podInfoToRow, prepareListTableHeader.
  destruct (noMetrics o), (compactView o), (listContainerImage o),
    (containerCPUUsed info), (containerMemoryUsed info); reflexivity.
Qed.

End widths.

(** ** Rows, headers and the printed table *)
Section more_rows.

Context `{Util}.

Import resource cmd.







Lemma nodeLoop_appends (o : FreeOptions) (c : Cluster)
    (podMetrics : option PodMetricsList) (nodes : list Node)
    (t t' : table.OutputTable) (e : option error) :
  nodeLoop o c podMetrics nodes t = Some (t', e) ->
  table.Header t' = table.Header t
  /\ (exists added, table.Rows t' = table.Rows t ++ added)
  /\ (nodes = [] -> table.Rows t' = table.Rows t).
Proof.
  revert t. induction nodes as [|node rest IH]; intros t; simpl.
  { intros [= <- <-]. split; [done|]. split; [|done]. exists []. by rewrite app_nil_r. }
  destruct (GetPods c (Node_Name node)) as [perr|pods].
  { intros [= <- <-]. split; [done|]. split; [|done]. exists []. by rewrite app_nil_r. }
  destruct (if negb (noMetrics o) then _ else _) as [group|]; [|done]. simpl.
  intros Hrest. destruct (IH _ Hrest) as (Hh & (added & Hr) & _).
  destruct (addRows_spec o t group) as [Hh' Hr'].
  split; [congruence|]. split; [|done].
  eexists. rewrite Hr, Hr', <- app_assoc. done.
Qed.

(** X9: when [showPodsOnNode] completes, the header of the table is the
    list header, or what it was under [--no-headers]; the rows that were in
    the table are kept and the new ones follow them; without nodes no row is
    added and no error returned. Without an error the lines printed are the
    header line, when the header is not empty, and then every row; with an
    error nothing is printed. *)
Theorem list_output_is_header_then_rows (o : FreeOptions) (c : Cluster)
    (nodes : list Node) (t : table.OutputTable) (r : outcome) :
  showPodsOnNode o c nodes t = Some r ->
  let header := if negb (noHeaders o) then listTableHeaders o else table.Header t in
  table.Header (table r) = header
  /\ (exists added, table.Rows (table r) = table.Rows t ++ added)
  /\ (nodes = [] -> table.Rows (table r) = table.Rows t /\ err r = None)
  /\ (err r = None ->
      output r = match header with
                 | [] => []
                 | _ :: _ => [JoinTab header]
                 end ++ table.Rows (table r))
  /\ (err r <> None -> output r = []).
Proof.
  unfold showPodsOnNode.
  set (t0 := if negb (noHeaders o) then _ else t).
  set (pm := match negb (noMetrics o), metricsPodClient c with
             | true, Some listed => listed | _, _ => None end).
  destruct (nodeLoop o c pm nodes t0) as [[t' perr]|] eqn:Hloop; [|done]. simpl.
  destruct (nodeLoop_appends o c pm nodes t0 t' perr Hloop) as (Hh & (added & Hr) & Hnil).
  assert (table.Header t0 = (if negb (noHeaders o) then listTableHeaders o
                             else table.Header t)) as Hh0
    by (subst t0; by destruct (noHeaders o)).
  assert (table.Rows t0 = table.Rows t) as Hr0 by (subst t0; by destruct (noHeaders o)).
  assert (nodes = [] -> perr = None) as Hnone.
  { intros ->. simpl in Hloop. by injection Hloop as _ <-. }
  destruct perr as [perr|]; intros [= <-]; simpl.
  - split; [congruence|]. split; [exists added; congruence|].
    split; [intros Hn; by specialize (Hnone Hn)|]. split; done.
  - split; [congruence|]. split; [exists added; congruence|].
    split; [intros Hn; split; [rewrite Hnil by done; done|done]|].
    split; [|done]. intros _. unfold table.Print. rewrite Hh, Hh0.
    generalize (if negb (noHeaders o) then listTableHeaders o else table.Header t).
    intros [|x h]; [done|]. unfold length. by destruct (decide _) as [?|?]; [|lia].
Qed.

(** X10: what [--no-metrics] does to the headers, for two options that
    differ in it and agree on colour, [--pod] and the image column. The
    free header loses its four use columns and keeps the others in place:
    12 columns against 16, three more each with [--pod]. The list header
    of the full view loses its two use columns and keeps the others in
    place. The list header of the compact view does not shrink: CPU/use and
    MEM/use give way to CPU/req, CPU/lim, MEM/req and MEM/lim, so it is two
    columns longer without metrics. *)
Theorem headers_with_and_without_metrics (o1 o2 : FreeOptions) :
  noMetrics o1 = true -> noMetrics o2 = false ->
  nocolor o1 = nocolor o2 -> pod o1 = pod o2 ->
  listContainerImage o1 = listContainerImage o2 ->
  sublist (prepareFreeTableHeader o1) (prepareFreeTableHeader o2)
  /\ length (prepareFreeTableHeader o1) = (12 + if pod o1 then 3 else 0)%nat
  /\ length (prepareFreeTableHeader o2) = (16 + if pod o2 then 3 else 0)%nat
  /\ (compactView o1 = false -> compactView o2 = false ->
      sublist (prepareListTableHeader o1) (prepareListTableHeader o2)
      /\ length (prepareListTableHeader o2)
         = (length (prepareListTableHeader o1) + 2)%nat)
  /\ (compactView o1 = true -> compactView o2 = true ->
      length (prepareListTableHeader o1)
      = (length (prepareListTableHeader o2) + 2)%nat
      /\ exists before after,
           length before = 5%nat
           /\ prepareListTableHeader o2 = before ++ ["CPU/use"; "MEM/use"] ++ after
           /\ prepareListTableHeader o1
              = before ++ ["CPU/req"; "CPU/lim"; "MEM/req"; "MEM/lim"] ++ after).
Proof.
  intros Hm1 Hm2 Hc Hp Hi.
  unfold prepareFreeTableHeader, prepareListTableHeader.
  rewrite Hm1, Hm2, Hc, Hp, Hi. simpl.
  split; [|split; [|split; [|split]]].
  - destruct (nocolor o2), (pod o2); simpl;
      repeat (first [apply sublist_skip | apply sublist_cons | apply sublist_nil]).
  - by destruct (pod o2).
  - by destruct (pod o2).
  - intros -> ->. simpl. destruct (nocolor o2), (listContainerImage o2); simpl; split; try done;
      repeat (first [apply sublist_skip | apply sublist_cons | apply sublist_nil]).
  - intros -> ->. simpl. split; [by destruct (listContainerImage o2)|].
    eexists [_; _; _; _; _], (if listContainerImage o2 then _ else _).
    split; [done|]. by destruct (listContainerImage o2).
Qed.

(** X11: [toUnit] truncates. For a positive unit size and an amount that
    is not negative, the number shown is the [n] with
    [n * unit <= i < (n + 1) * unit], followed by the unit unless
    [--without-unit] is given; so [toUnitOrDash] shows a positive amount
    below one unit as 0 and not as a dash. *)
Theorem toUnit_truncates (o : FreeOptions) (i unitbytes : Z) (unitstr : string) :
  (if binPrefix o
   then GetBinUnit (bytes o) (kByte o) (mByte o) (gByte o)
   else GetSiUnit (bytes o) (kByte o) (mByte o) (gByte o)) = (unitbytes, unitstr) ->
  0 < unitbytes -> 0 <= i ->
  let suffix := if negb (withoutUnit o) then unitstr else "" in
  exists n, toUnit o i = FormatInt n +:+ suffix
    /\ n * unitbytes <= i < (n + 1) * unitbytes
    /\ (0 < i < unitbytes -> toUnitOrDash o i = "0" +:+ suffix).
Proof.
  intros Hunit Hpos Hi suffix. unfold toUnitOrDash, toUnit. rewrite Hunit.
  fold suffix. exists (i / unitbytes). rewrite Z.quot_div_nonneg by lia.
  split; [done|]. split.
  - pose proof (Z.mul_div_le i unitbytes Hpos).
    pose proof (Z.mul_succ_div_gt i unitbytes Hpos). lia.
  - intros Hsmall. destruct (Z.eqb_spec i 0); [lia|].
    rewrite Z.div_small by lia. done.
Qed.

End more_rows.

(** ** Rows that are in order already *)
Section sorted_input.

Context {E : Type} (less : E -> E -> bool).

Implicit Types data : list E.

#[local] Arguments Nat.mul : simpl never.
#[local] Arguments Nat.add : simpl never.
#[local] Arguments Nat.sub : simpl never.
#[local] Arguments Nat.div : simpl never.

Lemma lessAt_sorted a b data i j :
  sortedSeg less a b data -> (b <= length data)%nat -> (a <= i)%nat -> (i < j)%nat ->
  (j < b)%nat -> lessAt less data j i = Some false.
Proof.
  intros Hsorted Hb Hi Hij Hj.
  destruct (lessAt_Some less data j i) as (y & x & Hy & Hx & ->); [lia..|].
  f_equal. by apply (Hsorted i j x y).
Qed.

Lemma insertDown_sorted_id a b data j :
  sortedSeg less a b data -> (b <= length data)%nat -> (j < b)%nat ->
  insertDown less data a j = Some data.
Proof.
  intros Hsorted Hb Hj. destruct j as [|j']; simpl; [done|].
  case_decide; [|done].
  rewrite (lessAt_sorted a b) by (auto; lia). done.
Qed.

Lemma insertionLoop_sorted_id a b data n i :
  sortedSeg less a b data -> (b <= length data)%nat -> (i + n <= b)%nat ->
  insertionLoop less n data a i = Some data.
Proof.
  intros Hsorted Hb. revert i. induction n as [|n IH]; intros i Hi; simpl; [done|].
  rewrite (insertDown_sorted_id a b) by (auto; lia). simpl. apply IH. lia.
Qed.

Lemma insertionSort_sorted_id a b data :
  sortedSeg less a b data -> (b <= length data)%nat ->
  insertionSort less data a b = Some data.
Proof.
  intros Hsorted Hb. unfold insertionSort.
  destruct (decide (b <= a + 1)%nat).
  - replace (b - (a + 1))%nat with 0%nat by lia. done.
  - apply (insertionLoop_sorted_id a b); auto. lia.
Qed.

Lemma order2_sorted a b data x y swaps :
  sortedSeg less a b data -> (b <= length data)%nat -> (a <= x)%nat -> (x < y)%nat ->
  (y < b)%nat -> order2 less data x y swaps = Some (x, y, swaps).
Proof.
  intros Hsorted Hb Hx Hxy Hy. unfold order2.
  by rewrite (lessAt_sorted a b) by (auto; lia).
Qed.

Lemma median_sorted a b data x y z swaps :
  sortedSeg less a b data -> (b <= length data)%nat -> (a <= x)%nat -> (x < y)%nat ->
  (y < z)%nat -> (z < b)%nat -> median less data x y z swaps = Some (y, swaps).
Proof.
  intros Hsorted Hb Hx Hxy Hyz Hz. unfold median.
  rewrite (order2_sorted a b) by (auto; lia). simpl.
  rewrite (order2_sorted a b) by (auto; lia). simpl.
  rewrite (order2_sorted a b) by (auto; lia). done.
Qed.

#[local] Arguments median : simpl never.

Lemma choosePivot_sorted a b data :
  sortedSeg less a b data -> (b <= length data)%nat -> (8 <= b - a)%nat ->
  exists pivot, choosePivot less data a b = Some (pivot, increasingHint).
Proof.
  intros Hsorted Hb Hlen. unfold choosePivot.
  set (q := ((b - a) / 4)%nat).
  assert (q * 4 <= b - a)%nat as Hq.
  { subst q. rewrite Nat.mul_comm. apply Nat.Div0.mul_div_le. }
  assert (2 <= q)%nat as Hq2 by (apply Nat.div_le_lower_bound; lia).
  rewrite decide_True by lia.
  case_decide as H50.
  - assert (12 <= q)%nat as Hq12 by (apply Nat.div_le_lower_bound; lia).
    unfold medianAdjacent.
    rewrite (median_sorted a b) by (auto; lia). simpl.
    rewrite (median_sorted a b) by (auto; lia). simpl.
    rewrite (median_sorted a b) by (auto; lia). simpl.
    rewrite (median_sorted a b) by (auto; lia). simpl. eauto.
  - simpl. rewrite (median_sorted a b) by (auto; lia). simpl. eauto.
Qed.

Lemma scanOrdered_sorted a b data fuel i :
  sortedSeg less a b data -> (b <= length data)%nat -> (a < i <= b)%nat ->
  (b - i < fuel)%nat -> scanOrdered less fuel data i b = Some b.
Proof.
  intros Hsorted Hb. revert i. induction fuel as [|fuel IH]; intros i Hi Hfuel; [lia|].
  simpl. case_decide; cycle 1.
  { f_equal. lia. }
  rewrite (lessAt_sorted a b) by (auto; lia). simpl. apply IH; lia.
Qed.

#[local] Arguments scanOrdered : simpl never.

Lemma partialInsertionSort_sorted a b data :
  sortedSeg less a b data -> (a < b <= length data)%nat ->
  partialInsertionSort less data a b = Some (data, true).
Proof.
  intros Hsorted Hab. unfold partialInsertionSort. simpl.
  rewrite (scanOrdered_sorted a b) by (auto; lia). simpl.
  by rewrite decide_True.
Qed.

#[local] Arguments insertionSort : simpl never.
#[local] Arguments heapSort : simpl never.
#[local] Arguments breakPatterns : simpl never.
#[local] Arguments choosePivot : simpl never.
#[local] Arguments reverseRange : simpl never.
#[local] Arguments partialInsertionSort : simpl never.
#[local] Arguments partitionEqual : simpl never.
#[local] Arguments partition : simpl never.
#[local] Arguments lessAt : simpl never.

(** A slice that is in order already is returned as it is. *)
Lemma SortFunc_sorted_id (x : list E) :
  sortedSeg less 0 (length x) x -> SortFunc less x = Some x.
Proof.
  intros Hsorted. unfold SortFunc. simpl. rewrite Nat.sub_0_r.
  case_decide as Hlong; [by apply (insertionSort_sorted_id 0 (length x))|].
  rewrite decide_False; cycle 1.
  { unfold bitsLen. destruct (length x); [lia|done]. }
  simpl.
  destruct (choosePivot_sorted 0 (length x) x) as (pivot & ->); [done|lia|lia|].
  simpl. rewrite (partialInsertionSort_sorted 0 (length x)) by (auto; lia). done.
Qed.

(** Sorting what [SortFunc] returned changes nothing. *)
Lemma SortFunc_idempotent (x x' : list E) :
  StrictWeakOrder less -> SortFunc less x = Some x' -> SortFunc less x' = Some x'.
Proof.
  intros Hswo Hsort.
  destruct (SortFunc_spec less Hswo x) as (x'' & Hsort' & _ & Hsorted).
  assert (x'' = x') as -> by congruence.
  by apply SortFunc_sorted_id.
Qed.

End sorted_input.

Section resorting.

Import resource cmd.

(** X12: [sortEntries] returns rows that are in order already as they
    are, whatever their number, and sorting its own result again changes
    nothing. In order means: by the resource sorted by, no row is less than
    a row before it. *)
Theorem sortEntries_leaves_sorted_rows (o : FreeOptions) (items : list podInfo) :
  let less :=
    if String.eqb (sortByResource o) memorySortResource then lessMemory
    else if String.eqb (sortByResource o) cpuSortResource then lessCPU
    else fun _ _ => false in
  ((forall i j x y, (i < j)%nat -> items !! i = Some x -> items !! j = Some y ->
      less y x = false) ->
   sortEntries o items = Some items)
  /\ (forall out, sortEntries o items = Some out -> sortEntries o out = Some out).
Proof.
  unfold sortEntries.
  destruct (String.eqb (sortByResource o) memorySortResource); simpl.
  { split.
    - intros Hsorted. apply SortFunc_sorted_id. intros i j x y _ Hij _ Hx Hy. eauto.
    - intros out. apply SortFunc_idempotent, lessMemory_swo. }
  destruct (String.eqb (sortByResource o) cpuSortResource); simpl.
  { split.
    - intros Hsorted. apply SortFunc_sorted_id. intros i j x y _ Hij _ Hx Hy. eauto.
    - intros out. apply SortFunc_idempotent, lessCPU_swo. }
  split; [done|]. by intros out [= <-].
Qed.

Lemma sortEntries_without_samples (o : FreeOptions) (items : list podInfo) :
  Forall (fun row => containerCPUUsed row = None /\ containerMemoryUsed row = None) items ->
  sortEntries o items = Some items.
Proof.
  intros Hnone. unfold sortEntries.
  assert (forall j y, items !! j = Some y ->
            containerCPUUsed y = None /\ containerMemoryUsed y = None) as Hlook.
  { intros j y Hy. by eapply (proj1 (Forall_lookup _ _) Hnone). }
  destruct (String.eqb (sortByResource o) memorySortResource).
  { apply SortFunc_sorted_id. intros i j x y _ _ _ Hx Hy.
    unfold lessMemory. destruct (Hlook j y Hy) as [_ ->].
    by destruct (Hlook i x Hx) as [_ ->]. }
  destruct (String.eqb (sortByResource o) cpuSortResource); [|done].
  apply SortFunc_sorted_id. intros i j x y _ _ _ Hx Hy.
  unfold lessCPU. destruct (Hlook j y Hy) as [-> _].
  by destruct (Hlook i x Hx) as [-> _].
Qed.

End resorting.

Section no_snapshot.

Context `{Util}.

Import resource cmd.

Lemma containerRow_without_snapshot (o : FreeOptions)
    (node podNamespace podName podAge podIP podStatus : string)
    (container : Container) (row : podInfo) :
  containerRow o None node podNamespace podName podAge podIP podStatus container
    = Some row ->
  containerCPUUsed row = None /\ containerMemoryUsed row = None.
Proof.
  unfold containerRow.
  replace (match negb (noMetrics o), @None PodMetricsList with
           | true, Some metrics => GetContainerMetrics metrics podName
                                     (Container_Name container)
           | _, _ => (None, None) end)
    with (@None Quantity, @None Quantity) by (by destruct (noMetrics o)).
  destruct (negb (listAll o) && _); [done|]. by intros [= <-].
Qed.

Lemma podLoop_without_snapshot (o : FreeOptions) (c : Cluster) (node : string)
    (pods : list Pod) (nodePods : list podInfo) :
  Forall (fun row => containerCPUUsed row = None /\ containerMemoryUsed row = None)
    nodePods ->
  Forall (fun row => containerCPUUsed row = None /\ containerMemoryUsed row = None)
    (podLoop o c None node pods nodePods).
Proof.
  revert nodePods. induction pods as [|pod rest IH]; intros nodePods Hall; simpl; [done|].
  apply IH. rewrite containerLoop_omap. apply Forall_app. split; [done|].
  apply Forall_forall. intros row Hrow.
  apply list_elem_of_omap in Hrow as (container & _ & Hrow).
  by eapply containerRow_without_snapshot.
Qed.

(** X13: when there is no metrics client, or its listing failed, and the
    pods of every node are listed, [showPodsOnNode] completes without an
    error, no row carries a usage sample, and the rows of each node are in
    the table in the order in which they were built, whatever resource the
    sort is by. *)
Theorem list_without_snapshot_keeps_build_order (o : FreeOptions) (c : Cluster)
    (nodes : list Node) (t : table.OutputTable) :
  metricsPodClient c = None \/ metricsPodClient c = Some None ->
  Forall (fun node => exists pods, GetPods c (Node_Name node) = inr pods) nodes ->
  exists r (groups : list (list podInfo)),
    showPodsOnNode o c nodes t = Some r
    /\ err r = None
    /\ table.Rows (table r)
       = table.Rows t
         ++ concat ((fun group : list podInfo =>
                       (fun row => JoinTab (podInfoToRow o row)) <$> group) <$> groups)
    /\ Forall2
         (fun node group =>
            exists pods,
              GetPods c (Node_Name node) = inr pods
              /\ group = podLoop o c None (Node_Name node) pods []
              /\ Forall (fun row => containerCPUUsed row = None
                                    /\ containerMemoryUsed row = None) group)
         nodes groups.
Proof.
  intros Hnone Hok. unfold showPodsOnNode.
  replace (match negb (noMetrics o), metricsPodClient c with
           | true, Some listed => listed
           | _, _ => None end) with (@None PodMetricsList)
    by (destruct Hnone as [-> | ->]; by destruct (noMetrics o)).
  set (t0 := if negb (noHeaders o) then _ else t).
  assert (table.Rows t0 = table.Rows t) as Hrows0 by (subst t0; by destruct (noHeaders o)).
  destruct (nodeLoop_groups o c None nodes t0 Hok)
    as (t' & groups & -> & _ & Hrows & Hgroups).
  simpl. eexists _, groups. split; [done|]. simpl.
  split; [done|]. split; [by rewrite Hrows, Hrows0|].
  eapply Forall2_impl; [exact Hgroups|].
  intros node group (pods & Hpods & _ & Hoff & Hon & _).
  exists pods. split; [done|].
  pose proof (podLoop_without_snapshot o c (Node_Name node) pods [] (Forall_nil_2 _))
    as Hrows'.
  assert (group = podLoop o c None (Node_Name node) pods []) as ->.
  { destruct (noMetrics o) eqn:Hno; [by apply Hoff|].
    specialize (Hon eq_refl).
    rewrite (sortEntries_without_samples o _ Hrows') in Hon. congruence. }
  done.
Qed.

End no_snapshot.

(** ** The further properties on concrete inputs *)
Section more_examples.

#[local] Existing Instance example.util.

Import resource cmd example.

(** The flag starts as memory, is set to cpu and then to a name that is
    refused. *)
Lemma sort_flag_after_cpu_then_disk :
  (memorySortResource = memorySortResource \/ memorySortResource = cpuSortResource)
  /\ (let s' := foldl (fun s v => snd (Set_ quoted s v)) memorySortResource
                  ["cpu"; "disk"] in
      s' = memorySortResource \/ s' = cpuSortResource)
  /\ (fst (Set_ quoted memorySortResource "disk") <> None ->
      snd (Set_ quoted memorySortResource "disk") = memorySortResource).
Proof.
  split; [by left|].
  pose proof (Set_keeps_sort_resource_valid quoted memorySortResource ["cpu"; "disk"]
                (or_introl eq_refl)) as [Hvalid Hset].
  split; [exact Hvalid|]. exact (proj2 (proj2 (Hset "disk"))).
Defined.

(** 50% and 95% at the default thresholds. *)
Lemma severity_of_50_and_95 :
  50 <= 95
  /\ (classify NewFreeOptions 95 = OK -> classify NewFreeOptions 50 = OK)
  /\ (classify NewFreeOptions 50 = CRIT -> classify NewFreeOptions 95 = CRIT)
  /\ (critThreshold NewFreeOptions <= warnThreshold NewFreeOptions ->
      classify NewFreeOptions 50 <> WARN).
Proof.
  split; [lia|]. apply (severity_grows_with_percentage NewFreeOptions 50 95). lia.
Defined.


(** The frontend pod on one node, headers prepared: a header line and the
    row of the web container. *)
Lemma list_output_of_frontend :
  exists r,
    showPodsOnNode (withHeaders compactList) nodesUnreachable [mkNode "node1"]
      table.NewOutputTable = Some r
    /\ table.Header (table r) = prepareListTableHeader compactList
    /\ (err r = None ->
        output r = [JoinTab (prepareListTableHeader compactList)]
                   ++ table.Rows (table r))
    /\ (err r <> None -> output r = []).
Proof.
  destruct (showPodsOnNode (withHeaders compactList) nodesUnreachable [mkNode "node1"]
              table.NewOutputTable) as [r|] eqn:Hrun;
    [|vm_compute in Hrun; discriminate].
  exists r. split; [reflexivity|].
  destruct (list_output_is_header_then_rows (withHeaders compactList) nodesUnreachable
              [mkNode "node1"] table.NewOutputTable r Hrun)
    as (Hheader & _ & _ & Hout & Hfail).
  split; [exact Hheader|]. split; [exact Hout|]. exact Hfail.
Defined.

(** The full and the compact list view, each with and without metrics. *)
Lemma headers_of_the_list_views :
  noMetrics fullListNoMetrics = true
  /\ noMetrics fullList = false
  /\ nocolor fullListNoMetrics = nocolor fullList
  /\ pod fullListNoMetrics = pod fullList
  /\ listContainerImage fullListNoMetrics = listContainerImage fullList
  /\ sublist (prepareFreeTableHeader fullListNoMetrics) (prepareFreeTableHeader fullList)
  /\ length (prepareFreeTableHeader fullListNoMetrics) = 12%nat
  /\ length (prepareFreeTableHeader fullList) = 16%nat
  /\ sublist (prepareListTableHeader fullListNoMetrics) (prepareListTableHeader fullList)
  /\ length (prepareListTableHeader fullList)
     = (length (prepareListTableHeader fullListNoMetrics) + 2)%nat
  /\ length (prepareListTableHeader compactListNoMetrics)
     = (length (prepareListTableHeader compactList) + 2)%nat.
Proof.
  do 5 (split; [reflexivity|]).
  destruct (headers_with_and_without_metrics fullListNoMetrics fullList
              eq_refl eq_refl eq_refl eq_refl eq_refl)
    as (Hfree & Hlen1 & Hlen2 & Hlist & _).
  destruct (Hlist eq_refl eq_refl) as [Hsub Hlen].
  destruct (headers_with_and_without_metrics compactListNoMetrics compactList
              eq_refl eq_refl eq_refl eq_refl eq_refl)
    as (_ & _ & _ & _ & Hcompact).
  destruct (Hcompact eq_refl eq_refl) as [Hlonger _].
  split; [exact Hfree|]. split; [exact Hlen1|]. split; [exact Hlen2|].
  split; [exact Hsub|]. split; [exact Hlen|]. exact Hlonger.
Defined.

(** The compact list header has 7 columns with metrics and 9 without. *)
Lemma compact_list_header_grows_without_metrics :
  prepareListTableHeader compactList
  = ["NODE NAME"; "NAMESPACE"; "POD NAME"; esc "0" "POD STATUS"; "CONTAINER";
     "CPU/use"; "MEM/use"]
  /\ prepareListTableHeader compactListNoMetrics
     = ["NODE NAME"; "NAMESPACE"; "POD NAME"; esc "0" "POD STATUS"; "CONTAINER";
        "CPU/req"; "CPU/lim"; "MEM/req"; "MEM/lim"].
Proof. split; reflexivity. Qed.


(** The snapshot holds a usage of 5m and 7M for the sidecar, which
    declares nothing: the lines printed are the header and the line of the
    web container. *)
Lemma sidecar_has_usage_and_no_line :
  containerMetrics busy "frontend" "sidecar"
  = (Some (NewMilliQuantity 5), Some (NewQuantity 7000000))
  /\ output <$> showPodsOnNode (withHeaders compactList) nodesUnreachable
                  [mkNode "node1"] table.NewOutputTable
     = Some [JoinTab (prepareListTableHeader compactList);
             JoinTab ["node1"; "default"; "frontend"; "Running"; "web"; "20m"; "30M"]].
Proof. split; vm_compute; reflexivity. Qed.

(** Amounts beyond the [int64] range: every field of the container with a
    CPU limit of 10E reads 0, so it is skipped; a CPU request of
    9223372036854775807 cores reads -1000 and is shown as -1. *)
Lemma amounts_beyond_int64 :
  MilliValue tenExa = 0
  /\ Value tenExa = 0
  /\ @containerRow util compactList (Some busy) "node1" "default" "frontend"
       "<unknown>" "10.0.0.7" "Running" unbounded = None
  /\ MilliValue maxInt64Units = -1000
  /\ Value maxInt64Units = 9223372036854775807
  /\ containerCPURequested
       <$> @containerRow util fullList (Some busy) "node1" "default" "frontend"
             "<unknown>" "10.0.0.7" "Running" greedy
     = Some "-1".
Proof. repeat split; vm_compute; reflexivity. Qed.

(** 1.5 MB in megabytes is 1M, and half a megabyte is 0M. *)
Lemma toUnit_of_one_and_a_half_megabytes :
  (if binPrefix fullList
   then GetBinUnit (bytes fullList) (kByte fullList) (mByte fullList) (gByte fullList)
   else GetSiUnit (bytes fullList) (kByte fullList) (mByte fullList) (gByte fullList))
  = (1000000, "M")
  /\ 0 < 1000000
  /\ 0 <= 1500000
  /\ exists n, toUnit fullList 1500000 = FormatInt n +:+ "M"
       /\ n * 1000000 <= 1500000 < (n + 1) * 1000000.
Proof.
  split; [reflexivity|]. split; [lia|]. split; [lia|].
  destruct (@toUnit_truncates util fullList 1500000 1000000 "M")
    as (n & Hshown & Hn & _); [reflexivity|lia|lia|].
  exists n. split; [exact Hshown|]. exact Hn.
Defined.

(** Sorting the two rows a second time changes nothing. *)
Lemma sorting_two_rows_twice :
  exists out, sortEntries compactList rows2 = Some out
    /\ sortEntries compactList out = Some out.
Proof.
  destruct (sortEntries compactList rows2) as [out|] eqn:Hsort;
    [|vm_compute in Hsort; discriminate].
  exists out. split; [reflexivity|].
  exact (proj2 (sortEntries_leaves_sorted_rows compactList rows2) out Hsort).
Defined.

(** Two nodes of thirteen pods each, the usage listing failed: every group
    is in the order in which its rows were built. *)
Lemma rows_of_two_nodes_without_snapshot :
  (metricsPodClient noSnapshot = None \/ metricsPodClient noSnapshot = Some None)
  /\ Forall (fun node => exists pods, GetPods noSnapshot (Node_Name node) = inr pods)
       [mkNode "node1"; mkNode "node2"]
  /\ exists r (groups : list (list podInfo)),
       showPodsOnNode compactList noSnapshot [mkNode "node1"; mkNode "node2"]
         table.NewOutputTable = Some r
       /\ err r = None
       /\ Forall2
            (fun node group =>
               exists pods,
                 GetPods noSnapshot (Node_Name node) = inr pods
                 /\ group = podLoop compactList noSnapshot None (Node_Name node) pods []
                 /\ Forall (fun row => containerCPUUsed row = None
                                       /\ containerMemoryUsed row = None) group)
            [mkNode "node1"; mkNode "node2"] groups.
Proof.
  assert (Forall (fun node => exists pods, GetPods noSnapshot (Node_Name node) = inr pods)
            [mkNode "node1"; mkNode "node2"]) as Hok.
  { repeat constructor; eexists; reflexivity. }
  split; [by right|]. split; [exact Hok|].
  destruct (list_without_snapshot_keeps_build_order compactList noSnapshot
              [mkNode "node1"; mkNode "node2"] table.NewOutputTable
              (or_intror eq_refl) Hok)
    as (r & groups & Hrun & Herr & _ & Hgroups).
  exists r, groups. split; [exact Hrun|]. split; [exact Herr|]. exact Hgroups.
Defined.

End more_examples.
